(** * decimal: a shallow embedding of the Big decimal type

    The development follows the Go sources file by file:
    - [context.go]: Context, rounding and operating modes, conditions;
    - [decimal.go]: the Big value, its special forms and the arithmetic
      methods (Abs, Add, Cmp, Copy, Mul, Neg, Quo, Round, Set, SetMantScale,
      SetString, Sub);
    - [format.go]: roundString and the formatter behind String.

    A [*Big] is a pointer: receivers and operands may alias, so every method
    is a computation over a heap of Big records, reading and writing fields
    in the order of the source.  A computation either returns or panics; a
    panic unwinds the stack but keeps what was written before it, so both
    outcomes carry the heap they leave behind. *)

From Stdlib Require Import ZArith List String Ascii Bool Lia.
Import ListNotations.
Local Open Scope Z_scope.

(** ** Machine integers *)

Definition MaxInt64 : Z := 9223372036854775807.
Definition MinInt64 : Z := -9223372036854775808.
Definition MaxInt32 : Z := 2147483647.
Definition MinInt32 : Z := -2147483648.

(** Two's complement wrap-around of a signed [w]-bit integer. *)
Definition wrap (w : Z) (x : Z) : Z := (x + 2 ^ (w - 1)) mod 2 ^ w - 2 ^ (w - 1).
Definition int64 (x : Z) : Z := wrap 64 x.
Definition int32 (x : Z) : Z := wrap 32 x.
Definition uint8 (x : Z) : Z := x mod 256.

Definition fits64 (x : Z) : bool := (MinInt64 <=? x) && (x <=? MaxInt64).
Definition fits32 (x : Z) : bool := (MinInt32 <=? x) && (x <=? MaxInt32).

(** ** Strings are byte sequences *)

Definition bytes (s : string) : list Z :=
  map (fun c => Z.of_N (N_of_ascii c)) (list_ascii_of_string s).

Definition len {A} (l : list A) : Z := Z.of_nat (List.length l).

(** ** context.go *)

Definition MaxScale : Z := MaxInt32.
Definition MinScale : Z := MinInt32.
Definition DefaultPrecision : Z := 16.
Definition noPrecision : Z := -1.

(** RoundingMode is a uint8 enumerated with iota. *)
Definition ToNearestEven : Z := 0.
Definition ToNearestAway : Z := 1.
Definition ToZero : Z := 2.
Definition AwayFromZero : Z := 3.
Definition ToNegativeInf : Z := 4.
Definition ToPositiveInf : Z := 5.

(** OperatingMode is a uint8 as well; any other value is an invalid mode. *)
Definition Go : Z := 0.
Definition GDA : Z := 1.

(** Condition is a uint32 bit mask, [1 << iota]. *)
Definition Clamped : Z := 1.
Definition ConversionSyntax : Z := 2.
Definition DivisionByZero : Z := 4.
Definition DivisionImpossible : Z := 8.
Definition DivisionUndefined : Z := 16.
Definition Inexact : Z := 32.
Definition InsufficientStorage : Z := 64.
Definition InvalidContext : Z := 128.
Definition InvalidOperation : Z := 256.
Definition Overflow : Z := 512.
Definition Rounded : Z := 1024.
Definition Subnormal : Z := 2048.
Definition Underflow : Z := 4096.

(** The two error kinds of strconv.NumError. *)
Inductive strconvErr : Set := ErrSyntax | ErrRange.

(** Go error values: the package's ErrNaN, errors.New / fmt.Errorf strings,
    strconv's NumError, and the runtime's own panics. *)
Inductive error : Set :=
| ErrNaN (Msg : string)
| errorString (s : string)
| NumError (Func : string) (Num : list Z) (Err : strconvErr)
| errInvalidMode (mode : Z)   (* fmt.Errorf("invalid OperatingMode: %d", mode) *)
| runtimeError (s : string).

Definition isErrNaN (e : option error) : bool :=
  match e with Some (ErrNaN _) => true | _ => false end.

Record Context : Set := mkContext {
  OperatingMode : Z;
  precision : Z;
  Traps : Z;
  Conditions : Z;
  Err : option error;
  RoundingMode : Z
}.

(** Context.Precision *)
Definition Context_Precision (c : Context) : Z :=
  if precision c =? 0 then DefaultPrecision
  else if precision c =? noPrecision then 0
  else precision c.

Definition with_precision (c : Context) (p : Z) : Context :=
  mkContext (OperatingMode c) p (Traps c) (Conditions c) (Err c) (RoundingMode c).
Definition with_Conditions (c : Context) (v : Z) : Context :=
  mkContext (OperatingMode c) (precision c) (Traps c) v (Err c) (RoundingMode c).
Definition with_Err (c : Context) (e : option error) : Context :=
  mkContext (OperatingMode c) (precision c) (Traps c) (Conditions c) e (RoundingMode c).

(** Context.SetPrecision *)
Definition Context_SetPrecision (c : Context) (prec : Z) : Context :=
  if prec =? 0 then with_precision c noPrecision else with_precision c prec.

(** ** decimal.go: the representation *)

(** form is a uint8 built from bit flags. *)
Definition zero : Z := 0.
Definition sign : Z := 1.
Definition nzero : Z := sign.
Definition finite : Z := 2.
Definition snan : Z := 4.
Definition qnan : Z := 8.
Definition nan : Z := Z.lor snan qnan.
Definition pinf : Z := 16.
Definition ninf : Z := Z.lor pinf sign.
Definition inf : Z := pinf.

(** The forms a Big can be assigned. *)
Definition valid_form (f : Z) : Prop :=
  f = zero \/ f = nzero \/ f = finite \/ f = snan \/ f = qnan \/ f = pinf \/ f = ninf.

Record Big : Set := mkBig {
  ctx : Context;      (* Context *)
  unscaled : Z;       (* big.Int *)
  compact : Z;        (* int64 *)
  scale : Z;          (* int32 *)
  form : Z
}.

Definition with_ctx (b : Big) (c : Context) : Big :=
  mkBig c (unscaled b) (compact b) (scale b) (form b).
Definition with_unscaled (b : Big) (v : Z) : Big :=
  mkBig (ctx b) v (compact b) (scale b) (form b).
Definition with_compact (b : Big) (v : Z) : Big :=
  mkBig (ctx b) (unscaled b) v (scale b) (form b).
Definition with_scale (b : Big) (v : Z) : Big :=
  mkBig (ctx b) (unscaled b) (compact b) v (form b).
Definition with_form (b : Big) (v : Z) : Big :=
  mkBig (ctx b) (unscaled b) (compact b) (scale b) v.

(** The zero value of the struct: what [new(Big)] allocates. *)
Definition Context0 : Context := mkContext Go 0 0 0 None ToNearestEven.
Definition Big0 : Big := mkBig Context0 0 0 0 zero.

(** ** Heap and computations *)

Definition ptr := nat.
Definition heap := ptr -> Big.

Definition upd (h : heap) (p : ptr) (b : Big) : heap :=
  fun q => if Nat.eqb q p then b else h q.

Inductive outcome (A : Type) : Type :=
| Ok (a : A) (h : heap)
| Panic (e : error) (h : heap).
Arguments Ok {A} a h.
Arguments Panic {A} e h.

Definition M (A : Type) : Type := heap -> outcome A.

Definition ret {A} (a : A) : M A := fun h => Ok a h.
Definition bind {A B} (m : M A) (k : A -> M B) : M B :=
  fun h => match m h with Ok a h' => k a h' | Panic e h' => Panic e h' end.
Definition panic {A} (e : error) : M A := fun h => Panic e h.

Notation "x <- m ;; k" := (bind m (fun x => k))
  (at level 61, m at next level, right associativity).
Notation "m ;;; k" := (bind m (fun _ => k))
  (at level 61, right associativity).

(** Field reads and writes through a pointer. *)
Definition rd {A} (p : ptr) (f : Big -> A) : M A := fun h => Ok (f (h p)) h.
Definition wr (p : ptr) (f : Big -> Big) : M unit := fun h => Ok tt (upd h p (f (h p))).

Definition rdc {A} (p : ptr) (f : Context -> A) : M A := rd p (fun b => f (ctx b)).
Definition wrc (p : ptr) (f : Context -> Context) : M unit :=
  wr p (fun b => with_ctx b (f (ctx b))).

Definition set_form (p : ptr) (v : Z) : M unit := wr p (fun b => with_form b v).
Definition set_compact (p : ptr) (v : Z) : M unit := wr p (fun b => with_compact b v).
Definition set_scale (p : ptr) (v : Z) : M unit := wr p (fun b => with_scale b v).
Definition set_unscaled (p : ptr) (v : Z) : M unit := wr p (fun b => with_unscaled b v).

(** A [*big.Int] is either the [unscaled] field of some Big or a temporary. *)
Inductive bigref : Set :=
| Field (p : ptr)
| Temp (v : Z).

Definition rdb (r : bigref) : M Z :=
  match r with Field p => rd p unscaled | Temp v => ret v end.

(** ** Helpers of the internal packages *)

(** Modelled from the spec: the constant [c.Inflated] (package internal/c is
    not under src/), the reserved value of [compact] that marks an inflated
    magnitude; the smallest int64, as the comment in Sign suggests. *)
Definition Inflated : Z := MinInt64.

(** Modelled from the spec: [arith.Abs] (internal/arith, not under src/), the
    absolute value of an int64, wrapping at the smallest value. *)
Definition arith_Abs (x : Z) : Z := int64 (Z.abs x).

(** Modelled from the spec: the checked operations of internal/arith/checked
    (not under src/): native-width arithmetic with an overflow flag.  Each
    returns the wrapped result and whether the exact result fits. *)
Definition checked_Add (x y : Z) : Z * bool := (int64 (x + y), fits64 (x + y)).
Definition checked_Sub (x y : Z) : Z * bool := (int64 (x - y), fits64 (x - y)).
Definition checked_Mul (x y : Z) : Z * bool := (int64 (x * y), fits64 (x * y)).
Definition checked_Add32 (x y : Z) : Z * bool := (int32 (x + y), fits32 (x + y)).
Definition checked_Sub32 (x y : Z) : Z * bool := (int32 (x - y), fits32 (x - y)).
Definition checked_Int32 (x : Z) : Z * bool := (int32 x, fits32 x).
Definition checked_SumSub (x y z : Z) : Z * bool := (int32 (x + y - z), fits32 (x + y - z)).

(** Modelled from the spec: [pow.Ten64] and [pow.BigTen] (internal/arith/pow,
    not under src/): the power of ten as an int64 when it fits, and as a
    big.Int. *)
Definition pow_Ten64 (e : Z) : Z * bool :=
  if (0 <=? e) && (e <=? 18) then (10 ^ e, true) else (0, false).
Definition pow_BigTen (e : Z) : Z := 10 ^ e.

(** Modelled from the spec: [checked.MulPow10] (not under src/): [x * 10^n]
    in native width with an overflow flag; a non-positive [n] leaves [x]. *)
Definition checked_MulPow10 (x n : Z) : Z * bool :=
  if n <=? 0 then (x, true)
  else if fits64 (x * 10 ^ n) then (x * 10 ^ n, true) else (0, false).

(** Modelled from the spec: [checked.MulBigPow10] (not under src/): the
    arbitrary-precision fallback.  It multiplies its argument in place and
    returns it, which is why addBig and Cmp hand it a copy. *)
Definition checked_MulBigPow10 (x : bigref) (n : Z) : M bigref :=
  let f v := if n <=? 0 then v else v * 10 ^ n in
  match x with
  | Field p => v <- rd p unscaled ;; set_unscaled p (f v) ;;; ret (Field p)
  | Temp v => ret (Temp (f v))
  end.

(** Decimal digits of a natural number, least significant first. *)
Fixpoint digits_le (fuel : nat) (n : Z) : list Z :=
  match fuel with
  | O => []
  | S k => if n <? 10 then [n] else (n mod 10) :: digits_le k (n / 10)
  end.

(** Most significant first; the fuel covers every digit of [n]. *)
Definition digits (n : Z) : list Z :=
  rev (digits_le (S (Z.to_nat (Z.log2 n))) n).

(** Modelled from the spec: [arith.Length] and [arith.BigLength]
    (internal/arith, not under src/): the number of decimal digits of the
    magnitude, 1 for zero. *)
Definition arith_Length (x : Z) : Z := len (digits (Z.abs x)).
Definition arith_BigLength (x : Z) : Z := len (digits (Z.abs x)).

(** ** decimal.go: the methods *)

(** The method names used in ErrNaN messages. *)
Definition nanMsg (op : string) : string := (op ++ " with NaN as an operand")%string.

(** checkNaNs *)
Definition checkNaNs (z x y : ptr) (op : string) : M (Z * option error) :=
  xf <- rd x form ;;
  yf <- rd y form ;;
  let f := Z.land (Z.lor xf yf) nan in
  if f =? 0 then ret (0, None)
  else
    let cond := if negb (Z.land f snan =? 0) then InvalidOperation else 0 in
    set_form z qnan ;;;
    ret (cond, Some (ErrNaN (nanMsg op))).

(** The message of the error SetString signals on the empty string:
    [SetString()] with two double quotes (byte 34) between the brackets. *)
Definition errEmptyString : error :=
  errorString
    ("SetString(" ++ String (ascii_of_nat 34) (String (ascii_of_nat 34) ")"))%string.

Definition errOverflow : error := errorString "decimal: overflow: scale is too large".
Definition errUnderflow : error := errorString "decimal: underflow: scale is too small".

(** signal *)
Definition signal (x : ptr) (c : Z) (err : option error) : M ptr :=
  mode <- rdc x OperatingMode ;;
  if mode =? Go then
    match err with
    | Some (ErrNaN m) => panic (ErrNaN m)
    | _ => ret x
    end
  else if mode =? GDA then
    wrc x (fun k => with_Conditions k c) ;;;
    traps <- rdc x Traps ;;
    (if negb (Z.land c traps =? 0) then wrc x (fun k => with_Err k err) else ret tt) ;;;
    ret x
  else
    wrc x (fun k => with_Conditions k (Z.lor c InvalidContext)) ;;;
    wrc x (fun k => with_Err k (Some (errInvalidMode mode))) ;;;
    set_form x qnan ;;;
    ret x.

(** xflow *)
Definition xflow (z : ptr) (over neg : bool) : M ptr :=
  if over then
    (if neg then set_form z ninf else set_form z pinf) ;;;
    signal z (Z.lor (Z.lor Overflow Inexact) Rounded) (Some errOverflow)
  else
    set_scale z MinScale ;;;
    (if neg then set_form z nzero else set_form z zero) ;;;
    signal z (Z.lor (Z.lor (Z.lor Underflow Inexact) Rounded) Subnormal) (Some errUnderflow).

(** The predicates and queries below only read their receiver: each is a
    function of the struct behind the pointer. *)
Definition isCompact_ (b : Big) : bool := negb (compact b =? Inflated).
Definition isCompact (x : ptr) : M bool := rd x isCompact_.
Definition isInflated (x : ptr) : M bool := rd x (fun b => negb (isCompact_ b)).

(** Abs *)
Definition Abs (z x : ptr) : M ptr :=
  xf <- rd x form ;;
  if xf =? finite then
    xc <- isCompact x ;;
    (if xc then
       c <- rd x compact ;; set_compact z (arith_Abs c)
     else
       u <- rd x unscaled ;; set_unscaled z (Z.abs u)) ;;;
    xs <- rd x scale ;;
    set_scale z xs ;;;
    set_form z finite ;;;
    ret z
  else
    ce <- checkNaNs z x x "abs" ;;
    match snd ce with
    | Some e => signal z (fst ce) (Some e)
    | None =>
        (* x.form &= ^sign *)
        xf' <- rd x form ;;
        set_form x (Z.land xf' (Z.lnot sign mod 256)) ;;;
        ret z
    end.

(** Neg *)
Definition Neg (z x : ptr) : M ptr :=
  xf <- rd x form ;;
  if xf =? finite then
    xc <- isCompact x ;;
    (if xc then
       c <- rd x compact ;; set_compact z (int64 (- c))
     else
       u <- rd x unscaled ;; set_unscaled z (- u) ;;; set_compact z Inflated) ;;;
    xs <- rd x scale ;;
    set_scale z xs ;;;
    xf' <- rd x form ;;
    set_form z xf' ;;;
    ret z
  else
    ce <- checkNaNs z x x "negation" ;;
    match snd ce with
    | Some e => signal z (fst ce) (Some e)
    | None =>
        xf' <- rd x form ;;
        set_form z (Z.lxor xf' sign) ;;;
        ret z
    end.

(** Precision *)
Definition Precision_ (b : Big) : Z :=
  if negb (form b =? finite) then
    (if form b <=? nzero then 1 else 0)
  else if isCompact_ b then arith_Length (compact b)
  else arith_BigLength (unscaled b).
Definition Precision (x : ptr) : M Z := rd x Precision_.

(** Sign: the portable branch; the amd64 bit trick computes the same value
    on every compact magnitude. *)
Definition Sign_ (b : Big) : Z :=
  if negb (form b =? finite) then
    (if (form b =? zero) || (form b =? nzero) then 0
     else if form b =? ninf then -1
     else if form b =? pinf then 1
     else 0)
  else if isCompact_ b then
    (if compact b =? 0 then 0 else if compact b <? 0 then -1 else 1)
  else Z.sgn (unscaled b).
Definition Sign (x : ptr) : M Z := rd x Sign_.

(** Signbit *)
Definition Signbit_ (b : Big) : bool :=
  if negb (form b =? finite) then (form b =? ninf) || (form b =? nzero)
  else if isCompact_ b then compact b <? 0
  else Z.sgn (unscaled b) <? 0.
Definition Signbit (x : ptr) : M bool := rd x Signbit_.

(** Modelled from the spec: [needsInc] and [needsIncBig] (declared outside
    src/): from the remainder [r] of a division by [x], decide per rounding
    mode whether the truncated quotient moves away from zero; [odd] breaks
    the tie of ToNearestEven. *)
Definition mode_needsInc (mode : Z) (c : comparison) (pos odd : bool) : bool :=
  if mode =? AwayFromZero then true
  else if mode =? ToZero then false
  else if mode =? ToPositiveInf then pos
  else if mode =? ToNegativeInf then negb pos
  else if mode =? ToNearestEven then
    match c with Lt => false | Gt => true | Eq => odd end
  else if mode =? ToNearestAway then
    match c with Lt => false | _ => true end
  else false.

Definition needsInc (z : ptr) (x r : Z) (pos odd : bool) : M bool :=
  mode <- rdc z RoundingMode ;;
  ret (mode_needsInc mode (Z.abs (2 * r) ?= Z.abs x) pos odd).

Definition needsIncBig (z : ptr) (x : bigref) (r : Z) (pos odd : bool) : M bool :=
  xv <- rdb x ;;
  mode <- rdc z RoundingMode ;;
  ret (mode_needsInc mode (Z.abs (2 * r) ?= Z.abs xv) pos odd).

(** Modelled from the spec: [cmpNorm] and [cmpNormBig] (declared outside
    src/): whether [x] exceeds [y] once both magnitudes are brought to the
    same number of digits ([xp] and [yp] are their digit counts). *)
Definition cmpNorm (x xp y yp : Z) : bool :=
  Z.abs y * 10 ^ Z.max 0 (xp - yp) <? Z.abs x * 10 ^ Z.max 0 (yp - xp).

Definition cmpNormBig (xb : bigref) (xp : Z) (yb : bigref) (yp : Z) : M bool :=
  x <- rdb xb ;; y <- rdb yb ;; ret (cmpNorm x xp y yp).

(** Modelled from the spec: [arith.BigAbs] (internal/arith, not under
    src/): the magnitude of a big.Int as a new value. *)
Definition arith_BigAbs (x : Z) : Z := Z.abs x.

(** Modelled from the spec: the constant [debug] (declared outside src/),
    false in a release build. *)
Definition debug : bool := false.

(** Go's [/] and [%] on int64: truncated, panicking on a zero divisor. *)
Definition quo64 (x y : Z) : M Z :=
  if y =? 0 then panic (runtimeError "integer divide by zero")
  else ret (int64 (Z.quot x y)).
Definition rem64 (x y : Z) : M Z :=
  if y =? 0 then panic (runtimeError "integer divide by zero")
  else ret (Z.rem x y).

(** simplify: the loop runs at most once per decimal digit of an int64. *)
Fixpoint simplify_loop (fuel : nat) (z : ptr) (prec : Z) : M ptr :=
  match fuel with
  | O => ret z
  | S k =>
      c <- rd z compact ;;
      zs <- rd z scale ;;
      if (10 <=? arith_Abs c) && (prec <? zs) then
        if negb (Z.land c 1 =? 0) || negb (Z.rem c 10 =? 0) then ret z
        else
          set_compact z (Z.quot c 10) ;;;
          wrc z (fun k => with_Conditions k (Z.lor (Conditions k) Rounded)) ;;;
          zs' <- rd z scale ;;
          let r := checked_Sub32 zs' 1 in
          set_scale z (fst r) ;;;
          if negb (snd r) then
            c' <- rd z compact ;; xflow z false (c' <? 0)
          else simplify_loop k z prec
      else ret z
  end.

Definition simplify (z : ptr) : M ptr :=
  zs <- rd z scale ;;
  p <- rdc z Context_Precision ;;
  if zs =? p then ret z
  else
    prec <- rdc z Context_Precision ;;
    simplify_loop 20 z prec.

(** quoAndRound *)
Definition quoAndRound (z : ptr) (x y : Z) : M ptr :=
  set_form z finite ;;;
  q <- quo64 x y ;;
  set_compact z q ;;;
  mode <- rdc z RoundingMode ;;
  if mode =? ToZero then ret z
  else
    r <- rem64 x y ;;
    if r =? 0 then simplify z
    else
      c <- rd z compact ;;
      (* [sign > 0] is the package constant: always true *)
      inc <- needsInc z y r (0 <? sign) (negb (Z.land c 1 =? 0)) ;;
      (if inc then
         c' <- rd z compact ;;
         if Bool.eqb (x <? 0) (y <? 0) then set_compact z (int64 (c' + 1))
         else set_compact z (int64 (c' - 1))
       else ret tt) ;;;
      ret z.

(** simplifyBig *)
Fixpoint simplifyBig_loop (fuel : nat) (z : ptr) (prec : Z) : M ptr :=
  match fuel with
  | O => ret z
  | S k =>
      u <- rd z unscaled ;;
      zs <- rd z scale ;;
      if (10 <=? arith_BigAbs u) && (prec <? zs) then
        if negb (Z.land u 1 =? 1) || negb (u mod 10 =? 0) then ret z
        else
          set_unscaled z (u / 10) ;;;
          wrc z (fun k => with_Conditions k (Z.lor (Conditions k) Rounded)) ;;;
          zs' <- rd z scale ;;
          let r := checked_Sub32 zs' 1 in
          set_scale z (fst r) ;;;
          if negb (snd r) then
            sg <- Sign z ;; xflow z false (sg <? 0)
          else simplifyBig_loop k z prec
      else ret z
  end.

Definition simplifyBig (z : ptr) : M ptr :=
  zs <- rd z scale ;;
  p <- rdc z Context_Precision ;;
  if zs =? p then ret z
  else
    u <- rd z unscaled ;;
    if fits64 u then
      set_compact z u ;;; simplify z
    else
      prec <- rdc z Context_Precision ;;
      u' <- rd z unscaled ;;
      simplifyBig_loop (S (Z.to_nat (Z.log2 (Z.abs u')))) z prec.

(** quoBigAndRound: [x] and [y] are pointers and may be [&z.unscaled]. *)
Definition quoBigAndRound (z : ptr) (x y : bigref) : M ptr :=
  set_form z finite ;;;
  set_compact z Inflated ;;;
  xv <- rdb x ;;
  yv <- rdb y ;;
  if yv =? 0 then panic (runtimeError "division by zero")
  else
    let q := Z.quot xv yv in
    let r := Z.rem xv yv in
    set_unscaled z q ;;;
    mode <- rdc z RoundingMode ;;
    zs <- rd z scale ;;
    p <- rdc z Context_Precision ;;
    if (mode =? ToZero) && (zs =? p) then ret z
    else if Z.sgn r =? 0 then simplifyBig z
    else
      qv <- rd z unscaled ;;
      let odd := negb (Z.sgn (Z.land qv 1) =? 0) in
      inc <- needsIncBig z y r (0 <? sign) odd ;;
      (if inc then
         xs <- rdb x ;;
         ys <- rdb y ;;
         u <- rd z unscaled ;;
         if Bool.eqb (Z.sgn xs <? 0) (Z.sgn ys <? 0) then set_unscaled z (u + 1)
         else set_unscaled z (u + -1)
       else ret tt) ;;;
      ret z.

(** Round *)
Definition Round (z : ptr) (n : Z) : M ptr :=
  zf <- rd z form ;;
  if (n <=? 0) || negb (zf =? finite) then ret z
  else
    zp <- Precision z ;;
    if zp <=? n then ret z
    else
      let sh := checked_Sub zp n in
      if negb (snd sh) then
        sb <- Signbit z ;; xflow z (zp <? 0) sb
      else
        let shift := fst sh in
        if shift <=? 0 then ret z
        else
          wrc z (fun k => Context_SetPrecision k n) ;;;
          wrc z (fun k => with_Conditions k (Z.lor (Conditions k) Rounded)) ;;;
          zs <- rd z scale ;;
          set_scale z (int32 (zs - int32 shift)) ;;;
          zc <- isCompact z ;;
          if zc then
            let t := pow_Ten64 shift in
            if snd t then
              c <- rd z compact ;; quoAndRound z c (fst t)
            else
              c <- rd z compact ;;
              set_unscaled z c ;;;
              quoBigAndRound z (Field z) (Temp (pow_BigTen shift))
          else
            quoBigAndRound z (Field z) (Temp (pow_BigTen shift)).

(** round *)
Definition round (z : ptr) : M ptr :=
  zp <- rdc z Context_Precision ;;
  mode <- rdc z OperatingMode ;;
  if negb (zp =? 0) && (mode =? GDA) then Round z zp else ret z.

(** Set *)
Definition Set_ (z x : ptr) : M ptr :=
  if negb (Nat.eqb z x) then
    c <- rd x compact ;; set_compact z c ;;;
    f <- rd x form ;; set_form z f ;;;
    sc <- rd x scale ;; set_scale z sc ;;;
    xi <- isInflated x ;;
    (if xi then u <- rd x unscaled ;; set_unscaled z u else ret tt) ;;;
    p <- rdc z Context_Precision ;;
    Round z p ;;;
    ret z
  else ret z.

(** The magnitude of an operand as a [*big.Int]: its own field when inflated,
    [big.NewInt(x.compact)] otherwise. *)
Definition bigOf (x : ptr) : M bigref :=
  xc <- isCompact x ;;
  if xc then c <- rd x compact ;; ret (Temp c) else ret (Field x).

(** addCompact *)
Definition addCompact (z x y : ptr) : M ptr :=
  xs <- rd x scale ;;
  ys <- rd y scale ;;
  if xs =? ys then
    xs' <- rd x scale ;;
    set_scale z xs' ;;;
    xc <- rd x compact ;;
    yc <- rd y compact ;;
    let r := checked_Add xc yc in
    (if snd r then
       (if fst r =? 0 then set_form z zero else ret tt) ;;;
       set_compact z (fst r)
     else
       set_unscaled z (xc + yc) ;;;
       (if Z.sgn (xc + yc) =? 0 then set_form z zero else ret tt) ;;;
       set_compact z Inflated) ;;;
    ret z
  else
    (* hi is the operand with the larger scale *)
    let hi := if xs <? ys then y else x in
    let lo := if xs <? ys then x else y in
    his <- rd hi scale ;;
    los <- rd lo scale ;;
    let inc := int32 (his - los) in
    his' <- rd hi scale ;;
    set_scale z his' ;;;
    loc <- rd lo compact ;;
    hic <- rd hi compact ;;
    let sl := checked_MulPow10 loc inc in
    let sum := checked_Add hic (fst sl) in
    if snd sl && snd sum then
      set_compact z (fst sum) ;;; ret z
    else
      scaled <- checked_MulBigPow10 (Temp loc) inc ;;
      sv <- rdb scaled ;;
      set_unscaled z (sv + hic) ;;;
      (if Z.sgn (sv + hic) =? 0 then set_form z zero else ret tt) ;;;
      set_compact z Inflated ;;;
      ret z.

(** addBig *)
Definition addBig (z x y : ptr) : M ptr :=
  xb <- bigOf x ;;
  yb <- bigOf y ;;
  set_compact z Inflated ;;;
  xs <- rd x scale ;;
  ys <- rd y scale ;;
  if xs =? ys then
    xs' <- rd x scale ;;
    set_scale z xs' ;;;
    xv <- rdb xb ;; yv <- rdb yb ;;
    set_unscaled z (xv + yv) ;;;
    (if Z.sgn (xv + yv) =? 0 then set_form z zero else ret tt) ;;;
    ret z
  else
    let swap := xs <? ys in
    let his := if swap then ys else xs in
    let los := if swap then xs else ys in
    let hi := if swap then yb else xb in
    let lo := if swap then xb else yb in
    (* lo = MulBigPow10(new(big.Int).Set(lo), his-los) *)
    lov <- rdb lo ;;
    lo' <- checked_MulBigPow10 (Temp lov) (int32 (his - los)) ;;
    hv <- rdb hi ;; lv <- rdb lo' ;;
    set_unscaled z (hv + lv) ;;;
    (if Z.sgn (hv + lv) =? 0 then set_form z zero else ret tt) ;;;
    set_scale z his ;;;
    ret z.

(** Add *)
Definition Add (z x y : ptr) : M ptr :=
  xf <- rd x form ;;
  yf <- rd y form ;;
  if (xf =? finite) && (yf =? finite) then
    set_form z finite ;;;
    xc <- isCompact x ;;
    yc <- isCompact y ;;
    if xc && yc then r <- addCompact z x y ;; round r
    else r <- addBig z x y ;; round r
  else
    ce <- checkNaNs z x y "addition" ;;
    match snd ce with
    | Some e => signal z (fst ce) (Some e)
    | None =>
        xf <- rd x form ;;
        yf <- rd y form ;;
        if (Z.land xf yf =? inf) && (Z.lxor xf yf =? sign) then
          set_form z qnan ;;;
          signal z InvalidOperation
            (Some (ErrNaN "addition of infinities with opposing signs"))
        else if (xf <=? nzero) && (yf <=? nzero) then
          set_form z (Z.land xf yf) ;;; ret z
        else if negb (Z.land xf inf =? 0) || (yf <=? nzero) then Set_ z x
        else Set_ z y
    end.

(** subBig: here MulBigPow10 is handed the operand's own pointer. *)
Definition subBig (z x y : ptr) : M ptr :=
  xb <- bigOf x ;;
  yb <- bigOf y ;;
  xs <- rd x scale ;;
  ys <- rd y scale ;;
  xyb <- (if xs =? ys then
            set_scale z xs ;;; ret (xb, yb)
          else if xs <? ys then
            xb' <- checked_MulBigPow10 xb (int32 (ys - xs)) ;;
            ys' <- rd y scale ;;
            set_scale z ys' ;;; ret (xb', yb)
          else
            yb' <- checked_MulBigPow10 yb (int32 (xs - ys)) ;;
            xs' <- rd x scale ;;
            set_scale z xs' ;;; ret (xb, yb')) ;;
  xv <- rdb (fst xyb) ;;
  yv <- rdb (snd xyb) ;;
  set_unscaled z (xv - yv) ;;;
  (if Z.sgn (xv - yv) =? 0 then set_form z zero else ret tt) ;;;
  set_compact z Inflated ;;;
  ret z.

(** subCompact *)
Definition subCompact (z x y : ptr) : M ptr :=
  xc <- rd x compact ;;
  yc <- rd y compact ;;
  xs <- rd x scale ;;
  ys <- rd y scale ;;
  r <- (if xs =? ys then
          set_scale z xs ;;; ret (Some (xc, yc))
        else if xs <? ys then
          let m := checked_MulPow10 xc (int32 (ys - xs)) in
          if negb (snd m) then ret None
          else ys' <- rd y scale ;; set_scale z ys' ;;; ret (Some (fst m, yc))
        else
          let m := checked_MulPow10 yc (int32 (xs - ys)) in
          if negb (snd m) then ret None
          else xs' <- rd x scale ;; set_scale z xs' ;;; ret (Some (xc, fst m))) ;;
  match r with
  | None => subBig z x y
  | Some (a, b) =>
      let d := checked_Sub a b in
      set_compact z (fst d) ;;;
      if snd d then
        (if fst d =? 0 then set_form z zero else ret tt) ;;; ret z
      else subBig z x y
  end.

(** Sub *)
Definition Sub (z x y : ptr) : M ptr :=
  xf <- rd x form ;;
  yf <- rd y form ;;
  if (xf =? finite) && (yf =? finite) then
    set_form z finite ;;;
    xc <- isCompact x ;;
    yc <- isCompact y ;;
    if xc && yc then r <- subCompact z x y ;; round r
    else r <- subBig z x y ;; round r
  else
    ce <- checkNaNs z x y "subtraction" ;;
    match snd ce with
    | Some e => signal z (fst ce) (Some e)
    | None =>
        xf <- rd x form ;;
        yf <- rd y form ;;
        if negb (Z.land xf inf =? 0) && (xf =? yf) then
          set_form z qnan ;;;
          signal z InvalidOperation
            (Some (ErrNaN "subtraction of infinities with equal signs"))
        else if (xf <=? nzero) && (yf <=? nzero) then
          set_form z zero ;;; ret z
        else if negb (Z.land xf inf =? 0) || (yf <=? nzero) then Set_ z x
        else Neg z y
    end.

(** mulCompact *)
Definition mulCompact (z x y : ptr) : M ptr :=
  xs <- rd x scale ;;
  ys <- rd y scale ;;
  let sc := checked_Add32 xs ys in
  if negb (snd sc) then
    xs' <- rd x scale ;; xflow z (0 <? xs') true
  else
    set_scale z (fst sc) ;;;
    xc <- rd x compact ;;
    yc <- rd y compact ;;
    let prod := checked_Mul xc yc in
    (if snd prod then set_compact z (fst prod)
     else set_unscaled z (xc * yc) ;;; set_compact z Inflated) ;;;
    set_form z finite ;;;
    ret z.

(** mulBig *)
Definition mulBig (z x y : ptr) : M ptr :=
  xb <- bigOf x ;;
  yb <- bigOf y ;;
  xv <- rdb xb ;; yv <- rdb yb ;;
  set_unscaled z (xv * yv) ;;;
  set_compact z Inflated ;;;
  xs <- rd x scale ;;
  ys <- rd y scale ;;
  let sc := checked_Add32 xs ys in
  if negb (snd sc) then
    xs' <- rd x scale ;; xflow z (0 <? xs') true
  else
    set_scale z (fst sc) ;;;
    set_form z finite ;;;
    ret z.

(** Mul *)
Definition Mul (z x y : ptr) : M ptr :=
  xf <- rd x form ;;
  yf <- rd y form ;;
  if (xf =? finite) && (yf =? finite) then
    set_form z finite ;;;
    xc <- isCompact x ;;
    yc <- isCompact y ;;
    if xc && yc then r <- mulCompact z x y ;; round r
    else r <- mulBig z x y ;; round r
  else
    ce <- checkNaNs z x y "multiplication" ;;
    match snd ce with
    | Some e => signal z (fst ce) (Some e)
    | None =>
        xf <- rd x form ;;
        yf <- rd y form ;;
        if (xf <=? nzero) && negb (Z.land yf inf =? 0)
           || negb (Z.land xf inf =? 0) && (yf <=? nzero) then
          set_form z qnan ;;;
          signal z InvalidOperation
            (Some (ErrNaN "multiplication of zero with infinity"))
        else if negb (Z.land xf inf =? 0) || negb (Z.land yf inf =? 0) then
          sx <- Sign x ;;
          sy <- Sign y ;;
          (if negb (sx =? sy) then set_form z ninf else set_form z pinf) ;;;
          ret z
        else
          set_form z zero ;;; ret z
    end.

(** quoCompactCore *)
Definition quoCompactCore (z : ptr) (x xs xp y ys yp : Z) : M ptr :=
  let sd := checked_Sub32 xs ys in
  if negb (snd sd) then xflow z (0 <? ys) true
  else
    let sdiff := fst sd in
    let yp := if cmpNorm x xp y yp then int32 (yp - 1) else yp in
    zp <- rdc z Context_Precision ;;
    let sc := checked_Int32 (sdiff + yp - xp + zp) in
    if negb (snd sc) then xflow z (fst sc <? 0) false
    else
      set_scale z (fst sc) ;;;
      let sh := checked_SumSub zp yp xp in
      if negb (snd sh) then xflow z (fst sc <? 0) false
      else if 0 <? fst sh then
        let sx := checked_MulPow10 x (fst sh) in
        if snd sx then quoAndRound z (fst sx) y
        else
          xb <- checked_MulBigPow10 (Temp x) (fst sh) ;;
          quoBigAndRound z xb (Temp y)
      else
        let ns := checked_Sub32 xp zp in
        if negb (snd ns) then xflow z (0 <? zp) true
        else if fst ns =? yp then quoAndRound z x y
        else
          let sh2 := checked_Sub32 (fst ns) yp in
          if negb (snd sh2) then xflow z (0 <? yp) true
          else
            let sy := checked_MulPow10 y (fst sh2) in
            if snd sy then quoAndRound z x (fst sy)
            else
              yb <- checked_MulBigPow10 (Temp y) (fst sh2) ;;
              quoBigAndRound z (Temp x) yb.

(** quoCompact *)
Definition quoCompact (z x y : ptr) : M ptr :=
  xc <- rd x compact ;; xs <- rd x scale ;; xp <- Precision x ;;
  yc <- rd y compact ;; ys <- rd y scale ;; yp <- Precision y ;;
  quoCompactCore z xc xs (int32 xp) yc ys (int32 yp).

(** quoBigCore: [xc] and [yc] override [xb] and [yb] unless Inflated. *)
Definition quoBigCore (z : ptr) (xb : bigref) (xc xs xp : Z)
                      (yb : bigref) (yc ys yp : Z) : M ptr :=
  let sd := checked_Sub32 xs ys in
  if negb (snd sd) then xflow z (0 <? ys) true
  else
    let sdiff := fst sd in
    gt <- cmpNormBig xb xp yb yp ;;
    let yp := if (gt : bool) then int32 (yp - 1) else yp in
    zp <- rdc z Context_Precision ;;
    let sc := checked_Int32 (sdiff + yp - xp + zp) in
    if negb (snd sc) then xflow z (fst sc <? 0) true
    else
      set_scale z (fst sc) ;;;
      let sh := checked_SumSub zp yp xp in
      if negb (snd sh) then xflow z (fst sh <? 0) true
      else if 0 <? fst sh then
        let yb := if negb (yc =? Inflated) then Temp yc else yb in
        xb' <- (if xc =? Inflated then
                  v <- rdb xb ;; checked_MulBigPow10 (Temp v) (fst sh)
                else
                  let m := checked_MulPow10 xc (fst sh) in
                  if snd m then ret (Temp (fst m))
                  else checked_MulBigPow10 (Temp xc) (fst sh)) ;;
        quoBigAndRound z xb' yb
      else
        let ns := checked_Sub32 xp zp in
        if negb (snd ns) then xflow z (0 <? zp) true
        else
          let sh2 := checked_Sub32 (fst ns) yp in
          if negb (snd sh2) then xflow z (0 <? yp) true
          else
            let xb := if negb (xc =? Inflated) then Temp xc else xb in
            yb' <- (if yc =? Inflated then
                      v <- rdb yb ;; checked_MulBigPow10 (Temp v) (fst sh2)
                    else
                      let m := checked_MulPow10 yc (fst sh2) in
                      if snd m then ret (Temp (fst m))
                      else checked_MulBigPow10 (Temp yc) (fst sh2)) ;;
            quoBigAndRound z xb yb'.

(** quoBig *)
Definition quoBig (z x y : ptr) : M ptr :=
  xc <- rd x compact ;; xs <- rd x scale ;; xp <- Precision x ;;
  yc <- rd y compact ;; ys <- rd y scale ;; yp <- Precision y ;;
  quoBigCore z (Field x) xc xs (int32 xp) (Field y) yc ys (int32 yp).

(** Quo *)
Definition Quo (z x y : ptr) : M ptr :=
  xf <- rd x form ;;
  yf <- rd y form ;;
  if (xf =? finite) && (yf =? finite) then
    xc <- isCompact x ;;
    yc <- isCompact y ;;
    if xc && yc then quoCompact z x y else quoBig z x y
  else
    ce <- checkNaNs z x y "division" ;;
    match snd ce with
    | Some e => signal z (fst ce) (Some e)
    | None =>
        xf <- rd x form ;;
        yf <- rd y form ;;
        if (xf <=? nzero) && (yf <=? nzero)
           || negb (Z.land xf inf =? 0) && negb (Z.land yf inf =? 0) then
          set_form z qnan ;;;
          signal z InvalidOperation
            (Some (ErrNaN "division of zero by zero or infinity by infinity"))
        else if (xf <=? nzero) || negb (Z.land yf inf =? 0) then
          set_form z zero ;;; ret z
        else
          xs <- Signbit x ;;
          ys <- Signbit y ;;
          (if negb (Bool.eqb xs ys) && (xs || ys) then set_form z ninf
           else set_form z pinf) ;;;
          (* x.form is read again, after z.form has been written *)
          xf' <- rd x form ;;
          if negb (Z.land xf' inf =? 0) then ret z
          else signal z DivisionByZero (Some (errorString "division by zero"))
    end.

(** Cmp *)
Definition cmpInt (a b : Z) : Z :=
  if b <? a then 1 else if a <? b then -1 else 0.

Definition Cmp (z x : ptr) : M Z :=
  if Nat.eqb z x then ret 0
  else
    ce <- checkNaNs z z x "comparison" ;;
    match snd ce with
    | Some e => signal z (fst ce) (Some e) ;;; ret 0
    | None =>
        zs <- Sign z ;;
        xs <- Sign x ;;
        if xs <? zs then ret 1
        else if zs <? xs then ret (-1)
        else if (zs =? 0) && (xs =? 0) then ret 0
        else
          zsc <- rd z scale ;;
          xsc <- rd x scale ;;
          zc <- rd z compact ;; xc <- rd x compact ;;
          zu <- rd z unscaled ;; xu <- rd x unscaled ;;
          if zsc =? xsc then
            if negb (zc =? Inflated) && negb (xc =? Inflated) then ret (cmpInt zc xc)
            else if (zc =? Inflated) && (xc =? Inflated) then ret (cmpInt zu xu)
            else if negb (zc =? Inflated) then ret (cmpInt zc xu)
            else ret (cmpInt zu xc)
          else
            zp <- Precision z ;;
            xp <- Precision x ;;
            let zl := zp - zsc in
            let xl := xp - xsc in
            if zl <? xl then ret (- zs)
            else if xl <? zl then ret zs
            else
              let swap := zsc <? xsc in
              (* after the swap the x-variables hold the operand of lower scale *)
              let hi := if swap then xsc else zsc in
              let lo := if swap then zsc else xsc in
              let hc := if swap then xc else zc in
              let hm := if swap then xu else zu in
              let lc := if swap then zc else xc in
              let lm := if swap then zu else xu in
              let diff := fst (checked_Sub32 hi lo) in
              if debug && negb (snd (checked_Sub32 hi lo)) then
                panic (runtimeError "should not be reached")
              else
                (* inflate lo *)
                l' <- (if negb (lc =? Inflated) then
                         let m := checked_MulPow10 lc diff in
                         if negb (snd m) then
                           b <- checked_MulBigPow10 (Temp lc) diff ;;
                           v <- rdb b ;; ret (Inflated, v)
                         else ret (fst m, lm)
                       else
                         b <- checked_MulBigPow10 (Temp lm) diff ;;
                         v <- rdb b ;; ret (lc, v)) ;;
                (* swap back *)
                let zc' := if swap then fst l' else hc in
                let zm' := if swap then snd l' else hm in
                let xc' := if swap then hc else fst l' in
                let xm' := if swap then hm else snd l' in
                if negb (zc' =? Inflated) then
                  if negb (xc' =? Inflated) then ret (cmpInt zc' xc')
                  else ret (cmpInt zc' xm')
                else if negb (xc' =? Inflated) then ret (cmpInt zm' xc')
                else ret (cmpInt zm' xm')
    end.

(** ** Go strings and strconv *)

Definition byteAt (s : list Z) (i : Z) : M Z :=
  if (0 <=? i) && (i <? len s) then ret (nth (Z.to_nat i) s 0)
  else panic (runtimeError "index out of range").

(** s[:i] and s[i:] *)
Definition upto (i : Z) (s : list Z) : list Z := firstn (Z.to_nat i) s.
Definition from (i : Z) (s : list Z) : list Z := skipn (Z.to_nat i) s.

(** strings.LastIndexAny *)
Fixpoint LastIndexAny (s chars : list Z) : Z :=
  match s with
  | [] => -1
  | c :: t =>
      let r := LastIndexAny t chars in
      if 0 <=? r then r + 1
      else if existsb (Z.eqb c) chars then 0 else -1
  end.

(** strings.Count, for a one-byte separator *)
Fixpoint Count (s : list Z) (c : Z) : Z :=
  match s with
  | [] => 0
  | d :: t => (if d =? c then 1 else 0) + Count t c
  end.

(** strings.IndexByte *)
Fixpoint IndexByte (s : list Z) (c : Z) : Z :=
  match s with
  | [] => -1
  | d :: t =>
      if d =? c then 0
      else let r := IndexByte t c in if r <? 0 then -1 else r + 1
  end.

Definition isDigit (c : Z) : bool := (48 <=? c) && (c <=? 57).

(** strconv.AppendUint(_, n, 10) and strconv.Itoa *)
Definition utoa (n : Z) : list Z := map (fun d => 48 + d) (digits n).
Definition Itoa (n : Z) : list Z :=
  if n <? 0 then 45 :: utoa (- n) else utoa n.

(** strconv.ParseUint in base 10: the scan stops at the first byte that is
    not a digit (syntax) or that takes the value past [maxVal] (range). *)
Fixpoint parseUint_loop (s : list Z) (n maxVal : Z) : Z * option strconvErr :=
  match s with
  | [] => (n, None)
  | d :: t =>
      if isDigit d then
        let n1 := n * 10 + (d - 48) in
        if maxVal <? n1 then (2 ^ 64 - 1, Some ErrRange)
        else parseUint_loop t n1 maxVal
      else (0, Some ErrSyntax)
  end.

Definition ParseUint (s : list Z) (bitSize : Z) : Z * option strconvErr :=
  match s with
  | [] => (0, Some ErrSyntax)
  | _ => parseUint_loop s 0 (2 ^ bitSize - 1)
  end.

(** strconv.ParseInt in base 10 *)
Definition ParseInt (s : list Z) (bitSize : Z) : Z * option strconvErr :=
  match s with
  | [] => (0, Some ErrSyntax)
  | c :: t =>
      let neg := c =? 45 in
      let rest := if (c =? 43) || neg then t else s in
      let r := ParseUint rest bitSize in
      match snd r with
      | Some ErrSyntax => (0, Some ErrSyntax)
      | _ =>
          let un := fst r in
          let cutoff := 2 ^ (bitSize - 1) in
          if negb neg && (cutoff <=? un) then (cutoff - 1, Some ErrRange)
          else if neg && (cutoff <? un) then (- cutoff, Some ErrRange)
          else (if neg then - un else un, None)
      end
  end.

(** The value of a string of decimal digits. *)
Definition digitsVal (s : list Z) : Z :=
  fold_left (fun a d => a * 10 + (d - 48)) s 0.

(** big.Int.SetString(s, 10): an optional sign and at least one digit,
    nothing else. *)
Definition big_SetString (s : list Z) : option Z :=
  match s with
  | [] => None
  | c :: t =>
      let neg := c =? 45 in
      let rest := if (c =? 43) || neg then t else s in
      match rest with
      | [] => None
      | _ =>
          if forallb isDigit rest
          then Some (if neg then - digitsVal rest else digitsVal rest)
          else None
      end
  end.

Inductive Special : Set := QNaN | SNaN | PInf | NInf | Invalid.

Definition lower (c : Z) : Z := if (65 <=? c) && (c <=? 90) then c + 32 else c.

Definition eqBytes (a b : list Z) : bool :=
  (Nat.eqb (List.length a) (List.length b)) && forallb (fun p => fst p =? snd p) (combine a b).

(** [s] is the word [w] followed by digits only. *)
Definition wordDigits (w s : list Z) : bool :=
  eqBytes (firstn (List.length w) s) w && forallb isDigit (skipn (List.length w) s).

(** Modelled from the spec: [parse.ParseSpecial] (internal/parse, not under
    src/): case-insensitively, after an optional sign, "inf" or "infinity",
    or "nan", "qnan" or "snan" with optional trailing diagnostic digits. *)
Definition ParseSpecial (s : list Z) : Special :=
  match s with
  | [] => Invalid
  | c :: t =>
      let neg := c =? 45 in
      let rest := map lower (if (c =? 43) || neg then t else s) in
      if eqBytes rest (bytes "inf") || eqBytes rest (bytes "infinity")
      then (if neg then NInf else PInf)
      else if wordDigits (bytes "nan") rest || wordDigits (bytes "qnan") rest then QNaN
      else if wordDigits (bytes "snan") rest then SNaN
      else Invalid
  end.

(** The last part of SetString, from [z.form = finite] to the end: the
    digits [s] (sign included, radix point removed) are read into compact
    or, past 19 bytes or past the int64 range, into unscaled. *)
Definition SetString_digits (z : ptr) (s : list Z) (scale_ : Z) : M (ptr * bool) :=
  set_form z finite ;;;
  let p := ParseInt s 64 in
  st <- (if len s <=? 19 then
           set_compact z (fst p) ;;;
           match snd p with
           | Some ErrSyntax =>
               set_form z qnan ;;;
               signal z ConversionSyntax (Some (NumError "ParseInt" s ErrSyntax)) ;;;
               ret None
           | Some ErrRange =>
               (if fst p =? Inflated then set_unscaled z (fst p) else ret tt) ;;;
               ret (Some true)
           | None =>
               (if fst p =? 0 then
                  s0 <- byteAt s 0 ;;
                  if s0 =? 45 then set_form z nzero else set_form z zero
                else ret tt) ;;;
               (if fst p =? Inflated then set_unscaled z (fst p) else ret tt) ;;;
               ret (Some false)
           end
         else ret (Some false)) ;;
  match st with
  | None => ret (z, false)
  | Some rangeErr =>
      if rangeErr && (len s =? 19) || (19 <? len s) then
        match big_SetString s with
        | None =>
            r <- signal z ConversionSyntax
                   (Some (errorString "SetString: invalid syntax")) ;;
            ret (r, false)
        | Some v =>
            set_unscaled z v ;;;
            set_compact z Inflated ;;;
            (if Z.sgn v =? 0 then
               s0 <- byteAt s 0 ;;
               if s0 =? 45 then set_form z nzero else set_form z zero
             else ret tt) ;;;
            set_scale z scale_ ;;;
            ret (z, true)
        end
      else
        set_scale z scale_ ;;;
        ret (z, true)
  end.

(** SetString *)
Definition SetString (z : ptr) (s : list Z) : M (ptr * bool) :=
  match s with
  | [] =>
      r <- signal z ConversionSyntax (Some errEmptyString) ;;
      ret (r, false)
  | _ =>
  match ParseSpecial s with
  | QNaN => set_form z qnan ;;; ret (z, true)
  | SNaN => set_form z snan ;;; ret (z, true)
  | PInf => set_form z pinf ;;; ret (z, true)
  | NInf => set_form z ninf ;;; ret (z, true)
  | Invalid =>
      (* Check for a scientific string. *)
      let i := LastIndexAny s (bytes "Ee") in
      let e := ParseInt (from (i + 1) s) 32 in
      if (0 <? i) && (match snd e with Some ErrSyntax => true | _ => false end) then
        set_form z qnan ;;;
        r <- signal z ConversionSyntax
               (Some (NumError "ParseInt" (from (i + 1) s) ErrSyntax)) ;;
        ret (r, false)
      else if (0 <? i) && (match snd e with Some ErrRange => true | _ => false end) then
        s0 <- byteAt s 0 ;;
        r <- xflow z (fst e <? 0) (s0 =? 45) ;;
        ret (r, false)
      else
        let s1 := if 0 <? i then upto i s else s in
        let scale0 := if 0 <? i then int32 (- int32 (fst e)) else 0 in
        let dots := Count s1 46 in
        if 2 <=? dots then
          r <- signal z ConversionSyntax
                 (Some (errorString "SetString: too many '.' in input")) ;;
          ret (r, false)
        else
          let j := IndexByte s1 46 in
          let s2 := if dots =? 1 then upto j s1 ++ from (j + 1) s1 else s1 in
          let sc := checked_Add32 scale0 (int32 (len s2 - j)) in
          if (dots =? 1) && negb (snd sc) then
            s0 <- byteAt s2 0 ;;
            r <- xflow z true (s0 =? 45) ;;
            ret (r, false)
          else
            SetString_digits z s2 (if dots =? 1 then fst sc else scale0)
  end
  end.

(** ** format.go *)

(** allZeros *)
Definition allZeros (b : list Z) : bool := forallb (fun c => c =? 48) b.

Definition getb (b : list Z) (i : nat) : Z := nth i b 0.
Fixpoint setb (b : list Z) (i : nat) (v : Z) : list Z :=
  match b, i with
  | [], _ => []
  | _ :: t, O => v :: t
  | c :: t, S j => c :: setb t j v
  end.

(** The carry loop of roundString: indices [k-1] down to 0. *)
Fixpoint carry (b : list Z) (k : nat) : list Z :=
  match k with
  | O => b
  | S j =>
      if negb (getb b j =? 57) then setb b j (uint8 (getb b j + 1))
      else carry (setb b j 48) j
  end.

(** roundString; [None] is the run-time panic of an index out of range
    (a negative [prec], or [prec = 0] with a digit to drop). *)
Definition roundString (b : list Z) (mode : Z) (pos : bool) (prec : Z) : option (list Z) :=
  if len b <=? prec then Some b
  else if prec <? 0 then None
  else if allZeros (from prec b) then Some (upto prec b)
  else if prec =? 0 then None
  else
    let b := upto (prec + 1) b in
    let i := Z.to_nat (prec - 1) in
    let inc :=
      if mode =? AwayFromZero then true
      else if mode =? ToZero then false
      else if mode =? ToPositiveInf then pos
      else if mode =? ToNegativeInf then negb pos
      else if mode =? ToNearestEven then
        (53 <? getb b (S i)) || ((getb b (S i) =? 53) && negb (getb b i mod 2 =? 0))
      else if mode =? ToNearestAway then 53 <=? getb b (S i)
      else false in
    let b := if inc then setb b i (uint8 (getb b i + 1)) else b in
    if negb (getb b i =? 58) then Some (upto prec b)
    else
      (* We had to carry. *)
      let b := carry (setb b i 48) i in
      if getb b 0 =? 48 then
        (* copy(b[1:], b); b[0] = '1'; prec++ *)
        Some (49 :: upto prec b)
      else Some (upto prec b).

(** formatCompact and formatUnscaled *)
Definition formatCompact (x : Z) : list Z :=
  let x := if x <? 0 then int64 (- x) else x in
  utoa (x mod 2 ^ 64).
Definition formatUnscaled (u : Z) : list Z := utoa (Z.abs u).

Definition noWidth : Z := -1.
Definition noPrec : Z := -1.

Definition normal : Z := 0.
Definition plain : Z := 1.
Definition sci : Z := 2.

(** The formatter with the bytes written so far. *)
Record formatter : Set := mkFormatter {
  f_w : list Z;
  f_sign : Z;
  f_prec : Z;
  f_width : Z;
  f_n : Z
}.

Definition Write (f : formatter) (p : list Z) : formatter :=
  mkFormatter (f_w f ++ p) (f_sign f) (f_prec f) (f_width f) (f_n f + len p).
Definition WriteByte (f : formatter) (c : Z) : formatter := Write f [c].
Definition WriteString (f : formatter) (s : string) : formatter := Write f (bytes s).
(** io.CopyN(f, zeroReader, k) *)
Definition writeZeros (f : formatter) (k : Z) : formatter :=
  Write f (repeat 48 (Z.to_nat k)).
Definition with_f_prec (f : formatter) (p : Z) : formatter :=
  mkFormatter (f_w f) (f_sign f) p (f_width f) (f_n f).

(** trimIndex *)
Fixpoint trimIndex_rev (r : list Z) : Z :=   (* r is the buffer reversed *)
  match r with
  | [] => -1
  | c :: t => if negb (c =? 48) then len r else trimIndex_rev t
  end.
Definition trimIndex (b : list Z) : Z := trimIndex_rev (rev b).

(** formatSci *)
Definition formatSci (f : formatter) (b : list Z) (adj : Z) (e : Z) : M formatter :=
  b0 <- byteAt b 0 ;;
  let f := WriteByte f b0 in
  let f :=
    if 1 <? len b then
      let f := WriteByte f 46 in
      let b := from 1 b in
      let f := if len b <? f_prec f then with_f_prec f (len b) else f in
      let i := trimIndex b in
      let b := if (0 <=? i) && (i <? len b) then upto i b else b in
      Write f b
    else f in
  ret (if negb (adj =? 0) then
         let f := WriteByte f e in
         let f := if 0 <? adj then WriteByte f 43 else f in
         Write f (Itoa adj)
       else f).

(** formatPlain *)
Definition formatPlain (f : formatter) (b : list Z) (scale : Z) : formatter :=
  let radix := len b - scale in
  if radix =? 0 then
    let f := WriteString f "0." in
    let i := trimIndex b in
    Write f (if 0 <? i then upto i b else b)
  else if 0 <? radix then
    let f := Write f (upto radix b) in
    let i := trimIndex (from radix b) in
    if 0 <? i then Write (WriteByte f 46) (upto i (from radix b)) else f
  else
    let f := writeZeros (WriteString f "0.") (- radix) in
    let e := if (noPrec <? f_prec f) && (f_prec f <? len b) then f_prec f else len b in
    Write f (upto e b).

(** format; a [*Big] of the model is never nil.  Go's [int] is taken 64 bits
    wide (amd64): the scale, an int32 widened to int, and the adjusted
    exponent never wrap. *)
Definition format (f : formatter) (x : ptr) (fmt : Z) (e : Z) : M formatter :=
  m <- rd x form ;;
  if negb (m =? finite) then
    o <- rdc x OperatingMode ;;
    if (o =? Go) || (o =? GDA) then
      if (m =? nzero) || (m =? zero) then
        let f := if m =? nzero then WriteByte f 45 else f in
        ret (if f_width f =? noWidth then WriteByte f 48
             else writeZeros (WriteString f "0.") (f_width f))
      else if m =? snan then ret (WriteString f (if o =? Go then "NaN" else "sNaN"))
      else if m =? qnan then ret (WriteString f "NaN")
      else if m =? pinf then ret (WriteString f (if o =? Go then "+Inf" else "Infinity"))
      else if m =? ninf then ret (WriteString f (if o =? Go then "-Inf" else "-Infinity"))
      else ret f
    else
      signal x 0 None ;;; ret f
  else
    neg <- Signbit x ;;
    let f := if neg then WriteByte f 45
             else if negb (f_sign f =? 0) then WriteByte f (f_sign f) else f in
    xi <- isInflated x ;;
    u <- rd x unscaled ;;
    c <- rd x compact ;;
    let b := if xi then formatUnscaled u else formatCompact c in
    sc <- rd x scale ;;
    mode <- rdc x RoundingMode ;;
    match (if 0 <? f_prec f then roundString b mode (negb neg) (f_prec f) else Some b) with
    | None => panic (runtimeError "index out of range")
    | Some b' =>
        let scale := if 0 <? f_prec f then sc - (len b - len b') else sc in
        let adj := - scale + (len b' - 1) in
        if negb (fmt =? sci) && (0 <=? scale) && ((fmt =? plain) || (-6 <=? adj)) then
          ret (formatPlain f b' scale)
        else if negb (fmt =? sci) && (fmt =? plain) && (scale <? 0) then
          ret (writeZeros (Write f b') (- scale))
        else formatSci f b' adj e
    end.

(** String (and MarshalText): default flags. *)
Definition String_ (x : ptr) : M (list Z) :=
  f <- format (mkFormatter [] 0 noPrec noWidth 0) x normal 101 ;;
  ret (f_w f).

(** ** Running the model on the scenarios of the package documentation *)

Definition heap0 : heap := fun _ => Big0.

(** The Big that [p] holds when a computation returns. *)
Definition result {A} (o : outcome A) (p : ptr) : option Big :=
  match o with Ok _ h => Some (h p) | Panic _ _ => None end.
Definition value {A} (o : outcome A) : option A :=
  match o with Ok a _ => Some a | Panic _ _ => None end.

(** Constructors of the package, on record level: what New(value, scale)
    stores (SetMantScale on a fresh Big), and the special values. *)
Definition New (value scale_ : Z) : Big :=
  if value =? 0 then Big0
  else mkBig Context0 (if value =? Inflated then value else 0) value scale_ finite.
Definition inContext (c : Context) (b : Big) : Big := with_ctx b c.
Definition special (f : Z) : Big := with_form Big0 f.

Definition ContextGDA : Context := mkContext GDA 0 0 0 None ToNearestEven.

(** A heap with the Bigs [z], [x], [y] at the addresses 0, 1, 2. *)
Definition heap3 (z x y : Big) : heap :=
  upd (upd (upd heap0 0%nat z) 1%nat x) 2%nat y.

Definition form_of {A} (o : outcome A) (p : ptr) : option Z := option_map form (result o p).
Definition conditions_of {A} (o : outcome A) (p : ptr) : option Z :=
  option_map (fun b => Conditions (ctx b)) (result o p).
Definition err_of {A} (o : outcome A) (p : ptr) : option (option error) :=
  option_map (fun b => Err (ctx b)) (result o p).

(** What an operation named [op] leaves behind when an operand is a NaN,
    [signaling] telling whether one of them is a signaling NaN: the receiver
    struct after checkNaNs and signal, in GDA mode and in an invalid mode. *)
Definition isNaN (f : Z) : bool := (f =? snan) || (f =? qnan).

Definition nanBig (op : string) (signaling : bool) (b : Big) : Big :=
  let k := ctx b in
  let c := if signaling then InvalidOperation else 0 in
  let k' :=
    if OperatingMode k =? GDA then
      mkContext (OperatingMode k) (precision k) (Traps k) c
        (if Z.land c (Traps k) =? 0 then Err k else Some (ErrNaN (nanMsg op)))
        (RoundingMode k)
    else
      mkContext (OperatingMode k) (precision k) (Traps k) (Z.lor c InvalidContext)
        (Some (errInvalidMode (OperatingMode k))) (RoundingMode k) in
  mkBig k' (unscaled b) (compact b) (scale b) qnan.

(** The outcome [o] of such a call on the receiver [z], returning [r]: in
    Go mode a panic carrying ErrNaN, raised after checkNaNs has made [z] a
    quiet NaN and with nothing else written; otherwise a return with only
    [z] changed, to [nanBig]. *)
Definition nanOutcome {A} (op : string) (signaling : bool) (z : ptr) (r : A)
                      (h : heap) (o : outcome A) : Prop :=
  if OperatingMode (ctx (h z)) =? Go then
    exists h',
      o = Panic (ErrNaN (nanMsg op)) h' /\ h' z = with_form (h z) qnan /\
      (forall p, p <> z -> h' p = h p)
  else exists h',
         o = Ok r h' /\ h' z = nanBig op signaling (h z) /\
         (forall p, p <> z -> h' p = h p).

(** Two structs hold the same decimal: same form and context and, when
    finite, the same magnitude and scale. *)
Definition same_decimal (a b : Big) : Prop :=
  form a = form b /\ ctx a = ctx b /\
  (form a = finite ->
   compact a = compact b /\ scale a = scale b /\
   (compact a = Inflated -> unscaled a = unscaled b)).

(** Two calls on the receiver [z] end alike: the same panic, or the same
    returned pointer with the same decimal in [z] and nothing else touched
    differently. *)
Definition same_outcome (z : ptr) (o1 o2 : outcome ptr) : Prop :=
  match o1, o2 with
  | Panic e1 h1, Panic e2 h2 =>
      e1 = e2 /\ same_decimal (h1 z) (h2 z) /\ (forall p, p <> z -> h1 p = h2 p)
  | Ok r1 h1, Ok r2 h2 =>
      r1 = r2 /\ same_decimal (h1 z) (h2 z) /\ (forall p, p <> z -> h1 p = h2 p)
  | _, _ => False
  end.

(** What Set copies from [bx] into the receiver struct [bz] before it
    rounds. *)
Definition Set_copy (bz bx : Big) : Big :=
  mkBig (ctx bz) (if isCompact_ bx then unscaled bz else unscaled bx)
        (compact bx) (scale bx) (form bx).

(** The value of a little-endian list of digits. *)
Fixpoint le_val (l : list Z) : Z :=
  match l with
  | [] => 0
  | d :: t => d + 10 * le_val t
  end.

Definition is_digit (d : Z) : Prop := 0 <= d <= 9.

(** The signed magnitude a finite Big stands for, read from whichever of
    compact and unscaled is authoritative. *)
Definition mag (b : Big) : Z := if isCompact_ b then compact b else unscaled b.

(** Bytes that occur in a mantissa or in an exponent: none is [E] or [e]. *)
Definition numeric (c : Z) : bool :=
  isDigit c || (c =? 43) || (c =? 45) || (c =? 46).

(** The exponent part that formatSci writes for a non-zero [E]. *)
Definition expPart (E : Z) : list Z :=
  101 :: (if 0 <? E then [43] else []) ++ Itoa E.

(** A decimal numeral: sign, integer digits, optional point and fraction
    digits, optional exponent. *)
Definition numeral (neg : bool) (ip : list Z) (fp : option (list Z)) (ex : option Z) : list Z :=
  (if neg then [45] else []) ++ ip
    ++ match fp with Some f => 46 :: f | None => [] end
    ++ match ex with Some E => expPart E | None => [] end.

(** The facts SetString needs about a numeral, and how its digits and
    exponent relate to a magnitude [m] at scale [sc]: the numeral stands for
    [m / 10^sc] with [k] trailing zeros of the magnitude dropped. *)
Definition renders (ip : list Z) (fp : option (list Z)) (ex : option Z)
                   (m sc : Z) (k : nat) : Prop :=
  let f := match fp with Some f => f | None => [] end in
  let E := match ex with Some E => E | None => 0 end in
  ip <> [] /\ forallb isDigit ip = true /\
  (forall f, fp = Some f -> forallb isDigit f = true /\ len f <= MaxInt32) /\
  (forall E, ex = Some E -> E <> 0 /\ - MaxInt32 <= E <= MaxInt32) /\
  len f - E = sc - Z.of_nat k /\
  (MinInt32 <= sc - Z.of_nat k /\ Z.of_nat k <= MaxInt32) /\
  digitsVal (ip ++ f) * 10 ^ Z.of_nat k = Z.abs m.

(** The integer coefficient a Big stands for: the magnitude of a finite
    form, 0 for the zero forms (whose magnitude fields are not looked at). *)
Definition coef (b : Big) : Z := if form b =? finite then mag b else 0.

(** The forms that denote a number: finite and the two zeros. *)
Definition number_form (f : Z) : Prop := f = finite \/ f = zero \/ f = nzero.

(** Copy *)
Definition Copy (z x : ptr) : M ptr :=
  if negb (Nat.eqb z x) then
    c <- rd x compact ;; set_compact z c ;;;
    k <- rd x ctx ;; wr z (fun b => with_ctx b k) ;;;
    f <- rd x form ;; set_form z f ;;;
    sc <- rd x scale ;; set_scale z sc ;;;
    xi <- isInflated x ;;
    (if xi then u <- rd x unscaled ;; set_unscaled z u else ret tt) ;;;
    ret z
  else ret z.

(** SetMantScale *)
Definition SetMantScale (z : ptr) (value scale_ : Z) : M ptr :=
  if value =? 0 then set_form z zero ;;; ret z
  else
    set_scale z scale_ ;;;
    (if value =? Inflated then set_unscaled z value else ret tt) ;;;
    set_compact z value ;;;
    set_form z finite ;;;
    ret z.

(** ** Zeros and infinities *)

(** Zero forms and infinite forms. *)
Definition is_zero (f : Z) : Prop := f = zero \/ f = nzero.
Definition is_inf (f : Z) : Prop := f = pinf \/ f = ninf.
Definition is_zero_b (f : Z) : bool := (f =? zero) || (f =? nzero).

(** [h'] is [h] with the form of [z] set to [f] and nothing else written. *)
Definition only_form (h h' : heap) (z : ptr) (f : Z) : Prop :=
  h' z = with_form (h z) f /\ (forall p, p <> z -> h' p = h p).

(** An operation ends as an invalid operation in GDA mode: it returns z as
    a quiet NaN with Conditions = InvalidOperation. *)
Definition invalid_result (z : ptr) (o : outcome ptr) : Prop :=
  exists h', o = Ok z h' /\ form (h' z) = qnan /\
             Conditions (ctx (h' z)) = InvalidOperation.

(** ** Condition bits across a call *)

(** Every bit of [c] is set in [c']. *)
Definition bits_kept (c c' : Z) : Prop := Z.land c c' = c.

(** The condition sets that the arithmetic operations hand to signal: none
    (a quiet NaN operand), an invalid operation, a division by zero, an
    overflow and an underflow. *)
Definition signalled (c : Z) : Prop :=
  c = 0 \/ c = InvalidOperation \/ c = DivisionByZero \/
  c = Z.lor (Z.lor Overflow Inexact) Rounded \/
  c = Z.lor (Z.lor (Z.lor Underflow Inexact) Rounded) Subnormal.

(** The heap [h'] against the heap [h] a call on the receiver [z] started
    from: every condition bit of [z] is still set, or Conditions is exactly
    a signalled set and [z] is not finite; no other Context has changed. *)
Definition conditions_moved (h : heap) (z : ptr) (h' : heap) : Prop :=
  (bits_kept (Conditions (ctx (h z))) (Conditions (ctx (h' z))) \/
   signalled (Conditions (ctx (h' z))) /\ form (h' z) <> finite) /\
  (forall p, p <> z -> ctx (h' p) = ctx (h p)).

(** The same of an outcome, whether the call returned or panicked. *)
Definition conditions_kept_or_signalled {A} (h : heap) (z : ptr) (o : outcome A) : Prop :=
  match o with
  | Ok _ h' => conditions_moved h z h'
  | Panic _ h' => conditions_moved h z h'
  end.

(** A computation from a state in [P] ends in [Q] when it returns and in
    [E] when it panics. *)
Definition tri {A} (P : heap -> Prop) (m : M A) (Q : A -> heap -> Prop)
               (E : heap -> Prop) : Prop :=
  forall h, P h ->
    match m h with Ok a h' => Q a h' | Panic _ h' => E h' end.

(** A computation that writes no Context and whose result, when it
    returns, satisfies [V]. *)
Definition quietv {A} (V : A -> Prop) (m : M A) : Prop :=
  forall h,
    match m h with
    | Ok a h' => V a /\ forall p, ctx (h' p) = ctx (h p)
    | Panic _ h' => forall p, ctx (h' p) = ctx (h p)
    end.

Definition quiet {A} (m : M A) : Prop := quietv (fun _ => True) m.

(** The receiver is in GDA mode and has kept its bits so far. *)
Definition kept (h0 : heap) (z : ptr) (h : heap) : Prop :=
  OperatingMode (ctx (h z)) = GDA /\
  bits_kept (Conditions (ctx (h0 z))) (Conditions (ctx (h z))) /\
  (forall p, p <> z -> ctx (h p) = ctx (h0 p)).

(** The receiver has signalled and is not finite. *)
Definition raised (h0 : heap) (z : ptr) (h : heap) : Prop :=
  signalled (Conditions (ctx (h z))) /\ form (h z) <> finite /\
  (forall p, p <> z -> ctx (h p) = ctx (h0 p)).

Definition kept_or_raised (h0 : heap) (z : ptr) (h : heap) : Prop := kept h0 z h \/ raised h0 z h.

(** The postcondition of a method that returns its receiver. *)
Definition returns_receiver (h0 : heap) (z : ptr) (r : ptr) (h : heap) : Prop :=
  r = z /\ kept_or_raised h0 z h.

(** The receiver is in state [kept] and not finite. *)
Definition kept_nonfinite (h0 : heap) (z : ptr) (h : heap) : Prop :=
  kept h0 z h /\ form (h z) <> finite.

(** * Properties *)

(** ** Reasoning about the heap *)

Lemma upd_same h p b : upd h p b p = b.
Proof. unfold upd. now rewrite Nat.eqb_refl. Qed.

Lemma upd_other h p q b : q <> p -> upd h p b q = h q.
Proof. unfold upd. intros H. apply Nat.eqb_neq in H. now rewrite H. Qed.

(** A write that keeps a field (or any function of the struct) is invisible
    to a read of it, whether or not the two pointers alias. *)
Lemma upd_keep {A} (f : Big -> A) h p b q :
  f b = f (h p) -> f (upd h p b q) = f (h q).
Proof.
  intros H. unfold upd. destruct (Nat.eqb_spec q p) as [->|_]; auto.
Qed.

Ltac heap_simpl :=
  repeat first
    [ rewrite upd_same
    | rewrite upd_other by congruence
    | rewrite (upd_keep compact) by reflexivity
    | rewrite (upd_keep scale) by reflexivity
    | rewrite (upd_keep form) by reflexivity
    | rewrite (upd_keep unscaled) by reflexivity
    | rewrite (upd_keep ctx) by reflexivity
    | rewrite (upd_keep isCompact_) by reflexivity ].

Arguments upd h p b q : simpl never.

(** Symbolic execution: unfold the monad, decide closed tests, resolve
    heap reads. *)
Ltac has_var c := match c with context [?v] => is_var v end.

Ltac closed_if :=
  match goal with
  | |- context [if ?c then _ else _] =>
      assert_fails (idtac; has_var c);
      let v := eval vm_compute in c in
      first [ constr_eq v true | constr_eq v false ];
      change c with v
  end.

Ltac run_with tac :=
  repeat first
    [ progress unfold bind, ret, rd, rdc, wr, wrc, set_form, set_compact,
        set_scale, set_unscaled, panic, rdb, isCompact, isInflated,
        Precision, Sign, Signbit
    | progress cbv beta iota zeta
    | progress cbn [fst snd ctx unscaled compact scale form with_ctx
        with_unscaled with_compact with_scale with_form OperatingMode
        precision Traps Conditions Err RoundingMode with_precision
        with_Conditions with_Err]
    | progress heap_simpl
    | progress tac
    | closed_if ].

Ltac run := run_with idtac.

Lemma Abs_inf h z x :
  z <> x -> form (h x) = pinf \/ form (h x) = ninf ->
  Abs z x h = Ok z (upd h x (with_form (h x) pinf)).
Proof.
  intros Hzx Hf. unfold Abs, checkNaNs.
  destruct Hf as [Hf|Hf]; run_with ltac:(rewrite ?Hf); reflexivity.
Qed.

(** ** Abs on an infinite operand *)

(** C10, counterexample: with z = +Inf and x = -Inf held by distinct Bigs,
    Abs(z, x) returns z unchanged, and z is +Inf, the absolute value of x. *)
Lemma C10_counterexample :
  let h := heap3 (special pinf) (special ninf) Big0 in
  form (h 0%nat) = pinf /\ form (h 1%nat) = ninf /\
  value (Abs 0%nat 1%nat h) = Some 0%nat /\
  form_of (Abs 0%nat 1%nat h) 0%nat = Some pinf /\
  form_of (Abs 0%nat 1%nat h) 1%nat = Some pinf.
Proof. vm_compute. repeat split; reflexivity. Qed.

(** C10 (amended): when x is an infinity and z a distinct Big, Abs(z, x)
    returns z and writes only x.form, which becomes +Inf; z keeps every
    field, so z holds +Inf afterwards exactly when it did before. *)
Theorem Abs_infinite_operand (h : heap) (z x : ptr) :
  z <> x -> form (h x) = pinf \/ form (h x) = ninf ->
  exists h',
    Abs z x h = Ok z h' /\
    h' x = with_form (h x) pinf /\
    h' z = h z /\
    (forall p, p <> x -> h' p = h p) /\
    (form (h' z) = pinf <-> form (h z) = pinf).
Proof.
  intros Hzx Hf. exists (upd h x (with_form (h x) pinf)).
  rewrite (Abs_inf h z x Hzx Hf). heap_simpl.
  repeat split; auto; intros; heap_simpl; auto.
Qed.

Lemma Abs_infinite_operand_witness :
  let h := heap3 Big0 (special ninf) Big0 in
  exists h',
    Abs 0%nat 1%nat h = Ok 0%nat h' /\
    h' 1%nat = with_form (h 1%nat) pinf /\
    h' 0%nat = h 0%nat /\
    (forall p, p <> 1%nat -> h' p = h p) /\
    (form (h' 0%nat) = pinf <-> form (h 0%nat) = pinf).
Proof.
  apply (Abs_infinite_operand (heap3 Big0 (special ninf) Big0) 0%nat 1%nat).
  - discriminate.
  - right. reflexivity.
Defined.

(** ** Conditions and signal *)


(** In GDA mode signal assigns Conditions: after signal(c, err) the
    receiver's Conditions is exactly [c]; the error is recorded when [c]
    meets the trap mask, and nothing else changes. *)
Lemma signal_GDA_assigns (h : heap) (x : ptr) (c : Z) (e : option error) :
  OperatingMode (ctx (h x)) = GDA ->
  exists h',
    signal x c e h = Ok x h' /\
    Conditions (ctx (h' x)) = c /\
    Err (ctx (h' x)) = (if Z.land c (Traps (ctx (h x))) =? 0 then Err (ctx (h x)) else e) /\
    Traps (ctx (h' x)) = Traps (ctx (h x)) /\
    OperatingMode (ctx (h' x)) = GDA /\
    form (h' x) = form (h x) /\ compact (h' x) = compact (h x) /\
    scale (h' x) = scale (h x) /\ unscaled (h' x) = unscaled (h x) /\
    (forall p, p <> x -> h' p = h p).
Proof.
  intros Hm. unfold signal. run_with ltac:(rewrite ?Hm).
  destruct (Z.land c (Traps (ctx (h x))) =? 0) eqn:Ht; run;
    eexists; (split; [reflexivity|]); run;
    repeat split; auto; intros; heap_simpl; auto.
Qed.


(** ** Division by zero *)

(** C3, at the failing input: in GDA mode, x = 1 divided by +0 with x itself
    as the receiver.  Quo writes z.form = +Inf and then reads x.form through
    the alias, takes x for an infinity and returns without signalling:
    no condition is raised.  With a distinct receiver the same division
    raises DivisionByZero. *)
Theorem Quo_aliased_dividend_no_signal :
  let h := heap3 (inContext ContextGDA Big0) (inContext ContextGDA (New 1 0)) Big0 in
  form_of (Quo 1%nat 1%nat 2%nat h) 1%nat = Some pinf /\
  conditions_of (Quo 1%nat 1%nat 2%nat h) 1%nat = Some 0 /\
  form_of (Quo 0%nat 1%nat 2%nat h) 0%nat = Some pinf /\
  conditions_of (Quo 0%nat 1%nat 2%nat h) 0%nat = Some DivisionByZero.
Proof. vm_compute. repeat split; reflexivity. Qed.

(** Quo in GDA mode, receiver distinct from the dividend: a finite dividend
    over a zero gives the infinity signed by the exclusive or of the operand
    signs and raises DivisionByZero. *)
Lemma Quo_finite_by_zero (h : heap) (z x y : ptr) :
  z <> x -> OperatingMode (ctx (h z)) = GDA ->
  form (h x) = finite -> form (h y) = zero \/ form (h y) = nzero ->
  exists h',
    Quo z x y h = Ok z h' /\
    form (h' z) = (if xorb (Signbit_ (h x)) (Signbit_ (h y)) then ninf else pinf) /\
    Conditions (ctx (h' z)) = DivisionByZero.
Proof.
  intros Hzx Hm Hx Hy. unfold Quo, checkNaNs, signal.
  destruct (Nat.eq_dec z y) as [->|Hzy];
  destruct Hy as [Hy|Hy];
  destruct (Signbit_ (h x)) eqn:Sx, (Signbit_ (h y)) eqn:Sy;
  run_with ltac:(rewrite ?Hx, ?Hy, ?Hm, ?Sx, ?Sy);
  match goal with
  | |- context [Z.land DivisionByZero ?t =? 0] =>
      destruct (Z.land DivisionByZero t =? 0)
  end;
  run; eexists; (split; [reflexivity|]); run; split; reflexivity.
Qed.

Lemma Quo_finite_by_zero_witness :
  let h := heap3 (inContext ContextGDA Big0) (New (-7) 0) Big0 in
  exists h',
    Quo 0%nat 1%nat 2%nat h = Ok 0%nat h' /\
    form (h' 0%nat) = (if xorb (Signbit_ (h 1%nat)) (Signbit_ (h 2%nat)) then ninf else pinf) /\
    Conditions (ctx (h' 0%nat)) = DivisionByZero.
Proof.
  intros h. apply (Quo_finite_by_zero h 0%nat 1%nat 2%nat).
  - discriminate.
  - reflexivity.
  - reflexivity.
  - left. reflexivity.
Defined.

(** Quo in GDA mode, any receiver: a zero over a zero gives a quiet NaN and
    raises InvalidOperation. *)
Lemma Quo_zero_by_zero (h : heap) (z x y : ptr) :
  OperatingMode (ctx (h z)) = GDA ->
  form (h x) = zero \/ form (h x) = nzero ->
  form (h y) = zero \/ form (h y) = nzero ->
  exists h',
    Quo z x y h = Ok z h' /\
    form (h' z) = qnan /\
    Conditions (ctx (h' z)) = InvalidOperation.
Proof.
  intros Hm Hx Hy. unfold Quo, checkNaNs, signal.
  destruct Hx as [Hx|Hx]; destruct Hy as [Hy|Hy];
  run_with ltac:(rewrite ?Hx, ?Hy, ?Hm);
  match goal with
  | |- context [Z.land InvalidOperation ?t =? 0] =>
      destruct (Z.land InvalidOperation t =? 0)
  end;
  run; eexists; (split; [reflexivity|]); run; split; reflexivity.
Qed.

Lemma Quo_zero_by_zero_witness :
  let h := heap3 (inContext ContextGDA Big0) Big0 (special nzero) in
  exists h',
    Quo 0%nat 1%nat 2%nat h = Ok 0%nat h' /\
    form (h' 0%nat) = qnan /\
    Conditions (ctx (h' 0%nat)) = InvalidOperation.
Proof.
  intros h. apply (Quo_zero_by_zero h 0%nat 1%nat 2%nat).
  - reflexivity.
  - left. reflexivity.
  - right. reflexivity.
Defined.

(** ** Rounding leaves special values alone *)

Lemma Round_nonfinite (h : heap) (z : ptr) (n : Z) :
  (form (h z) =? finite) = false -> Round z n h = Ok z h.
Proof.
  intros Hf. unfold Round. run_with ltac:(rewrite ?Hf).
  rewrite orb_true_r. reflexivity.
Qed.

Lemma round_nonfinite (h : heap) (z : ptr) :
  (form (h z) =? finite) = false -> round z h = Ok z h.
Proof.
  intros Hf. unfold round. run.
  destruct (negb (Context_Precision (ctx (h z)) =? 0) &&
            (OperatingMode (ctx (h z)) =? GDA)); [|reflexivity].
  now apply Round_nonfinite.
Qed.

(** ** Multiplication past the largest scale *)

(** C5, at the failing input: in GDA mode, 1e-2147483647 times 0.1, both
    positive.  The scales add up past MaxScale; the conditions are Overflow,
    Inexact and Rounded, but the infinity is negative. *)
Theorem Mul_scale_overflow_negative_infinity :
  let h := heap3 (inContext ContextGDA Big0) (New 1 MaxScale) (New 1 1) in
  Signbit_ (h 1%nat) = false /\ Signbit_ (h 2%nat) = false /\
  form_of (Mul 0%nat 1%nat 2%nat h) 0%nat = Some ninf /\
  conditions_of (Mul 0%nat 1%nat 2%nat h) 0%nat
    = Some (Z.lor (Z.lor Overflow Inexact) Rounded).
Proof. vm_compute. repeat split; reflexivity. Qed.

(** Whatever the signs of two compact operands, when their positive scales
    sum past MaxScale, Mul in GDA mode yields negative infinity with
    Overflow, Inexact and Rounded. *)
Lemma Mul_scale_overflow (h : heap) (z x y : ptr) :
  OperatingMode (ctx (h z)) = GDA ->
  form (h x) = finite -> form (h y) = finite ->
  isCompact_ (h x) = true -> isCompact_ (h y) = true ->
  MaxScale < scale (h x) + scale (h y) ->
  0 < scale (h x) ->
  exists h',
    Mul z x y h = Ok z h' /\
    form (h' z) = ninf /\
    Conditions (ctx (h' z)) = Z.lor (Z.lor Overflow Inexact) Rounded.
Proof.
  intros Hm Hx Hy Cx Cy Hov Hpos.
  assert (Hfit : fits32 (scale (h x) + scale (h y)) = false).
  { unfold fits32, MaxScale in *. apply andb_false_iff. right.
    apply Z.leb_gt. exact Hov. }
  assert (Hp : (0 <? scale (h x)) = true) by (apply Z.ltb_lt; exact Hpos).
  assert (Cx' : isCompact_ (with_form (h x) finite) = true) by exact Cx.
  assert (Cy' : isCompact_ (with_form (h y) finite) = true) by exact Cy.
  unfold Mul, mulCompact, xflow, signal, checked_Add32.
  destruct (Nat.eq_dec x z) as [->|Hxz]; destruct (Nat.eq_dec y z) as [->|Hyz];
  run_with ltac:(rewrite ?Hx, ?Hy, ?Hm, ?Cx, ?Cy, ?Cx', ?Cy', ?Hfit, ?Hp);
  match goal with
  | |- context [Z.land ?c ?t =? 0] =>
      destruct (Z.land c t =? 0)
  end;
  run; rewrite round_nonfinite by (heap_simpl; reflexivity);
  eexists; (split; [reflexivity|]); run; split; reflexivity.
Qed.

Lemma Mul_scale_overflow_witness :
  let h := heap3 (inContext ContextGDA Big0) (New (-1) MaxScale) (New 1 1) in
  exists h',
    Mul 0%nat 1%nat 2%nat h = Ok 0%nat h' /\
    form (h' 0%nat) = ninf /\
    Conditions (ctx (h' 0%nat)) = Z.lor (Z.lor Overflow Inexact) Rounded.
Proof.
  intros h. apply (Mul_scale_overflow h 0%nat 1%nat 2%nat); reflexivity.
Defined.

(** ** Sub(x, x) *)

(** C6, counterexample: under ToNegativeInf, in GDA mode, 5 - 5 is +0
    (form zero), not -0. *)
Lemma C6_counterexample :
  let c := mkContext GDA 0 0 0 None ToNegativeInf in
  let h := heap3 (inContext c Big0) (New 5 0) Big0 in
  RoundingMode (ctx (h 0%nat)) = ToNegativeInf /\
  form_of (Sub 0%nat 1%nat 1%nat h) 0%nat = Some zero /\
  (zero =? nzero) = false.
Proof. vm_compute. repeat split; reflexivity. Qed.

(** C6 (amended): for every finite x, every receiver (x itself included)
    and every context, so under every rounding mode, ToNegativeInf too,
    Sub(z, x, x) returns z as positive zero. *)
Theorem Sub_self_positive_zero (h : heap) (z x : ptr) :
  form (h x) = finite ->
  exists h', Sub z x x h = Ok z h' /\ form (h' z) = zero.
Proof.
  intros Hx.
  assert (Hc : forall b, isCompact_ (with_form b finite) = isCompact_ b) by reflexivity.
  assert (Hs : forall b v, isCompact_ (with_scale b v) = isCompact_ b) by reflexivity.
  unfold Sub, subCompact, subBig, bigOf, checked_Sub.
  destruct (isCompact_ (h x)) eqn:Cx;
  destruct (Nat.eq_dec x z) as [->|Hxz];
  run_with ltac:(rewrite ?Hx, ?Hc, ?Hs, ?Cx, ?Z.eqb_refl, ?Z.sub_diag);
  rewrite round_nonfinite by (heap_simpl; reflexivity);
  eexists; (split; [reflexivity|]); run; reflexivity.
Qed.

Lemma Sub_self_positive_zero_witness :
  exists h',
    Sub 0%nat 1%nat 1%nat
      (heap3 (inContext (mkContext GDA 0 0 0 None ToNegativeInf) Big0) (New 5 0) Big0)
    = Ok 0%nat h' /\ form (h' 0%nat) = zero.
Proof.
  apply (Sub_self_positive_zero
           (heap3 (inContext (mkContext GDA 0 0 0 None ToNegativeInf) Big0) (New 5 0) Big0)
           0%nat 1%nat).
  reflexivity.
Defined.

(** ** SetString on malformed input *)

(** C7, at the failing input: a fresh Big in GDA mode and the string "1.2.3".
    SetString reports failure and raises ConversionSyntax, but the receiver
    stays what it was, +0; an unparsable exponent ("1ex") does leave a
    quiet NaN. *)
Theorem SetString_two_points_keeps_receiver :
  let h := heap3 (inContext ContextGDA Big0) Big0 Big0 in
  value (SetString 0%nat (bytes "1.2.3") h) = Some (0%nat, false) /\
  conditions_of (SetString 0%nat (bytes "1.2.3") h) 0%nat = Some ConversionSyntax /\
  form_of (SetString 0%nat (bytes "1.2.3") h) 0%nat = Some zero /\
  value (SetString 0%nat (bytes "1ex") h) = Some (0%nat, false) /\
  form_of (SetString 0%nat (bytes "1ex") h) 0%nat = Some qnan.
Proof. vm_compute. repeat split; reflexivity. Qed.

(** ** roundString *)

(** C8, at the failing input: "1251" to two digits under ToNearestEven.  The
    dropped suffix 51 is more than half a unit of the last kept digit, yet
    only the first dropped digit is looked at and the result is "12". *)
Theorem roundString_half_even_ignores_tail :
  roundString (bytes "1251") ToNearestEven true 2 = Some (bytes "12") /\
  roundString (bytes "1351") ToNearestEven true 2 = Some (bytes "14") /\
  roundString (bytes "1261") ToNearestEven true 2 = Some (bytes "13").
Proof. vm_compute. repeat split; reflexivity. Qed.

(** ** NaN operands *)

Ltac forms Hx :=
  unfold valid_form in Hx;
  repeat match type of Hx with _ \/ _ => destruct Hx as [Hx|Hx] end.

Lemma checkNaNs_nan (h : heap) (z x y : ptr) (op : string) :
  valid_form (form (h x)) -> valid_form (form (h y)) ->
  isNaN (form (h x)) || isNaN (form (h y)) = true ->
  checkNaNs z x y op h =
    Ok (if (form (h x) =? snan) || (form (h y) =? snan) then InvalidOperation else 0,
        Some (ErrNaN (nanMsg op)))
       (upd h z (with_form (h z) qnan)).
Proof.
  intros Hx Hy Hn. unfold checkNaNs. forms Hx; forms Hy;
    rewrite Hx, Hy in Hn; try discriminate Hn;
    run_with ltac:(rewrite ?Hx, ?Hy); reflexivity.
Qed.

Lemma not_both_finite (a b : Z) :
  isNaN a || isNaN b = true -> (a =? finite) && (b =? finite) = false.
Proof.
  unfold isNaN. intros H.
  destruct (a =? finite) eqn:Ea; [|reflexivity].
  destruct (b =? finite) eqn:Eb; [|reflexivity].
  apply Z.eqb_eq in Ea, Eb. subst. discriminate H.
Qed.

Lemma signal_nan {A} (h : heap) (z : ptr) (op : string) (sg : bool) (r : A) :
  nanOutcome op sg z r h
    (match signal z (if sg then InvalidOperation else 0) (Some (ErrNaN (nanMsg op)))
             (upd h z (with_form (h z) qnan))
     with Ok _ h' => Ok r h' | Panic e h' => Panic e h' end).
Proof.
  unfold nanOutcome, signal, nanBig. run.
  destruct (OperatingMode (ctx (h z)) =? Go) eqn:Eg; run.
  { eexists. split; [reflexivity|]. split.
    - heap_simpl. reflexivity.
    - intros. heap_simpl. reflexivity. }
  destruct (OperatingMode (ctx (h z)) =? GDA) eqn:Ea; run.
  - destruct (Z.land (if sg then InvalidOperation else 0) (Traps (ctx (h z))) =? 0);
      run; eexists; (split; [reflexivity|]); run;
      (split; [reflexivity | intros; heap_simpl; reflexivity]).
  - eexists; (split; [reflexivity|]); run;
      (split; [reflexivity | intros; heap_simpl; reflexivity]).
Qed.

Lemma signal_returns_receiver (h : heap) (x : ptr) (c : Z) (e : option error) :
  signal x c e h =
  match signal x c e h with Ok _ h' => Ok x h' | Panic e' h' => Panic e' h' end.
Proof.
  unfold signal. run.
  destruct (OperatingMode (ctx (h x)) =? Go).
  - destruct e as [[]|]; reflexivity.
  - destruct (OperatingMode (ctx (h x)) =? GDA); run; [|reflexivity].
    destruct (negb (Z.land c (Traps (ctx (h x))) =? 0)); reflexivity.
Qed.

Ltac nan_case Hx Hy Hn :=
  run; rewrite ?(not_both_finite _ _ Hn); run;
  rewrite (checkNaNs_nan _ _ _ _ _ Hx Hy Hn); run.

(** C4 (amended): with a NaN among the operands, each of Add, Sub, Mul, Quo,
    Abs, Neg, and Cmp on distinct Bigs, runs checkNaNs and signal on the
    receiver, which becomes a quiet NaN in every mode while no other Big is
    written.  In Go mode the call then panics with ErrNaN naming the
    operation, the receiver being a quiet NaN already.  In GDA mode the
    call returns, Conditions becomes InvalidOperation when an operand is
    signaling and empty otherwise, and the ErrNaN naming the operation is
    recorded only when that condition meets the trap mask. *)
Theorem NaN_operand_outcome (h : heap) (z x y : ptr) :
  valid_form (form (h x)) -> valid_form (form (h y)) -> valid_form (form (h z)) ->
  let sg2 := (form (h x) =? snan) || (form (h y) =? snan) in
  let sg1 := form (h x) =? snan in
  let sgc := (form (h z) =? snan) || (form (h x) =? snan) in
  (isNaN (form (h x)) || isNaN (form (h y)) = true ->
     nanOutcome "addition" sg2 z z h (Add z x y h) /\
     nanOutcome "subtraction" sg2 z z h (Sub z x y h) /\
     nanOutcome "multiplication" sg2 z z h (Mul z x y h) /\
     nanOutcome "division" sg2 z z h (Quo z x y h)) /\
  (isNaN (form (h x)) = true ->
     nanOutcome "abs" sg1 z z h (Abs z x h) /\
     nanOutcome "negation" sg1 z z h (Neg z x h)) /\
  (isNaN (form (h z)) || isNaN (form (h x)) = true -> z <> x ->
     nanOutcome "comparison" sgc z 0 h (Cmp z x h)).
Proof.
  intros Hx Hy Hz sg2 sg1 sgc.
  split; [intros Hn; split; [|split; [|split]] | split; [intros Hn; split | intros Hn Hzx]].
  - unfold Add. nan_case Hx Hy Hn.
    rewrite signal_returns_receiver. apply signal_nan.
  - unfold Sub. nan_case Hx Hy Hn.
    rewrite signal_returns_receiver. apply signal_nan.
  - unfold Mul. nan_case Hx Hy Hn.
    rewrite signal_returns_receiver. apply signal_nan.
  - unfold Quo. nan_case Hx Hy Hn.
    rewrite signal_returns_receiver. apply signal_nan.
  - assert (Hn2 : isNaN (form (h x)) || isNaN (form (h x)) = true)
      by (rewrite Hn; reflexivity).
    assert (Hf : (form (h x) =? finite) = false).
    { pose proof (not_both_finite _ _ Hn2) as H. now rewrite andb_diag in H. }
    unfold Abs. run. rewrite Hf. run.
    rewrite (checkNaNs_nan _ _ _ _ _ Hx Hx Hn2). run.
    rewrite orb_diag. rewrite signal_returns_receiver. apply signal_nan.
  - assert (Hn2 : isNaN (form (h x)) || isNaN (form (h x)) = true)
      by (rewrite Hn; reflexivity).
    assert (Hf : (form (h x) =? finite) = false).
    { pose proof (not_both_finite _ _ Hn2) as H. now rewrite andb_diag in H. }
    unfold Neg. run. rewrite Hf. run.
    rewrite (checkNaNs_nan _ _ _ _ _ Hx Hx Hn2). run.
    rewrite orb_diag. rewrite signal_returns_receiver. apply signal_nan.
  - unfold Cmp.
    destruct (Nat.eqb_spec z x) as [E|_]; [contradiction|].
    run. rewrite (checkNaNs_nan _ _ _ _ _ Hz Hx Hn). run.
    apply signal_nan.
Qed.

Ltac valid := unfold valid_form; vm_compute; tauto.

Lemma NaN_operand_outcome_witness :
  let h := heap3 Big0 (special snan) (New 1 0) in
  nanOutcome "addition" true 0%nat 0%nat h (Add 0%nat 1%nat 2%nat h) /\
  nanOutcome "abs" true 0%nat 0%nat h (Abs 0%nat 1%nat h) /\
  nanOutcome "comparison" true 0%nat 0 h (Cmp 0%nat 1%nat h).
Proof.
  intros h.
  destruct (NaN_operand_outcome h 0%nat 1%nat 2%nat) as (H2 & H1 & Hc);
    [valid | valid | valid |].
  split; [|split].
  - apply H2. reflexivity.
  - apply H1. reflexivity.
  - apply Hc; [reflexivity | discriminate].
Defined.

(** C4, counterexample: GDA mode with an empty trap mask, a signaling NaN
    plus 1.  The call returns its receiver as a quiet NaN with
    InvalidOperation raised, and no error is recorded: nothing fails. *)
Lemma C4_counterexample :
  let h := heap3 (inContext ContextGDA Big0) (special snan) (New 1 0) in
  value (Add 0%nat 1%nat 2%nat h) = Some 0%nat /\
  form_of (Add 0%nat 1%nat 2%nat h) 0%nat = Some qnan /\
  conditions_of (Add 0%nat 1%nat 2%nat h) 0%nat = Some InvalidOperation /\
  err_of (Add 0%nat 1%nat 2%nat h) 0%nat = Some None.
Proof. vm_compute. repeat split; reflexivity. Qed.

(** In Go mode, the default, the same addition panics with the ErrNaN that
    names the operation, and the receiver is a quiet NaN when it does. *)
Lemma NaN_operand_panics_in_Go_mode :
  let h := heap3 Big0 (special snan) (New 1 0) in
  exists h',
    Add 0%nat 1%nat 2%nat h = Panic (ErrNaN "addition with NaN as an operand") h' /\
    form (h' 0%nat) = qnan /\ form (h 0%nat) = zero.
Proof. eexists. vm_compute. repeat split; reflexivity. Qed.

(** ** Addition *)

Lemma addCompact_comm (h : heap) (z x y : ptr) :
  addCompact z x y h = addCompact z y x h.
Proof.
  unfold addCompact. run.
  destruct (Z.eqb_spec (scale (h x)) (scale (h y))) as [E|E].
  - rewrite E, Z.eqb_refl. run.
    unfold checked_Add. rewrite (Z.add_comm (compact (h y)) (compact (h x))).
    reflexivity.
  - destruct (Z.eqb_spec (scale (h y)) (scale (h x))) as [E'|_]; [congruence|].
    destruct (Z.ltb_spec (scale (h x)) (scale (h y)));
      destruct (Z.ltb_spec (scale (h y)) (scale (h x))); try lia; reflexivity.
Qed.

Lemma addBig_comm (h : heap) (z x y : ptr) :
  addBig z x y h = addBig z y x h.
Proof.
  unfold addBig, bigOf, checked_MulBigPow10.
  destruct (isCompact_ (h x)) eqn:Cx, (isCompact_ (h y)) eqn:Cy;
  (destruct (Z.eqb_spec (scale (h x)) (scale (h y))) as [E|E];
   [ assert (E2 : (scale (h y) =? scale (h y)) = true) by apply Z.eqb_refl;
     run_with ltac:(rewrite ?Cx, ?Cy, ?E, ?E2);
     match goal with
     | |- context [Z.sgn (?a + ?b)] => rewrite (Z.add_comm a b)
     end; reflexivity
   | assert (E1 : (scale (h x) =? scale (h y)) = false) by (apply Z.eqb_neq; exact E);
     assert (E2 : (scale (h y) =? scale (h x)) = false) by (apply Z.eqb_neq; congruence);
     destruct (scale (h x) <? scale (h y)) eqn:L1;
     destruct (scale (h y) <? scale (h x)) eqn:L2; try lia;
     run_with ltac:(rewrite ?Cx, ?Cy, ?E1, ?E2, ?L1, ?L2); reflexivity ]).
Qed.

Lemma same_decimal_refl b : same_decimal b b.
Proof. unfold same_decimal. auto. Qed.

Lemma same_outcome_refl z o : same_outcome z o o.
Proof.
  destruct o; cbn; auto using same_decimal_refl.
Qed.

Lemma Add_comm_finite (h : heap) (z x y : ptr) :
  form (h x) = finite -> form (h y) = finite ->
  Add z x y h = Add z y x h.
Proof.
  intros Hx Hy. unfold Add.
  run_with ltac:(rewrite ?Hx, ?Hy).
  rewrite (andb_comm (isCompact_ (h y)) (isCompact_ (h x))).
  destruct (isCompact_ (h x) && isCompact_ (h y)).
  - rewrite addCompact_comm. reflexivity.
  - rewrite addBig_comm. reflexivity.
Qed.

(** Set on a special value copies it and does not round. *)
Lemma Set_nonfinite (h : heap) (z x : ptr) :
  (form (h x) =? finite) = false ->
  exists h', Set_ z x h = Ok z h' /\ form (h' z) = form (h x) /\
             ctx (h' z) = ctx (h z) /\ (forall p, p <> z -> h' p = h p).
Proof.
  intros Hf. unfold Set_.
  destruct (Nat.eqb_spec z x) as [->|Hzx]; cbn [negb].
  - exists h. auto.
  - run. destruct (negb (isCompact_ (h x))); run;
      rewrite Round_nonfinite by (heap_simpl; exact Hf);
      eexists; (split; [reflexivity|]); run;
      (split; [reflexivity | split; [reflexivity | intros; heap_simpl; reflexivity]]).
Qed.

Lemma Set_special_same (h : heap) (z x y : ptr) (f : Z) :
  form (h x) = f -> form (h y) = f -> (f =? finite) = false ->
  same_outcome z (Set_ z x h) (Set_ z y h).
Proof.
  intros Hx Hy Hf.
  destruct (Set_nonfinite h z x) as (h1 & E1 & F1 & C1 & O1); [now rewrite Hx|].
  destruct (Set_nonfinite h z y) as (h2 & E2 & F2 & C2 & O2); [now rewrite Hy|].
  rewrite E1, E2. cbn. split; [reflexivity|]. split.
  - unfold same_decimal. rewrite F1, F2, C1, C2, Hx, Hy.
    split; [reflexivity|]. split; [reflexivity|].
    intros ->. discriminate Hf.
  - intros p Hp. now rewrite O1, O2.
Qed.

Lemma Add_comm_valid (h : heap) (z x y : ptr) :
  valid_form (form (h x)) -> valid_form (form (h y)) ->
  same_outcome z (Add z x y h) (Add z y x h).
Proof.
  intros Hx Hy. forms Hx; forms Hy;
  try (rewrite (Add_comm_finite h z x y Hx Hy); apply same_outcome_refl);
  try (unfold Add, checkNaNs; run_with ltac:(rewrite ?Hx, ?Hy);
       first [ apply same_outcome_refl
             | eapply Set_special_same; [exact Hx | exact Hy | reflexivity] ]).
Qed.

(** ** Comparison of equal values *)

Lemma checkNaNs_none (h : heap) (z x y : ptr) (op : string) :
  valid_form (form (h x)) -> valid_form (form (h y)) ->
  isNaN (form (h x)) = false -> isNaN (form (h y)) = false ->
  checkNaNs z x y op h = Ok (0, None) h.
Proof.
  intros Hx Hy Nx Ny. unfold checkNaNs. forms Hx; forms Hy;
    rewrite Hx in Nx; rewrite Hy in Ny; try discriminate Nx; try discriminate Ny;
    run_with ltac:(rewrite ?Hx, ?Hy); reflexivity.
Qed.

Lemma cmpInt_refl a : cmpInt a a = 0.
Proof. unfold cmpInt. now rewrite Z.ltb_irrefl. Qed.

(** Cmp answers 0 on two distinct non-NaN Bigs of one sign that agree on
    scale and magnitude. *)
Lemma Cmp_same_representation (h : heap) (z x : ptr) :
  z <> x ->
  valid_form (form (h z)) -> valid_form (form (h x)) ->
  isNaN (form (h z)) = false -> isNaN (form (h x)) = false ->
  Sign_ (h z) = Sign_ (h x) ->
  (Sign_ (h z) <> 0 ->
   scale (h z) = scale (h x) /\ compact (h z) = compact (h x) /\
   (compact (h z) = Inflated -> unscaled (h z) = unscaled (h x))) ->
  Cmp z x h = Ok 0 h.
Proof.
  intros Hzx Vz Vx Nz Nx Hs Hrep. unfold Cmp.
  destruct (Nat.eqb_spec z x) as [E|_]; [contradiction|].
  run. rewrite (checkNaNs_none _ _ _ _ _ Vz Vx Nz Nx). run.
  rewrite <- Hs, Z.ltb_irrefl, andb_diag.
  destruct (Z.eqb_spec (Sign_ (h z)) 0) as [E0|E0]; [reflexivity|].
  destruct (Hrep E0) as (Hsc & Hc & Hu).
  rewrite Hsc, Z.eqb_refl, Hc.
  destruct (Z.eqb_spec (compact (h x)) Inflated) as [Ei|Ei]; cbn [negb andb].
  - rewrite Hu by congruence. now rewrite cmpInt_refl.
  - now rewrite cmpInt_refl.
Qed.

(** ** Set without rounding *)

Lemma Round_noop (h : heap) (z : ptr) (n : Z) :
  (n <=? 0) || negb (form (h z) =? finite) || (Precision_ (h z) <=? n) = true ->
  Round z n h = Ok z h.
Proof.
  intros H. unfold Round. run.
  destruct ((n <=? 0) || negb (form (h z) =? finite)) eqn:E; [reflexivity|].
  cbn [orb] in H. rewrite H. reflexivity.
Qed.

Lemma Sign_Set_copy bz bx : Sign_ (Set_copy bz bx) = Sign_ bx.
Proof.
  unfold Sign_, Set_copy, isCompact_. cbn [form compact unscaled].
  destruct (negb (compact bx =? Inflated)); reflexivity.
Qed.

Lemma Precision_Set_copy bz bx : Precision_ (Set_copy bz bx) = Precision_ bx.
Proof.
  unfold Precision_, Set_copy, isCompact_. cbn [form compact unscaled].
  destruct (negb (compact bx =? Inflated)); reflexivity.
Qed.

Lemma Set_without_rounding (h : heap) (z x : ptr) :
  z <> x ->
  (Context_Precision (ctx (h z)) <=? 0) || negb (form (h x) =? finite)
    || (Precision_ (h x) <=? Context_Precision (ctx (h z))) = true ->
  exists h', Set_ z x h = Ok z h' /\ h' z = Set_copy (h z) (h x) /\
             (forall p, p <> z -> h' p = h p).
Proof.
  intros Hzx Hn. unfold Set_.
  destruct (Nat.eqb_spec z x) as [E|_]; [contradiction|]. cbn [negb].
  run. unfold Set_copy.
  destruct (isCompact_ (h x)) eqn:Cx; run;
    (rewrite Round_noop;
     [ eexists; (split; [reflexivity|]); run;
       (split; [reflexivity | intros; heap_simpl; reflexivity])
     | run; unfold Precision_ in *; unfold isCompact_ in *; run;
       rewrite ?Cx in *; exact Hn ]).
Qed.

Lemma Cmp_after_Set_copy (h h' : heap) (z x : ptr) :
  z <> x -> valid_form (form (h x)) -> isNaN (form (h x)) = false ->
  h' z = Set_copy (h z) (h x) -> h' x = h x ->
  Cmp z x h' = Ok 0 h'.
Proof.
  intros Hzx Vx Nx Ez Ex.
  apply Cmp_same_representation; rewrite ?Ez, ?Ex; auto.
  - apply Sign_Set_copy.
  - intros _. unfold Set_copy, isCompact_. cbn [scale compact unscaled].
    repeat split. intros ->. reflexivity.
Qed.

Lemma Cmp_self (h : heap) (z : ptr) : Cmp z z h = Ok 0 h.
Proof. unfold Cmp. now rewrite Nat.eqb_refl. Qed.

Lemma Add_zero_right (h : heap) (z x y : ptr) :
  valid_form (form (h x)) -> isNaN (form (h x)) = false ->
  form (h y) = zero ->
  (form (h x) = finite -> z <> x ->
   Context_Precision (ctx (h z)) <= 0 \/
   Precision_ (h x) <= Context_Precision (ctx (h z))) ->
  exists h', Add z x y h = Ok z h' /\ Cmp z x h' = Ok 0 h'.
Proof.
  intros Vx Nx Hy Hp.
  destruct (Nat.eq_dec z x) as [E|Hzx].
  { subst x. forms Vx; rewrite Vx in Nx; try discriminate Nx;
      unfold Add, checkNaNs, Set_; run_with ltac:(rewrite ?Vx, ?Hy, ?Nat.eqb_refl);
      eexists; (split; [reflexivity|]); apply Cmp_self. }
  assert (Hset : (Context_Precision (ctx (h z)) <=? 0) || negb (form (h x) =? finite)
                 || (Precision_ (h x) <=? Context_Precision (ctx (h z))) = true).
  { destruct (Z.eqb_spec (form (h x)) finite) as [Ef|Ef]; cbn [negb].
    - destruct (Hp Ef Hzx) as [H|H].
      + apply Z.leb_le in H. rewrite H. reflexivity.
      + apply Z.leb_le in H. rewrite H. now rewrite !orb_true_r.
    - now rewrite orb_true_r. }
  destruct (Set_without_rounding h z x Hzx Hset) as (h1 & E1 & Z1 & O1).
  assert (Hc : Cmp z x h1 = Ok 0 h1).
  { apply (Cmp_after_Set_copy h h1); auto. }
  forms Vx; pose proof Vx as Vx'; rewrite Vx in Nx; try discriminate Nx;
    unfold Add, checkNaNs; run_with ltac:(rewrite ?Vx, ?Hy);
    try (rewrite E1; eexists; split; [reflexivity | exact Hc]).
  all: eexists; (split; [reflexivity|]);
    apply Cmp_same_representation; auto; run;
    rewrite ?Vx'; try valid; try reflexivity;
    try (unfold Sign_; run; rewrite ?Vx'; reflexivity);
    try (unfold Sign_; run; intros Hne; exfalso; apply Hne; reflexivity).
Qed.

(** C9, at the failing input: Go mode, where addition is documented as
    lossless, the default precision of 16 digits and rounding mode ToZero.
    x = 12345678901234567 has 17 digits.  Add(z, x, +0) goes through Set,
    which rounds to the precision of z: z ends as 1234567890123456e1 and
    Cmp(z, x) is -1.  Add(z, x, 1), on two finite operands, does not round
    in Go mode and keeps all 17 digits. *)
Theorem Add_zero_rounds_in_Go_mode :
  let c := mkContext Go 0 0 0 None ToZero in
  let h := heap3 (inContext c Big0) (New 12345678901234567 0) Big0 in
  let h1 := heap3 (inContext c Big0) (New 12345678901234567 0) (New 1 0) in
  OperatingMode (ctx (h 0%nat)) = Go /\
  form (h 2%nat) = zero /\
  option_map compact (result (Add 0%nat 1%nat 2%nat h) 0%nat) = Some 1234567890123456 /\
  option_map scale (result (Add 0%nat 1%nat 2%nat h) 0%nat) = Some (-1) /\
  match Add 0%nat 1%nat 2%nat h with
  | Ok _ h' => value (Cmp 0%nat 1%nat h') = Some (-1)
  | Panic _ _ => False
  end /\
  form_of (Add 0%nat 1%nat 2%nat h1) 0%nat = Some finite /\
  option_map compact (result (Add 0%nat 1%nat 2%nat h1) 0%nat) = Some 12345678901234568 /\
  option_map scale (result (Add 0%nat 1%nat 2%nat h1) 0%nat) = Some 0.
Proof. vm_compute. repeat split; reflexivity. Qed.

(** Add(z, x, y) and Add(z, y, x) end alike for all operands: the same
    panic, or the same return, with z holding the same form, context and,
    when finite, magnitude and scale, and every other Big alike.
    Add(z, x, +0) compares equal to x (Cmp is 0) for every x that is not a
    NaN, provided z's precision does not make Set round a finite x: z is x
    itself, or the precision is unbounded, or x has no more digits than the
    precision. *)
Theorem Add_commutative_zero_identity (h : heap) (z x y : ptr) :
  valid_form (form (h x)) -> valid_form (form (h y)) ->
  same_outcome z (Add z x y h) (Add z y x h) /\
  (isNaN (form (h x)) = false -> form (h y) = zero ->
   (form (h x) = finite -> z <> x ->
    Context_Precision (ctx (h z)) <= 0 \/
    Precision_ (h x) <= Context_Precision (ctx (h z))) ->
   exists h', Add z x y h = Ok z h' /\ Cmp z x h' = Ok 0 h').
Proof.
  intros Vx Vy. split.
  - now apply Add_comm_valid.
  - intros Nx Hy Hp. now apply Add_zero_right.
Qed.

Lemma Add_commutative_zero_identity_witness :
  let h := heap3 Big0 (New 1234 3) Big0 in
  same_outcome 0%nat (Add 0%nat 1%nat 2%nat h) (Add 0%nat 2%nat 1%nat h) /\
  exists h', Add 0%nat 1%nat 2%nat h = Ok 0%nat h' /\ Cmp 0%nat 1%nat h' = Ok 0 h'.
Proof.
  intros h.
  destruct (Add_commutative_zero_identity h 0%nat 1%nat 2%nat) as [Hc Hi];
    [valid | valid |].
  split; [exact Hc|].
  apply Hi; [reflexivity | reflexivity |].
  intros _ _. right. vm_compute. discriminate.
Defined.

(** ** Decimal digits *)

Lemma len_app {A} (a b : list A) : len (a ++ b) = len a + len b.
Proof. unfold len. rewrite length_app. lia. Qed.

Lemma len_cons {A} (a : A) (l : list A) : len (a :: l) = 1 + len l.
Proof. unfold len. cbn [List.length]. lia. Qed.

Lemma len_nonneg {A} (l : list A) : 0 <= len l.
Proof. unfold len. lia. Qed.

Lemma len_map {A B} (f : A -> B) (l : list A) : len (map f l) = len l.
Proof. unfold len. now rewrite length_map. Qed.

Lemma len_rev {A} (l : list A) : len (rev l) = len l.
Proof. unfold len. now rewrite length_rev. Qed.

Lemma len_repeat {A} (a : A) (k : nat) : len (repeat a k) = Z.of_nat k.
Proof. unfold len. now rewrite repeat_length. Qed.

Lemma digits_le_spec (fuel : nat) :
  forall n, 0 <= n < 10 ^ Z.of_nat fuel -> (0 < fuel)%nat ->
  le_val (digits_le fuel n) = n /\
  Forall is_digit (digits_le fuel n) /\
  1 <= len (digits_le fuel n) /\
  n < 10 ^ len (digits_le fuel n) /\
  (0 < n -> 10 ^ (len (digits_le fuel n) - 1) <= n).
Proof.
  induction fuel as [|k IH]; intros n Hn Hk; [lia|].
  cbn [digits_le].
  destruct (Z.ltb_spec n 10) as [Hlt|Hge].
  - cbn [le_val]. rewrite len_cons. unfold len. cbn [List.length].
    repeat split; try lia.
    constructor; [unfold is_digit; lia | constructor].
  - assert (Hk' : (0 < k)%nat).
    { destruct k; [|lia]. cbn in Hn. lia. }
    assert (Hq : 0 <= n / 10 < 10 ^ Z.of_nat k).
    { split; [apply Z.div_pos; lia|].
      apply Z.div_lt_upper_bound; [lia|].
      rewrite Nat2Z.inj_succ, Z.pow_succ_r in Hn by lia. lia. }
    destruct (IH (n / 10) Hq Hk') as (Hv & Hd & Hl & Hub & Hlb).
    cbn [le_val]. rewrite len_cons, Hv.
    pose proof (Z.div_mod n 10 ltac:(lia)) as Hdm.
    pose proof (Z.mod_pos_bound n 10 ltac:(lia)) as Hm.
    repeat split.
    + lia.
    + constructor; [unfold is_digit; lia | exact Hd].
    + lia.
    + replace (1 + len (digits_le k (n / 10)))
        with (Z.succ (len (digits_le k (n / 10)))) by lia.
      rewrite Z.pow_succ_r by lia. lia.
    + intros _. replace (1 + len (digits_le k (n / 10)) - 1)
        with (Z.succ (len (digits_le k (n / 10)) - 1)) by lia.
      rewrite Z.pow_succ_r by lia.
      assert (0 < n / 10) by (apply Z.div_str_pos; lia).
      specialize (Hlb H). lia.
Qed.

Lemma fuel_enough (n : Z) : 0 <= n -> n < 10 ^ Z.of_nat (S (Z.to_nat (Z.log2 n))).
Proof.
  intros Hn. rewrite Nat2Z.inj_succ, Z2Nat.id by apply Z.log2_nonneg.
  destruct (Z.eq_dec n 0) as [->|Hz]; [cbn; lia|].
  pose proof (Z.log2_spec n ltac:(lia)) as [_ Hub].
  eapply Z.lt_le_trans; [exact Hub|].
  apply Z.pow_le_mono_l. pose proof (Z.log2_nonneg n). lia.
Qed.

Lemma digitsVal_snoc (s : list Z) (c : Z) :
  digitsVal (s ++ [c]) = digitsVal s * 10 + (c - 48).
Proof. unfold digitsVal. now rewrite fold_left_app. Qed.

Lemma digitsVal_le (l : list Z) :
  digitsVal (map (fun d => 48 + d) (rev l)) = le_val l.
Proof.
  induction l as [|d t IH]; [reflexivity|].
  cbn [rev le_val]. rewrite map_app. cbn [map].
  rewrite digitsVal_snoc, IH. lia.
Qed.

Lemma isDigit_le (l : list Z) :
  Forall is_digit l -> forallb isDigit (map (fun d => 48 + d) (rev l)) = true.
Proof.
  intros H. apply forallb_forall. intros c Hc.
  apply in_map_iff in Hc. destruct Hc as (d & <- & Hd).
  apply in_rev in Hd. rewrite Forall_forall in H. specialize (H d Hd).
  unfold is_digit in H. unfold isDigit. apply andb_true_iff.
  split; apply Z.leb_le; lia.
Qed.

(** What utoa yields on a natural number. *)
Lemma utoa_spec (n : Z) :
  0 <= n ->
  digitsVal (utoa n) = n /\
  forallb isDigit (utoa n) = true /\
  1 <= len (utoa n) /\
  n < 10 ^ len (utoa n) /\
  (0 < n -> 10 ^ (len (utoa n) - 1) <= n).
Proof.
  intros Hn. unfold utoa, digits.
  destruct (digits_le_spec (S (Z.to_nat (Z.log2 n))) n) as (Hv & Hd & Hl & Hub & Hlb).
  { split; [lia | now apply fuel_enough]. }
  { lia. }
  rewrite digitsVal_le, len_map, len_rev.
  repeat split; auto. now apply isDigit_le.
Qed.



(** ** Parsing digits *)

Lemma pow10_pos (k : Z) : 0 < 10 ^ k \/ k < 0.
Proof. destruct (Z.lt_ge_cases k 0); [right; lia | left; apply Z.pow_pos_nonneg; lia]. Qed.

Lemma digitsVal_acc (s : list Z) (a : Z) :
  fold_left (fun a d => a * 10 + (d - 48)) s a = a * 10 ^ len s + digitsVal s.
Proof.
  revert a. induction s as [|d t IH]; intros a.
  - cbn. lia.
  - unfold digitsVal. cbn [fold_left].
    rewrite (IH (a * 10 + (d - 48))), (IH (0 * 10 + (d - 48))). rewrite len_cons.
    replace (1 + len t) with (Z.succ (len t)) by lia.
    rewrite Z.pow_succ_r by apply len_nonneg. lia.
Qed.

Lemma digitsVal_cons (d : Z) (t : list Z) :
  digitsVal (d :: t) = (d - 48) * 10 ^ len t + digitsVal t.
Proof.
  unfold digitsVal at 1. cbn [fold_left]. rewrite digitsVal_acc. lia.
Qed.

Lemma digitsVal_app (s t : list Z) :
  digitsVal (s ++ t) = digitsVal s * 10 ^ len t + digitsVal t.
Proof.
  unfold digitsVal at 1. rewrite fold_left_app.
  fold (digitsVal s). apply digitsVal_acc.
Qed.

Lemma isDigit_range (c : Z) : isDigit c = true -> 48 <= c <= 57.
Proof. unfold isDigit. intros H. apply andb_true_iff in H. lia. Qed.

Lemma digitsVal_bound (s : list Z) :
  forallb isDigit s = true -> 0 <= digitsVal s < 10 ^ len s.
Proof.
  induction s as [|d t IH]; intros H.
  - cbn. lia.
  - cbn [forallb] in H. apply andb_true_iff in H. destruct H as [Hd Ht].
    apply isDigit_range in Hd. specialize (IH Ht).
    rewrite digitsVal_cons, len_cons.
    replace (1 + len t) with (Z.succ (len t)) by lia.
    rewrite Z.pow_succ_r by apply len_nonneg.
    assert (0 < 10 ^ len t) by (apply Z.pow_pos_nonneg; [lia | apply len_nonneg]).
    nia.
Qed.

Lemma digitsVal_zeros (k : nat) : digitsVal (repeat 48 k) = 0.
Proof.
  induction k as [|k IH]; [reflexivity|].
  cbn [repeat]. rewrite digitsVal_cons, IH. lia.
Qed.

Lemma forallb_isDigit_zeros (k : nat) : forallb isDigit (repeat 48 k) = true.
Proof. induction k; cbn; auto. Qed.

(** The scan of ParseUint over digits. *)
Lemma parseUint_loop_digits (s : list Z) :
  forall n M, forallb isDigit s = true -> 0 <= n <= M ->
  parseUint_loop s n M =
    if n * 10 ^ len s + digitsVal s <=? M
    then (n * 10 ^ len s + digitsVal s, None)
    else (2 ^ 64 - 1, Some ErrRange).
Proof.
  induction s as [|d t IH]; intros n M Hs Hn.
  - cbn [parseUint_loop]. unfold digitsVal, len. cbn [fold_left List.length Z.of_nat].
    rewrite Z.pow_0_r. replace (n * 1 + 0) with n by lia.
    destruct (Z.leb_spec n M); [reflexivity | lia].
  - cbn [forallb] in Hs. apply andb_true_iff in Hs. destruct Hs as [Hd Ht].
    cbn [parseUint_loop]. rewrite Hd.
    pose proof (isDigit_range d Hd) as Hr.
    pose proof (digitsVal_bound t Ht) as Hb.
    assert (Hp : 0 < 10 ^ len t) by (apply Z.pow_pos_nonneg; [lia | apply len_nonneg]).
    rewrite digitsVal_cons, len_cons.
    replace (1 + len t) with (Z.succ (len t)) by lia.
    rewrite Z.pow_succ_r by apply len_nonneg.
    destruct (Z.ltb_spec M (n * 10 + (d - 48))) as [Hov|Hok].
    + destruct (Z.leb_spec (n * (10 * 10 ^ len t) + ((d - 48) * 10 ^ len t + digitsVal t)) M);
        [nia | reflexivity].
    + rewrite IH by (auto; lia).
      replace ((n * 10 + (d - 48)) * 10 ^ len t + digitsVal t)
        with (n * (10 * 10 ^ len t) + ((d - 48) * 10 ^ len t + digitsVal t)) by lia.
      reflexivity.
Qed.

Lemma ParseUint_digits (ds : list Z) (bits : Z) :
  ds <> [] -> forallb isDigit ds = true -> 0 < bits ->
  ParseUint ds bits =
    if digitsVal ds <=? 2 ^ bits - 1 then (digitsVal ds, None)
    else (2 ^ 64 - 1, Some ErrRange).
Proof.
  intros Hne Hd Hb. unfold ParseUint. destruct ds as [|d t]; [contradiction|].
  rewrite parseUint_loop_digits; [reflexivity | assumption |].
  assert (0 < 2 ^ bits) by (apply Z.pow_pos_nonneg; lia). lia.
Qed.

Lemma ParseInt_after_sign (neg : bool) (ds : list Z) (bits : Z) :
  ds <> [] -> forallb isDigit ds = true -> bits = 32 \/ bits = 64 ->
  (let r := ParseUint ds bits in
   match snd r with
   | Some ErrSyntax => (0, Some ErrSyntax)
   | _ =>
       let un := fst r in
       let cutoff := 2 ^ (bits - 1) in
       if negb neg && (cutoff <=? un) then (cutoff - 1, Some ErrRange)
       else if neg && (cutoff <? un) then (- cutoff, Some ErrRange)
       else (if neg then - un else un, None)
   end) =
  if neg then
    (if digitsVal ds <=? 2 ^ (bits - 1) then (- digitsVal ds, None)
     else (- 2 ^ (bits - 1), Some ErrRange))
  else
    (if digitsVal ds <? 2 ^ (bits - 1) then (digitsVal ds, None)
     else (2 ^ (bits - 1) - 1, Some ErrRange)).
Proof.
  intros Hne Hd Hb.
  rewrite ParseUint_digits by (auto; lia).
  pose proof (digitsVal_bound ds Hd) as [Hv _].
  destruct Hb as [-> | ->]; cbv zeta;
    change (2 ^ (32 - 1)) with 2147483648; change (2 ^ 32 - 1) with 4294967295;
    change (2 ^ (64 - 1)) with 9223372036854775808;
    change (2 ^ 64 - 1) with 18446744073709551615;
    destruct neg;
    repeat (cbn [fst snd negb andb];
            match goal with
            | |- context [?a <=? ?b] => destruct (Z.leb_spec a b)
            | |- context [?a <? ?b] => destruct (Z.ltb_spec a b)
            end);
    cbn [fst snd negb andb]; try reflexivity; try lia.
Qed.

Lemma ParseInt_digits (sg : list Z) (ds : list Z) (bits : Z) :
  sg = [] \/ sg = [43] \/ sg = [45] ->
  ds <> [] -> forallb isDigit ds = true -> bits = 32 \/ bits = 64 ->
  ParseInt (sg ++ ds) bits =
  if eqBytes sg [45] then
    (if digitsVal ds <=? 2 ^ (bits - 1) then (- digitsVal ds, None)
     else (- 2 ^ (bits - 1), Some ErrRange))
  else
    (if digitsVal ds <? 2 ^ (bits - 1) then (digitsVal ds, None)
     else (2 ^ (bits - 1) - 1, Some ErrRange)).
Proof.
  intros Hs Hne Hd Hb. unfold ParseInt.
  destruct Hs as [-> | [-> | ->]].
  - destruct ds as [|d t]; [contradiction|]. cbn [app].
    assert (Hd0 : isDigit d = true) by (cbn in Hd; apply andb_true_iff in Hd; tauto).
    apply isDigit_range in Hd0.
    replace (d =? 43) with false by (symmetry; apply Z.eqb_neq; lia).
    replace (d =? 45) with false by (symmetry; apply Z.eqb_neq; lia).
    cbn [orb]. apply (ParseInt_after_sign false (d :: t)); auto.
  - cbn [app]. change (43 =? 43) with true. change (43 =? 45) with false.
    cbn [orb]. apply (ParseInt_after_sign false ds); auto.
  - cbn [app]. change (45 =? 45) with true. change (45 =? 43) with false.
    cbn [orb]. apply (ParseInt_after_sign true ds); auto.
Qed.

Lemma big_SetString_digits (sg ds : list Z) :
  sg = [] \/ sg = [43] \/ sg = [45] ->
  ds <> [] -> forallb isDigit ds = true ->
  big_SetString (sg ++ ds) =
    Some (if eqBytes sg [45] then - digitsVal ds else digitsVal ds).
Proof.
  intros Hs Hne Hd. unfold big_SetString.
  destruct Hs as [-> | [-> | ->]].
  - destruct ds as [|d t]; [contradiction|]. cbn [app].
    assert (Hd0 : isDigit d = true) by (cbn in Hd; apply andb_true_iff in Hd; tauto).
    apply isDigit_range in Hd0.
    replace (d =? 43) with false by (symmetry; apply Z.eqb_neq; lia).
    replace (d =? 45) with false by (symmetry; apply Z.eqb_neq; lia).
    cbn [orb]. rewrite Hd. reflexivity.
  - cbn [app]. change (43 =? 43) with true. change (43 =? 45) with false.
    cbn [orb]. destruct ds as [|d t]; [contradiction|]. rewrite Hd. reflexivity.
  - cbn [app]. change (45 =? 45) with true. change (45 =? 43) with false.
    cbn [orb]. destruct ds as [|d t]; [contradiction|]. rewrite Hd. reflexivity.
Qed.

(** ** Searching and slicing strings *)

Lemma upto_app {A} (a b : list A) : firstn (Z.to_nat (len a)) (a ++ b) = a.
Proof.
  unfold len. rewrite Nat2Z.id. rewrite firstn_app, Nat.sub_diag, firstn_all.
  cbn. apply app_nil_r.
Qed.

Lemma from_app {A} (a b : list A) : skipn (Z.to_nat (len a)) (a ++ b) = b.
Proof.
  unfold len. rewrite Nat2Z.id. rewrite skipn_app, Nat.sub_diag, skipn_all.
  reflexivity.
Qed.

Lemma from_app_cons {A} (a b : list A) (c : A) :
  skipn (Z.to_nat (len a + 1)) (a ++ c :: b) = b.
Proof.
  replace (len a + 1) with (len (a ++ [c])) by (rewrite len_app; reflexivity).
  replace (a ++ c :: b) with ((a ++ [c]) ++ b) by (rewrite <- app_assoc; reflexivity).
  apply from_app.
Qed.

Lemma numeric_not_Ee (c : Z) : numeric c = true -> existsb (Z.eqb c) (bytes "Ee") = false.
Proof.
  unfold numeric, isDigit. intros H. cbn.
  destruct (Z.eqb_spec c 69) as [->|_]; [discriminate H|].
  destruct (Z.eqb_spec c 101) as [->|_]; [discriminate H|]. reflexivity.
Qed.

Lemma LastIndexAny_numeric (s : list Z) :
  forallb numeric s = true -> LastIndexAny s (bytes "Ee") = -1.
Proof.
  induction s as [|c t IH]; intros H; [reflexivity|].
  cbn [forallb] in H. apply andb_true_iff in H. destruct H as [Hc Ht].
  cbn [LastIndexAny]. rewrite (IH Ht). cbn [Z.leb Z.compare].
  now rewrite (numeric_not_Ee c Hc).
Qed.

Lemma LastIndexAny_exponent (pre ex : list Z) :
  forallb numeric ex = true ->
  LastIndexAny (pre ++ 101 :: ex) (bytes "Ee") = len pre.
Proof.
  intros Hex. induction pre as [|c t IH].
  - cbn [app LastIndexAny]. rewrite (LastIndexAny_numeric ex Hex). reflexivity.
  - cbn [app LastIndexAny]. rewrite IH, len_cons.
    pose proof (len_nonneg t).
    destruct (Z.leb_spec 0 (len t)); lia.
Qed.

Lemma Count_app (a b : list Z) (c : Z) : Count (a ++ b) c = Count a c + Count b c.
Proof. induction a as [|d t IH]; cbn [app Count]; [reflexivity | rewrite IH; lia]. Qed.

Lemma Count_absent (s : list Z) (c : Z) :
  forallb (fun d => negb (d =? c)) s = true -> Count s c = 0.
Proof.
  induction s as [|d t IH]; intros H; [reflexivity|].
  cbn [forallb] in H. apply andb_true_iff in H. destruct H as [Hd Ht].
  cbn [Count]. rewrite (IH Ht). apply negb_true_iff in Hd. now rewrite Hd.
Qed.

Lemma IndexByte_first (pre post : list Z) (c : Z) :
  forallb (fun d => negb (d =? c)) pre = true ->
  IndexByte (pre ++ c :: post) c = len pre.
Proof.
  intros H. induction pre as [|d t IH].
  - cbn [app IndexByte]. now rewrite Z.eqb_refl.
  - cbn [forallb] in H. apply andb_true_iff in H. destruct H as [Hd Ht].
    apply negb_true_iff in Hd. cbn [app IndexByte]. rewrite Hd, (IH Ht), len_cons.
    pose proof (len_nonneg t). destruct (Z.ltb_spec (len t) 0); lia.
Qed.

(** ** SetString on well-formed digits *)

Lemma byteAt_head (c : Z) (t : list Z) (h : heap) : byteAt (c :: t) 0 h = Ok c h.
Proof.
  unfold byteAt. rewrite len_cons. pose proof (len_nonneg t).
  destruct (Z.ltb_spec 0 (1 + len t)); [reflexivity | lia].
Qed.

Lemma pow10_le (a b : Z) : 0 <= a <= b -> 10 ^ a <= 10 ^ b.
Proof. intros H. apply Z.pow_le_mono_r; lia. Qed.

Lemma SetString_digits_ok (h : heap) (z : ptr) (neg : bool) (ds : list Z) (sc : Z) :
  ds <> [] -> forallb isDigit ds = true ->
  let v := if neg then - digitsVal ds else digitsVal ds in
  exists h',
    SetString_digits z ((if neg then [45] else []) ++ ds) sc h = Ok (z, true) h' /\
    mag (h' z) = v /\
    scale (h' z) = sc /\
    form (h' z) = (if v =? 0 then (if neg then nzero else zero) else finite) /\
    ctx (h' z) = ctx (h z) /\
    (forall p, p <> z -> h' p = h p).
Proof.
  intros Hne Hd v.
  pose proof (digitsVal_bound ds Hd) as [Hv0 Hvub].
  set (sg := if neg then [45] else []) in *.
  assert (Hsg : sg = [] \/ sg = [43] \/ sg = [45]) by (subst sg; destruct neg; auto).
  assert (Hneg : eqBytes sg [45] = neg) by (subst sg; destruct neg; reflexivity).
  assert (Hlen : len (sg ++ ds) = (if neg then 1 else 0) + len ds).
  { rewrite len_app. subst sg. destruct neg; reflexivity. }
  assert (Hl1 : 1 <= len ds).
  { destruct ds; [contradiction|]. rewrite len_cons. pose proof (len_nonneg ds). lia. }
  assert (Hs0 : forall h0, byteAt (sg ++ ds) 0 h0 = Ok (if neg then 45 else hd 0 ds) h0).
  { intros h0. subst sg. destruct neg; cbn [app].
    - apply byteAt_head.
    - destruct ds; [contradiction|]. apply byteAt_head. }
  assert (Hhd : neg = false -> (hd 0 ds =? 45) = false).
  { intros _. destruct ds as [|d t]; [contradiction|]. cbn [hd].
    cbn [forallb] in Hd. apply andb_true_iff in Hd. destruct Hd as [Hd0 _].
    apply isDigit_range in Hd0. apply Z.eqb_neq. lia. }
  assert (H18 : len ds <= 18 -> digitsVal ds < 10 ^ 18).
  { intros H. eapply Z.lt_le_trans; [exact Hvub|]. apply pow10_le. lia. }
  assert (H19 : 10 ^ 18 <= digitsVal ds -> 19 <= len ds).
  { intros H. destruct (Z.le_gt_cases 19 (len ds)); [assumption|].
    specialize (H18 ltac:(lia)). lia. }
  change (10 ^ 18) with 1000000000000000000 in *.
  unfold SetString_digits.
  rewrite (ParseInt_digits sg ds 64 Hsg Hne Hd (or_intror eq_refl)).
  rewrite (big_SetString_digits sg ds Hsg Hne Hd).
  rewrite Hneg, Hlen.
  change (2 ^ (64 - 1)) with 9223372036854775808.
  unfold mag, isCompact_, Inflated, MinInt64.
  destruct neg; subst v; cbv iota;
    match goal with
    | |- context [?a <=? 19] => destruct (Z.leb_spec a 19) as [L|L]
    end;
    run_with ltac:(rewrite ?Hs0).
  all: repeat match goal with
       | |- context [?a <=? ?b] => destruct (Z.leb_spec a b); run_with ltac:(rewrite ?Hs0)
       | |- context [?a <? ?b] => destruct (Z.ltb_spec a b); run_with ltac:(rewrite ?Hs0)
       | |- context [?a =? ?b] => destruct (Z.eqb_spec a b); run_with ltac:(rewrite ?Hs0)
       end.
  all: try lia.
  all: try (rewrite Hhd by reflexivity; run).
  all: try (eexists; split; [reflexivity|]; run;
            repeat match goal with
            | |- context [?a =? ?b] => destruct (Z.eqb_spec a b)
            end; cbn [negb]; try lia;
            repeat split; try reflexivity; try lia; intros; heap_simpl; reflexivity).
Qed.

Lemma int32_id (x : Z) : MinInt32 <= x <= MaxInt32 -> int32 x = x.
Proof.
  unfold int32, wrap, MinInt32, MaxInt32. intros H.
  change (2 ^ (32 - 1)) with 2147483648. change (2 ^ 32) with 4294967296.
  rewrite Z.mod_small; lia.
Qed.

Lemma int64_id (x : Z) : MinInt64 <= x <= MaxInt64 -> int64 x = x.
Proof.
  unfold int64, wrap, MinInt64, MaxInt64. intros H.
  change (2 ^ (64 - 1)) with 9223372036854775808.
  change (2 ^ 64) with 18446744073709551616.
  rewrite Z.mod_small; lia.
Qed.

Lemma isDigit_numeric (s : list Z) :
  forallb isDigit s = true -> forallb numeric s = true.
Proof.
  intros H. apply forallb_forall. intros c Hc.
  rewrite forallb_forall in H. unfold numeric. now rewrite (H c Hc).
Qed.

Lemma isDigit_no_point (s : list Z) :
  forallb isDigit s = true -> forallb (fun d => negb (d =? 46)) s = true.
Proof.
  intros H. apply forallb_forall. intros c Hc.
  rewrite forallb_forall in H. specialize (H c Hc). apply isDigit_range in H.
  apply negb_true_iff, Z.eqb_neq. lia.
Qed.

Lemma eqBytes_head (d c : Z) (a b : list Z) :
  d <> c -> eqBytes (d :: a) (c :: b) = false.
Proof.
  intros H. unfold eqBytes. cbn [combine forallb fst snd].
  apply Z.eqb_neq in H. rewrite H. cbn. apply andb_false_r.
Qed.

(** A string that starts, after an optional minus, with a digit is not one
    of the special literals. *)
Lemma ParseSpecial_number (neg : bool) (d : Z) (t : list Z) :
  isDigit d = true ->
  ParseSpecial ((if neg then [45] else []) ++ d :: t) = Invalid.
Proof.
  intros Hd. apply isDigit_range in Hd.
  assert (Hl : lower d = d).
  { unfold lower. destruct (Z.leb_spec 65 d); destruct (Z.leb_spec d 90);
      cbn [andb]; lia. }
  unfold ParseSpecial.
  assert (E : forall rest,
    (let rest := map lower (d :: rest) in
     if eqBytes rest (bytes "inf") || eqBytes rest (bytes "infinity")
     then (if neg then NInf else PInf)
     else if wordDigits (bytes "nan") rest || wordDigits (bytes "qnan") rest then QNaN
     else if wordDigits (bytes "snan") rest then SNaN
     else Invalid) = Invalid).
  { intros rest. cbv zeta. cbn [map]. rewrite Hl.
    unfold wordDigits. cbn [bytes list_ascii_of_string map List.length firstn].
    rewrite !eqBytes_head by (cbn; lia). reflexivity. }
  destruct neg; cbn [app].
  - change (45 =? 45) with true. rewrite orb_true_r. apply E.
  - replace (d =? 43) with false by (symmetry; apply Z.eqb_neq; lia).
    replace (d =? 45) with false by (symmetry; apply Z.eqb_neq; lia).
    cbn [orb]. apply E.
Qed.

Lemma expPart_shape (E : Z) :
  E <> 0 ->
  exists sg ds,
    expPart E = 101 :: sg ++ ds /\ (sg = [43] \/ sg = [45]) /\
    ds <> [] /\ forallb isDigit ds = true /\
    digitsVal ds = Z.abs E /\ eqBytes sg [45] = (E <? 0).
Proof.
  intros HE. unfold expPart, Itoa.
  destruct (Z.ltb_spec 0 E) as [Hp|Hn].
  - destruct (Z.ltb_spec E 0); [lia|].
    destruct (utoa_spec E ltac:(lia)) as (Hv & Hd & Hl & _).
    exists [43], (utoa E). repeat split; auto.
    + intros C. rewrite C in Hl. cbn in Hl. lia.
    + rewrite Hv. lia.
  - destruct (Z.ltb_spec E 0); [|lia].
    destruct (utoa_spec (- E) ltac:(lia)) as (Hv & Hd & Hl & _).
    exists [45], (utoa (- E)). repeat split; auto.
    + intros C. rewrite C in Hl. cbn in Hl. lia.
    + rewrite Hv. lia.
Qed.

Lemma forallb_app_intro {A} (f : A -> bool) (a b : list A) :
  forallb f a = true -> forallb f b = true -> forallb f (a ++ b) = true.
Proof. intros Ha Hb. rewrite forallb_app, Ha, Hb. reflexivity. Qed.

Lemma SetString_numeral (h : heap) (z : ptr) (neg : bool) (ip : list Z)
      (fp : option (list Z)) (ex : option Z) :
  ip <> [] -> forallb isDigit ip = true ->
  (forall f, fp = Some f -> forallb isDigit f = true /\ len f <= MaxInt32) ->
  (forall E, ex = Some E -> E <> 0 /\ - MaxInt32 <= E <= MaxInt32) ->
  let f := match fp with Some f => f | None => [] end in
  let E := match ex with Some E => E | None => 0 end in
  MinInt32 <= len f - E <= MaxInt32 ->
  let v := if neg then - digitsVal (ip ++ f) else digitsVal (ip ++ f) in
  exists h',
    SetString z (numeral neg ip fp ex) h = Ok (z, true) h' /\
    mag (h' z) = v /\
    scale (h' z) = len f - E /\
    form (h' z) = (if v =? 0 then (if neg then nzero else zero) else finite) /\
    ctx (h' z) = ctx (h z) /\
    (forall p, p <> z -> h' p = h p).
Proof.
  intros Hne Hip Hfp Hex f E Hsc v.
  set (sg := if neg then [45] else []).
  set (dotp := match fp with Some f => 46 :: f | None => [] end).
  set (pre := sg ++ ip ++ dotp).
  set (expo := match ex with Some E => expPart E | None => [] end).
  assert (HS : numeral neg ip fp ex = pre ++ expo).
  { unfold numeral, pre, expo, sg, dotp. now rewrite <- !app_assoc. }
  assert (Hf : forallb isDigit f = true /\ len f <= MaxInt32).
  { subst f. destruct fp as [f0|]; [apply Hfp; reflexivity|].
    split; [reflexivity | cbn; unfold MaxInt32; lia]. }
  destruct Hf as [Hfd Hfl].
  assert (Hsgn : forallb numeric sg = true) by (subst sg; destruct neg; reflexivity).
  assert (Hpre : forallb numeric pre = true).
  { subst pre dotp. apply forallb_app_intro; [exact Hsgn|].
    apply forallb_app_intro; [now apply isDigit_numeric|].
    destruct fp as [f0|]; [|reflexivity]. cbn [forallb].
    change (numeric 46) with true. cbn [andb]. apply isDigit_numeric.
    now apply (Hfp f0). }
  assert (Hipd : exists d t, ip = d :: t /\ isDigit d = true).
  { destruct ip as [|d t]; [contradiction|]. exists d, t. split; [reflexivity|].
    cbn in Hip. apply andb_true_iff in Hip. tauto. }
  destruct Hipd as (d & t & Eip & Hd0).
  assert (Hspec : ParseSpecial (numeral neg ip fp ex) = Invalid).
  { unfold numeral. rewrite Eip. cbn [app].
    now apply ParseSpecial_number. }
  assert (Hnil : exists c r, numeral neg ip fp ex = c :: r).
  { unfold numeral. rewrite Eip. destruct neg; cbn [app]; eauto. }
  assert (Hlp : 0 < len pre).
  { subst pre. rewrite !len_app, Eip, len_cons.
    pose proof (len_nonneg sg). pose proof (len_nonneg t). pose proof (len_nonneg dotp). lia. }
  (* the mantissa without its point *)
  assert (Hdots : Count pre 46 = (match fp with Some _ => 1 | None => 0 end) /\
                  (let j := IndexByte pre 46 in
                   (if match fp with Some _ => true | None => false end
                    then upto j pre ++ from (j + 1) pre else pre) = sg ++ ip ++ f /\
                   (match fp with Some _ => len (sg ++ ip ++ f) - j = len f | None => True end))).
  { assert (Hsi : forallb (fun c => negb (c =? 46)) (sg ++ ip) = true).
    { apply forallb_app_intro; [subst sg; destruct neg; reflexivity|].
      now apply isDigit_no_point. }
    subst pre dotp f. destruct fp as [f0|].
    - destruct (Hfp f0 eq_refl) as [Hf0 _].
      replace (sg ++ ip ++ 46 :: f0) with ((sg ++ ip) ++ 46 :: f0)
        by (now rewrite app_assoc).
      replace (sg ++ ip ++ f0) with ((sg ++ ip) ++ f0) by (now rewrite app_assoc).
      split.
      + rewrite Count_app, (Count_absent _ _ Hsi). cbn [Count].
        rewrite (Count_absent _ _ (isDigit_no_point _ Hf0)). reflexivity.
      + cbv zeta. rewrite (IndexByte_first _ _ _ Hsi).
        unfold upto, from. rewrite upto_app, from_app_cons.
        split; [reflexivity|]. rewrite !len_app. lia.
    - rewrite !app_nil_r. split; [|cbv zeta; auto].
      apply Count_absent. exact Hsi. }
  destruct Hdots as (Hcnt & Hcut).
  (* the final phase *)
  destruct (SetString_digits_ok h z neg (ip ++ f) (len f - E)) as (h' & Hrun & Hres).
  { rewrite Eip. discriminate. }
  { now apply forallb_app_intro. }
  exists h'. split; [|exact Hres].
  destruct Hnil as (c0 & r0 & Hc0).
  assert (Hexp : let i := LastIndexAny (numeral neg ip fp ex) (bytes "Ee") in
                 (0 <? i) = (match ex with Some _ => true | None => false end) /\
                 (if 0 <? i then upto i (numeral neg ip fp ex) else numeral neg ip fp ex) = pre /\
                 (match ex with
                  | Some E0 => ParseInt (from (i + 1) (numeral neg ip fp ex)) 32 = (E0, None)
                  | None => True
                  end)).
  { cbv zeta. rewrite HS. subst expo. destruct ex as [E0|].
    - destruct (Hex E0 eq_refl) as [HE0 HEr].
      destruct (expPart_shape E0 HE0) as (sge & ds & Hsh & Hsge & Hdne & Hdd & Hdv & Hdn).
      rewrite Hsh.
      assert (Hnum : forallb numeric (sge ++ ds) = true).
      { apply forallb_app_intro; [destruct Hsge as [-> | ->]; reflexivity|].
        now apply isDigit_numeric. }
      rewrite (LastIndexAny_exponent pre (sge ++ ds) Hnum).
      unfold upto, from. rewrite upto_app, from_app_cons.
      split; [apply Z.ltb_lt; exact Hlp|].
      destruct (Z.ltb_spec 0 (len pre)); [|lia].
      split; [reflexivity|].
      rewrite (ParseInt_digits sge ds 32) by auto.
      rewrite Hdn, Hdv. change (2 ^ (32 - 1)) with 2147483648.
      unfold MaxInt32 in HEr.
      destruct (Z.ltb_spec E0 0).
      + destruct (Z.leb_spec (Z.abs E0) 2147483648); [|lia]. f_equal. lia.
      + destruct (Z.ltb_spec (Z.abs E0) 2147483648); [|lia]. f_equal. lia.
    - rewrite app_nil_r. rewrite (LastIndexAny_numeric pre Hpre).
      change (0 <? -1) with false. auto. }
  cbv zeta in Hexp, Hcut.
  destruct Hexp as (Hi & Hs1 & He). destruct Hcut as (Hs2 & Hj).
  unfold SetString. rewrite Hspec, Hc0. rewrite <- Hc0.
  set (i := LastIndexAny (numeral neg ip fp ex) (bytes "Ee")) in *.
  set (e := ParseInt (from (i + 1) (numeral neg ip fp ex)) 32) in *.
  assert (Hsc0 : (if 0 <? i then int32 (- int32 (fst e)) else 0) = - E).
  { subst E. rewrite Hi. destruct ex as [E0|]; [|reflexivity].
    destruct (Hex E0 eq_refl) as [_ HEr]. rewrite He. cbn [fst].
    unfold MaxInt32 in HEr.
    rewrite (int32_id E0) by (unfold MinInt32, MaxInt32; lia).
    apply int32_id. unfold MinInt32, MaxInt32. lia. }
  assert (Herr1 : (0 <? i) && match snd e with Some ErrSyntax => true | _ => false end = false).
  { rewrite Hi. destruct ex as [E0|]; [|reflexivity]. rewrite He. reflexivity. }
  assert (Herr2 : (0 <? i) && match snd e with Some ErrRange => true | _ => false end = false).
  { rewrite Hi. destruct ex as [E0|]; [|reflexivity]. rewrite He. reflexivity. }
  rewrite Herr1, Herr2, Hs1, Hsc0, Hcnt.
  destruct fp as [f0|].
  - change (2 <=? 1) with false. change (1 =? 1) with true. cbv iota.
    rewrite Hs2. unfold checked_Add32. cbn [andb fst snd].
    rewrite Hj. subst f.
    rewrite (int32_id (len f0)) by (pose proof (len_nonneg f0); unfold MinInt32; lia).
    assert (Hfit : fits32 (- E + len f0) = true).
    { unfold fits32. apply andb_true_iff. split; apply Z.leb_le; lia. }
    rewrite Hfit. cbn [negb].
    rewrite int32_id by lia.
    replace (- E + len f0) with (len f0 - E) by lia. exact Hrun.
  - change (2 <=? 0) with false. change (0 =? 1) with false. cbv iota. cbn [andb].
    rewrite Hs2. subst f.
    replace (- E) with (len (@nil Z) - E) by (cbn; lia). exact Hrun.
Qed.

(** ** What the formatter writes *)

Lemma trimIndex_rev_spec (r : list Z) :
  (trimIndex_rev r = -1 /\ r = repeat 48 (List.length r)) \/
  (exists k : nat,
     trimIndex_rev r = len r - Z.of_nat k /\ (k <= List.length r)%nat /\
     0 < len r - Z.of_nat k /\
     r = repeat 48 k ++ skipn k r).
Proof.
  induction r as [|c t IH].
  - left. split; reflexivity.
  - cbn [trimIndex_rev]. destruct (Z.eqb_spec c 48) as [->|Hc]; cbn [negb].
    + destruct IH as [[Hi Hz] | (k & Hi & Hk & Hpos & Hsplit)].
      * left. split; [exact Hi|]. cbn [List.length repeat]. now rewrite <- Hz.
      * right. exists (S k). rewrite Hi, len_cons.
        split; [lia|]. split; [cbn [List.length]; lia|]. split; [lia|].
        cbn [repeat skipn app]. now rewrite <- Hsplit.
    + right. exists 0%nat. cbn [repeat skipn app Z.of_nat].
      rewrite len_cons. pose proof (len_nonneg t).
      repeat split; try lia.
Qed.

(** The bytes of [b] before its trailing zeros, and how many zeros follow. *)
Lemma trimIndex_spec (b : list Z) :
  (trimIndex b = -1 /\ b = repeat 48 (List.length b)) \/
  (exists k : nat,
     trimIndex b = len b - Z.of_nat k /\ 0 < trimIndex b /\
     b = upto (trimIndex b) b ++ repeat 48 k).
Proof.
  unfold trimIndex.
  destruct (trimIndex_rev_spec (rev b)) as [[Hi Hz] | (k & Hi & Hk & Hpos & Hsplit)].
  - left. split; [exact Hi|]. rewrite length_rev in Hz.
    rewrite <- (rev_involutive b), Hz, rev_repeat. now rewrite repeat_length.
  - right. exists k. rewrite len_rev in *. rewrite length_rev in Hk.
    split; [exact Hi|]. rewrite Hi. split; [exact Hpos|].
    unfold upto.
    replace (Z.to_nat (len b - Z.of_nat k)) with (List.length b - k)%nat
      by (unfold len; lia).
    transitivity (rev (repeat 48 k ++ skipn k (rev b))).
    { rewrite <- Hsplit. symmetry. apply rev_involutive. }
    rewrite rev_app_distr, rev_repeat, skipn_rev, rev_involutive. reflexivity.
Qed.

Lemma digitsVal_trailing_zeros (a : list Z) (k : nat) :
  digitsVal (a ++ repeat 48 k) = digitsVal a * 10 ^ Z.of_nat k.
Proof. rewrite digitsVal_app, digitsVal_zeros, len_repeat. lia. Qed.

Lemma forallb_firstn {A} (f : A -> bool) (n : nat) (l : list A) :
  forallb f l = true -> forallb f (firstn n l) = true.
Proof.
  revert l. induction n as [|n IH]; intros [|a l] H; cbn [firstn forallb]; auto.
  cbn [forallb] in H. apply andb_true_iff in H. destruct H as [Ha Hl].
  rewrite Ha. cbn [andb]. auto.
Qed.

Lemma forallb_skipn {A} (f : A -> bool) (n : nat) (l : list A) :
  forallb f l = true -> forallb f (skipn n l) = true.
Proof.
  revert l. induction n as [|n IH]; intros [|a l] H; cbn [skipn]; auto.
  cbn [forallb] in H. apply andb_true_iff in H. destruct H as [Ha Hl]. auto.
Qed.

Lemma formatCompact_abs (c : Z) :
  MinInt64 < c <= MaxInt64 -> formatCompact c = utoa (Z.abs c).
Proof.
  intros H. unfold formatCompact. unfold MinInt64, MaxInt64 in H.
  change (2 ^ 64) with 18446744073709551616.
  destruct (Z.ltb_spec c 0).
  - rewrite int64_id by (unfold MinInt64, MaxInt64; lia).
    rewrite Z.mod_small by lia. f_equal. lia.
  - rewrite Z.mod_small by lia. f_equal. lia.
Qed.

Lemma f_w_Write (F : formatter) (p : list Z) : f_w (Write F p) = f_w F ++ p.
Proof. reflexivity. Qed.

Lemma f_prec_Write (F : formatter) (p : list Z) : f_prec (Write F p) = f_prec F.
Proof. reflexivity. Qed.

Lemma upto_all (l : list Z) : upto (len l) l = l.
Proof. unfold upto, len. rewrite Nat2Z.id. apply firstn_all. Qed.

Lemma upto_from (i : Z) (l : list Z) : upto i l ++ from i l = l.
Proof. unfold upto, from. apply firstn_skipn. Qed.

Lemma len_upto (i : Z) (l : list Z) : 0 <= i <= len l -> len (upto i l) = i.
Proof.
  intros H. unfold upto, len in *. rewrite length_firstn. lia.
Qed.

Lemma len_from (i : Z) (l : list Z) : 0 <= i <= len l -> len (from i l) = len l - i.
Proof.
  intros H. unfold from, len in *. rewrite length_skipn. lia.
Qed.

Ltac renders_split :=
  unfold renders; cbv beta zeta iota;
  split; [|split; [|split; [|split; [|split; [|split]]]]];
  [ try discriminate | try reflexivity | try discriminate | try discriminate | | | ].

Lemma formatPlain_renders (F : formatter) (D : list Z) (m sc : Z) :
  f_prec F = noPrec ->
  forallb isDigit D = true -> 1 <= len D -> digitsVal D = Z.abs m ->
  0 <= sc <= MaxInt32 ->
  exists ip fp k,
    f_w (formatPlain F D sc)
      = f_w F ++ ip ++ match fp with Some f => 46 :: f | None => [] end /\
    renders ip fp None m sc k.
Proof.
  intros HF HDd HDl HDv Hsc. unfold formatPlain.
  assert (HM : MinInt32 <= 0) by (unfold MinInt32; lia).
  destruct (Z.eqb_spec (len D - sc) 0) as [Hr0|Hr0].
  - (* the radix point comes right before the digits *)
    rewrite f_w_Write. unfold WriteString. rewrite f_w_Write.
    destruct (trimIndex_spec D) as [[Hi Hz] | (k & Hi & Hpos & Hsplit)].
    + rewrite Hi. change (0 <? -1) with false. cbv iota.
      exists [48], (Some D), 0%nat. split.
      { rewrite <- app_assoc. reflexivity. }
      renders_split.
      * intros f [= <-]. split; [exact HDd | lia].
      * lia.
      * lia.
      * cbn [app Z.of_nat]. rewrite digitsVal_cons. lia.
    + destruct (Z.ltb_spec 0 (trimIndex D)); [|lia].
      exists [48], (Some (upto (trimIndex D) D)), k. split.
      { rewrite <- app_assoc. reflexivity. }
      assert (Hlu : len (upto (trimIndex D) D) = len D - Z.of_nat k).
      { rewrite len_upto; lia. }
      renders_split.
      * intros f [= <-]. split; [now apply forallb_firstn | lia].
      * lia.
      * lia.
      * pose proof (digitsVal_trailing_zeros (upto (trimIndex D) D) k) as E.
        rewrite <- Hsplit, HDv in E.
        cbn [app]. rewrite digitsVal_cons. lia.
  - destruct (Z.ltb_spec 0 (len D - sc)) as [Hrp|Hrn].
    + (* the radix point falls inside the digits *)
      set (ipart := upto (len D - sc) D). set (tail := from (len D - sc) D).
      assert (Hsplit0 : D = ipart ++ tail) by (symmetry; apply upto_from).
      assert (Hli : len ipart = len D - sc) by (apply len_upto; lia).
      assert (Hlt : len tail = sc) by (unfold tail; rewrite len_from; lia).
      assert (Hipne : ipart <> []).
      { intros C. rewrite C in Hli. cbn in Hli. lia. }
      assert (Hipd : forallb isDigit ipart = true) by (now apply forallb_firstn).
      assert (Htd : forallb isDigit tail = true) by (now apply forallb_skipn).
      destruct (trimIndex_spec tail) as [[Hi Hz] | (k & Hi & Hpos & Hsplit)].
      * rewrite Hi. change (0 <? -1) with false. cbv iota.
        exists ipart, None, (List.length tail). split.
        { rewrite f_w_Write, app_nil_r. reflexivity. }
        renders_split; try assumption.
        -- fold (len tail). change (len (@nil Z)) with 0. lia.
        -- fold (len tail). lia.
        -- pose proof (digitsVal_trailing_zeros ipart (List.length tail)) as E.
           rewrite <- Hz, <- Hsplit0, HDv in E.
           rewrite app_nil_r. lia.
      * destruct (Z.ltb_spec 0 (trimIndex tail)); [|lia].
        exists ipart, (Some (upto (trimIndex tail) tail)), k. split.
        { unfold WriteByte. rewrite !f_w_Write, <- !app_assoc. reflexivity. }
        assert (Hlu : len (upto (trimIndex tail) tail) = len tail - Z.of_nat k).
        { rewrite len_upto; lia. }
        renders_split; try assumption.
        -- intros f [= <-]. split; [now apply forallb_firstn | lia].
        -- lia.
        -- lia.
        -- pose proof (digitsVal_trailing_zeros (ipart ++ upto (trimIndex tail) tail) k) as E.
           rewrite <- app_assoc, <- Hsplit, <- Hsplit0, HDv in E. lia.
    + (* zeros between the radix point and the digits *)
      unfold writeZeros, WriteString. rewrite !f_prec_Write, HF.
      change (noPrec <? noPrec) with false. cbn [andb]. cbv iota.
      rewrite upto_all, !f_w_Write.
      exists [48], (Some (repeat 48 (Z.to_nat (- (len D - sc))) ++ D)), 0%nat. split.
      { rewrite <- !app_assoc. reflexivity. }
      assert (Hlz : len (repeat 48 (Z.to_nat (- (len D - sc))) ++ D) = sc).
      { rewrite len_app, len_repeat. lia. }
      renders_split.
      * intros f [= <-]. split; [|lia].
        apply forallb_app_intro; [apply forallb_isDigit_zeros | exact HDd].
      * lia.
      * lia.
      * cbn [app Z.of_nat]. rewrite digitsVal_cons, digitsVal_app, digitsVal_zeros. lia.
Qed.

Lemma formatSci_renders (F : formatter) (D : list Z) (m sc adj : Z) (h : heap) :
  forallb isDigit D = true -> 1 <= len D -> digitsVal D = Z.abs m ->
  adj = - sc + (len D - 1) -> adj <> 0 -> - MaxInt32 <= adj <= MaxInt32 ->
  len D - 1 <= MaxInt32 -> MinInt32 <= sc - (len D - 1) ->
  exists F' ip fp k,
    formatSci F D adj 101 h = Ok F' h /\
    f_w F' = f_w F ++ ip ++ match fp with Some f => 46 :: f | None => [] end
                   ++ expPart adj /\
    renders ip fp (Some adj) m sc k.
Proof.
  intros HDd HDl HDv Hadj Hnz Hrange HlD Hmin.
  destruct D as [|d0 T]; [cbn in HDl; lia|].
  rewrite len_cons in *. pose proof (len_nonneg T) as HT0.
  cbn [forallb] in HDd. apply andb_true_iff in HDd. destruct HDd as [Hd0 HTd].
  unfold formatSci, bind, ret. rewrite byteAt_head, len_cons.
  destruct (Z.eqb_spec adj 0) as [|_]; [contradiction|]. cbn [negb].
  assert (Hexp : forall G : formatter,
             f_w (Write (if 0 <? adj then WriteByte (WriteByte G 101) 43
                         else WriteByte G 101) (Itoa adj))
             = f_w G ++ expPart adj).
  { intros G. unfold expPart. destruct (0 <? adj); unfold WriteByte;
      rewrite !f_w_Write, <- ?app_assoc; reflexivity. }
  destruct (Z.ltb_spec 1 (1 + len T)) as [Hlong|Hshort].
  - (* more than one digit: a radix point after the first *)
    change (from 1 (d0 :: T)) with T.
    set (T' := if (0 <=? trimIndex T) && (trimIndex T <? len T)
               then upto (trimIndex T) T else T).
    assert (Hk : exists k : nat, T = T' ++ repeat 48 k).
    { destruct (trimIndex_spec T) as [[Hi Hz] | (k & Hi & Hpos & Hsplit)].
      - exists 0%nat. unfold T'. rewrite Hi. cbn [Z.leb andb repeat].
        now rewrite app_nil_r.
      - unfold T'. destruct ((0 <=? trimIndex T) && (trimIndex T <? len T)).
        + exists k. exact Hsplit.
        + exists 0%nat. cbn [repeat]. now rewrite app_nil_r. }
    destruct Hk as (k & Hk).
    assert (HlT : len T = len T' + Z.of_nat k).
    { rewrite Hk at 1. now rewrite len_app, len_repeat. }
    assert (HT'd : forallb isDigit T' = true).
    { unfold T'. destruct ((0 <=? trimIndex T) && (trimIndex T <? len T)); auto.
      now apply forallb_firstn. }
    pose proof (len_nonneg T') as HT'0.
    eexists _, [d0], (Some T'), k. split; [reflexivity|]. split.
    + rewrite Hexp, f_w_Write.
      match goal with |- context [if ?c then with_f_prec ?G ?p else _] =>
        replace (f_w (if c then with_f_prec G p else G)) with (f_w G)
          by (destruct c; reflexivity) end.
      unfold WriteByte. rewrite !f_w_Write, <- !app_assoc. reflexivity.
    + renders_split.
      * cbn [forallb]. now rewrite Hd0.
      * intros f [= <-]. split; [exact HT'd | lia].
      * intros E [= <-]. split; [exact Hnz | exact Hrange].
      * lia.
      * lia.
      * pose proof (digitsVal_trailing_zeros (d0 :: T') k) as E.
        cbn [app] in E. rewrite <- Hk, HDv in E. cbn [app]. lia.
  - (* one digit *)
    assert (T = []) as ->.
    { destruct T; [reflexivity|]. rewrite len_cons in Hshort. pose proof (len_nonneg T). lia. }
    change (len (@nil Z)) with 0 in *.
    eexists _, [d0], None, 0%nat. split; [reflexivity|]. split.
    + rewrite Hexp. unfold WriteByte. rewrite !f_w_Write, <- !app_assoc. reflexivity.
    + renders_split.
      * cbn [forallb]. now rewrite Hd0.
      * intros E [= <-]. split; [exact Hnz | exact Hrange].
      * change (len (@nil Z)) with 0. lia.
      * lia.
      * cbn [app Z.of_nat]. lia.
Qed.

Lemma String_finite (h : heap) (x : ptr) :
  form (h x) = finite -> MinInt64 <= compact (h x) <= MaxInt64 ->
  MinInt32 <= scale (h x) <= MaxInt32 ->
  (scale (h x) < 0 -> len (utoa (Z.abs (mag (h x)))) - 1 - scale (h x) <= MaxInt32) ->
  exists ip fp ex k,
    String_ x h = Ok (numeral (mag (h x) <? 0) ip fp ex) h /\
    renders ip fp ex (mag (h x)) (scale (h x)) k.
Proof.
  intros Hf Hc Hs Hadj.
  set (m := mag (h x)) in *. set (sc := scale (h x)) in *.
  set (D := utoa (Z.abs m)) in *.
  destruct (utoa_spec (Z.abs m) (Z.abs_nonneg m)) as (HDv & HDd & HDl & _ & _).
  fold D in HDv, HDd, HDl.
  assert (HD : (if negb (isCompact_ (h x)) then formatUnscaled (unscaled (h x))
                else formatCompact (compact (h x))) = D).
  { unfold D, m, mag, isCompact_, Inflated.
    destruct (Z.eqb_spec (compact (h x)) MinInt64) as [E|E]; cbn [negb].
    - reflexivity.
    - apply formatCompact_abs. lia. }
  assert (Hneg : Signbit_ (h x) = (m <? 0)).
  { unfold Signbit_, m, mag. rewrite Hf. change (negb (finite =? finite)) with false.
    cbv iota. destruct (isCompact_ (h x)); [reflexivity|].
    destruct (unscaled (h x)); reflexivity. }
  unfold String_, format.
  run_with ltac:(rewrite ?Hf, ?HD, ?Hneg). fold sc.
  match goal with |- context [f_prec ?G] => set (F := G) end.
  assert (HFp : f_prec F = noPrec) by (unfold F; destruct (m <? 0); reflexivity).
  assert (HFw : f_w F = if m <? 0 then [45] else []) by (unfold F; destruct (m <? 0); reflexivity).
  rewrite !HFp. change (0 <? noPrec) with false. cbv iota.
  change (negb (normal =? sci)) with true. change (normal =? plain) with false.
  cbn [andb orb].
  assert (HM : MinInt32 = -2147483648 /\ MaxInt32 = 2147483647) by (split; reflexivity).
  destruct (Z.leb_spec 0 sc) as [Hsc0|Hsc0];
    [ destruct (Z.leb_spec (-6) (- sc + (len D - 1))) as [Ha|Ha] | ].
  - (* plain notation *)
    destruct (formatPlain_renders F D m sc HFp HDd HDl HDv) as (ip & fp & k & Hw & Hr);
      [lia|].
    exists ip, fp, None, k. split; [|exact Hr].
    cbn [andb]. cbv beta iota.
    rewrite Hw, HFw. unfold numeral. now rewrite app_nil_r.
  - (* scientific notation, negative exponent *)
    destruct (formatSci_renders F D m sc (- sc + (len D - 1)) h HDd HDl HDv)
      as (F' & ip & fp & k & Hrun & Hw & Hr); try lia.
    exists ip, fp, (Some (- sc + (len D - 1))), k. split; [|exact Hr].
    cbn [andb]. cbv beta iota.
    rewrite Hrun, Hw, HFw. reflexivity.
  - (* scientific notation, positive exponent *)
    specialize (Hadj Hsc0).
    destruct (formatSci_renders F D m sc (- sc + (len D - 1)) h HDd HDl HDv)
      as (F' & ip & fp & k & Hrun & Hw & Hr); try lia.
    exists ip, fp, (Some (- sc + (len D - 1))), k. split; [|exact Hr].
    cbn [andb]. cbv beta iota.
    rewrite Hrun, Hw, HFw. reflexivity.
Qed.

(** ** Cmp on two representations of one number *)

Lemma arith_Length_utoa (x : Z) : arith_Length x = len (utoa (Z.abs x)).
Proof. unfold arith_Length, utoa. now rewrite len_map. Qed.

Lemma pow10_interval_unique (n a b : Z) :
  1 <= a -> 1 <= b ->
  10 ^ (a - 1) <= n < 10 ^ a -> 10 ^ (b - 1) <= n < 10 ^ b -> a = b.
Proof.
  intros Ha Hb [Ha1 Ha2] [Hb1 Hb2].
  destruct (Z.lt_trichotomy a b) as [Hlt | [Heq | Hgt]]; [exfalso | exact Heq | exfalso].
  - pose proof (pow10_le a (b - 1) ltac:(lia)). lia.
  - pose proof (pow10_le b (a - 1) ltac:(lia)). lia.
Qed.

Lemma arith_Length_shift (v : Z) (k : nat) :
  v <> 0 -> arith_Length (v * 10 ^ Z.of_nat k) = arith_Length v + Z.of_nat k.
Proof.
  intros Hv. rewrite !arith_Length_utoa.
  assert (Hp : 0 < 10 ^ Z.of_nat k) by (apply Z.pow_pos_nonneg; lia).
  rewrite Z.abs_mul, (Z.abs_eq (10 ^ Z.of_nat k)) by lia.
  destruct (utoa_spec (Z.abs v) (Z.abs_nonneg v)) as (_ & _ & Hl & Hub & Hlb).
  specialize (Hlb ltac:(lia)).
  assert (Hn : 0 < Z.abs v * 10 ^ Z.of_nat k) by nia.
  destruct (utoa_spec (Z.abs v * 10 ^ Z.of_nat k) ltac:(lia)) as (_ & _ & Hl' & Hub' & Hlb').
  specialize (Hlb' Hn).
  assert (Hl2 : 1 <= len (utoa (Z.abs v)) + Z.of_nat k) by lia.
  refine (pow10_interval_unique (Z.abs v * 10 ^ Z.of_nat k) _ _
            Hl' Hl2 (conj Hlb' Hub') _).
  replace (len (utoa (Z.abs v)) + Z.of_nat k - 1)
      with ((len (utoa (Z.abs v)) - 1) + Z.of_nat k) by lia.
  rewrite !Z.pow_add_r by lia. split; nia.
Qed.

Lemma Sign_finite (b : Big) : form b = finite -> Sign_ b = Z.sgn (mag b).
Proof.
  intros Hf. unfold Sign_, mag. rewrite Hf. change (negb (finite =? finite)) with false.
  cbv iota. destruct (isCompact_ b); [|reflexivity].
  destruct (compact b); reflexivity.
Qed.

Lemma Sign_zero (b : Big) : form b = zero \/ form b = nzero -> Sign_ b = 0.
Proof. intros [Hf|Hf]; unfold Sign_; rewrite Hf; reflexivity. Qed.

Lemma Precision_finite (b : Big) : form b = finite -> Precision_ b = arith_Length (mag b).
Proof.
  intros Hf. unfold Precision_, mag, arith_BigLength, arith_Length. rewrite Hf.
  change (negb (finite =? finite)) with false. cbv iota.
  destruct (isCompact_ b); reflexivity.
Qed.

Lemma shifted_not_Inflated (v : Z) (k : nat) :
  (0 < k)%nat -> v * 10 ^ Z.of_nat k <> Inflated.
Proof.
  intros Hk E.
  assert (Hm : (v * 10 ^ Z.of_nat k) mod 10 = 0).
  { replace (Z.of_nat k) with (Z.succ (Z.of_nat (k - 1))) by lia.
    rewrite Z.pow_succ_r by lia.
    replace (v * (10 * 10 ^ Z.of_nat (k - 1))) with (v * 10 ^ Z.of_nat (k - 1) * 10) by ring.
    apply Z.mod_mul. lia. }
  rewrite E in Hm. vm_compute in Hm. discriminate.
Qed.

Lemma cmpInt_mag (c u c' u' : Z) :
  (if negb (c =? Inflated) then c else u) = (if negb (c' =? Inflated) then c' else u') ->
  (if negb (c =? Inflated) then
     if negb (c' =? Inflated) then cmpInt c c' else cmpInt c u'
   else if negb (c' =? Inflated) then cmpInt u c' else cmpInt u u') = 0.
Proof.
  destruct (negb (c =? Inflated)), (negb (c' =? Inflated)); intros ->; apply cmpInt_refl.
Qed.

Lemma Cmp_rescaled (h : heap) (z x : ptr) (k : nat) :
  z <> x -> form (h x) = finite ->
  (mag (h z) <> 0 -> form (h z) = finite) ->
  (mag (h z) = 0 -> form (h z) = zero \/ form (h z) = nzero) ->
  mag (h z) * 10 ^ Z.of_nat k = mag (h x) ->
  scale (h z) = scale (h x) - Z.of_nat k ->
  Z.of_nat k <= MaxInt32 ->
  Cmp z x h = Ok 0 h.
Proof.
  intros Hzx Hfx Hnz Hz0 Hval Hsc Hk.
  assert (Hp : 0 < 10 ^ Z.of_nat k) by (apply Z.pow_pos_nonneg; lia).
  unfold Cmp. destruct (Nat.eqb_spec z x) as [|_]; [contradiction|].
  pose proof (Sign_finite _ Hfx) as HSx.
  destruct (Z.eq_dec (mag (h z)) 0) as [Hm0|Hm0].
  - (* both are zero *)
    destruct (Hz0 Hm0) as [Hfz|Hfz]; pose proof (Sign_zero (h z) ltac:(auto)) as HSz;
      rewrite <- Hval, Hm0 in HSx; cbn in HSx;
      unfold checkNaNs; run_with ltac:(rewrite ?Hfz, ?Hfx, ?HSz, ?HSx); reflexivity.
  - pose proof (Hnz Hm0) as Hfz.
    pose proof (Sign_finite _ Hfz) as HSz.
    assert (Hsg : Z.sgn (mag (h x)) = Z.sgn (mag (h z))).
    { rewrite <- Hval, Z.sgn_mul, (Z.sgn_pos (10 ^ Z.of_nat k)) by lia. lia. }
    rewrite Hsg in HSx.
    assert (Hs0 : Z.sgn (mag (h z)) <> 0) by (rewrite Z.sgn_null_iff; exact Hm0).
    unfold checkNaNs. run_with ltac:(rewrite ?Hfz, ?Hfx, ?HSz, ?HSx).
    rewrite Z.ltb_irrefl. apply Z.eqb_neq in Hs0. rewrite Hs0. cbn [andb]. cbv beta iota.
    rewrite Hsc.
    assert (Hmz : mag (h z) = if negb (compact (h z) =? Inflated)
                              then compact (h z) else unscaled (h z)) by reflexivity.
    assert (Hmx : mag (h x) = if negb (compact (h x) =? Inflated)
                              then compact (h x) else unscaled (h x)) by reflexivity.
    destruct k as [|k'].
    + (* the same scale *)
      replace (scale (h x) - Z.of_nat 0) with (scale (h x)) by lia.
      rewrite Z.eqb_refl. rewrite Z.pow_0_r, Z.mul_1_r, Hmz, Hmx in Hval.
      destruct (compact (h z) =? Inflated), (compact (h x) =? Inflated);
        cbn [negb andb] in *; rewrite Hval; now rewrite cmpInt_refl.
    + set (K := Z.of_nat (S k')) in *. assert (HK : 0 < K) by (unfold K; lia).
      destruct (Z.eqb_spec (scale (h x) - K) (scale (h x))) as [|_]; [lia|].
      rewrite (Precision_finite _ Hfz), (Precision_finite _ Hfx), <- Hval.
      unfold K at 2 3. rewrite (arith_Length_shift _ _ Hm0). fold K.
      replace (arith_Length (mag (h z)) + K - scale (h x))
        with (arith_Length (mag (h z)) - (scale (h x) - K)) by lia.
      rewrite Z.ltb_irrefl. change debug with false. cbn [andb]. cbv beta iota.
      destruct (Z.ltb_spec (scale (h x) - K) (scale (h x))) as [_|]; [|lia].
      unfold checked_Sub32. cbn [fst snd].
      replace (scale (h x) - (scale (h x) - K)) with K by lia.
      rewrite (int32_id K) by (unfold MinInt32; lia).
      unfold checked_MulPow10, checked_MulBigPow10, rdb, bind, ret.
      destruct (Z.leb_spec K 0) as [|_]; [lia|]. cbv beta iota.
      rewrite Hmz in Hval.
      destruct (Z.eqb_spec (compact (h z)) Inflated) as [Ez|Ez]; cbn [negb] in *.
      * (* z is inflated *)
        cbn [fst snd]. rewrite Ez, Z.eqb_refl. cbn [negb]. rewrite Hval, Hmx.
        destruct (negb (compact (h x) =? Inflated)); now rewrite cmpInt_refl.
      * destruct (fits64 (compact (h z) * 10 ^ K)); cbn [fst snd negb].
        -- (* z * 10^K is compact *)
           rewrite Hval.
           assert (Hni : mag (h x) <> Inflated).
           { rewrite <- Hval. unfold K. apply shifted_not_Inflated. lia. }
           apply Z.eqb_neq in Hni. rewrite Hni. cbn [negb]. rewrite Hmx.
           destruct (negb (compact (h x) =? Inflated)); now rewrite cmpInt_refl.
        -- rewrite Z.eqb_refl. cbn [negb]. rewrite Hval, Hmx.
           destruct (negb (compact (h x) =? Inflated)); now rewrite cmpInt_refl.
Qed.

(** ** The round trip through String and SetString *)

(** C1 (amended): for a Big x of finite form whose adjusted exponent
    (digits - 1 - scale) is at most MaxInt32 when its scale is negative,
    String succeeds and leaves the store alone, SetString on a distinct
    Big z accepts the text (ok = true) and leaves x alone, and then
    Cmp(z, x) is 0.  The compact field is an int64 and the scale an int32,
    as in the source. *)
Theorem String_SetString_round_trip (h : heap) (z x : ptr) :
  z <> x ->
  form (h x) = finite ->
  MinInt64 <= compact (h x) <= MaxInt64 ->
  MinScale <= scale (h x) <= MaxScale ->
  (scale (h x) < 0 -> Precision_ (h x) - 1 - scale (h x) <= MaxInt32) ->
  exists s h',
    String_ x h = Ok s h /\
    SetString z s h = Ok (z, true) h' /\
    h' x = h x /\
    Cmp z x h' = Ok 0 h'.
Proof.
  intros Hzx Hf Hc Hs Hadj.
  rewrite (Precision_finite _ Hf), arith_Length_utoa in Hadj.
  change MinScale with MinInt32 in Hs. change MaxScale with MaxInt32 in Hs.
  destruct (String_finite h x Hf Hc Hs Hadj) as (ip & fp & ex & k & Hstr & Hr).
  destruct Hr as (Hne & Hipd & Hfp & Hex & Hlen & [Hmin Hkmax] & Hv).
  pose proof (SetString_numeral h z (mag (h x) <? 0) ip fp ex Hne Hipd Hfp Hex) as Hset.
  cbv zeta in Hset.
  destruct Hset as (h' & Hset & Hmag & Hscale & Hform & _ & Hframe); [lia|].
  assert (Hx : h' x = h x) by (apply Hframe; congruence).
  exists (numeral (mag (h x) <? 0) ip fp ex), h'.
  split; [exact Hstr|]. split; [exact Hset|]. split; [exact Hx|].
  assert (Hp : 0 < 10 ^ Z.of_nat k) by (apply Z.pow_pos_nonneg; lia).
  apply (Cmp_rescaled h' z x k); rewrite ?Hx; auto.
  - intros Hm. rewrite Hform. rewrite Hmag in Hm.
    apply Z.eqb_neq in Hm. now rewrite Hm.
  - intros Hm. rewrite Hform. rewrite Hmag in Hm. rewrite Hm, Z.eqb_refl.
    destruct (mag (h x) <? 0); auto.
  - rewrite Hmag. destruct (Z.ltb_spec (mag (h x)) 0); lia.
  - rewrite Hscale. exact Hlen.
Qed.

Lemma String_SetString_round_trip_witness :
  let h := heap3 Big0 (New (-12345) (-3)) Big0 in
  exists s h',
    String_ 1%nat h = Ok s h /\
    SetString 0%nat s h = Ok (0%nat, true) h' /\
    h' 1%nat = h 1%nat /\
    Cmp 0%nat 1%nat h' = Ok 0 h'.
Proof.
  intros h.
  apply (String_SetString_round_trip h 0%nat 1%nat).
  - discriminate.
  - reflexivity.
  - vm_compute. split; discriminate.
  - vm_compute. split; discriminate.
  - intros _. vm_compute. discriminate.
Defined.

(** C1, counterexample: x = New(1, MinScale), the number 1e+2147483648.
    String writes an exponent one past what SetString's ParseInt(_, 10, 32)
    accepts; SetString takes the range error for an underflow, returns
    ok = false and leaves z a zero, and Cmp(z, x) is -1. *)
Lemma C1_counterexample :
  let h := heap3 Big0 (New 1 MinScale) Big0 in
  form (h 1%nat) = finite /\ scale (h 1%nat) = MinScale /\
  String_ 1%nat h = Ok (bytes "1e+2147483648") h /\
  value (SetString 0%nat (bytes "1e+2147483648") h) = Some (0%nat, false) /\
  form_of (SetString 0%nat (bytes "1e+2147483648") h) 0%nat = Some zero /\
  match SetString 0%nat (bytes "1e+2147483648") h with
  | Ok _ h' => value (Cmp 0%nat 1%nat h') = Some (-1)
  | Panic _ _ => False
  end.
Proof.
  cbv zeta. split; [reflexivity|]. split; [reflexivity|]. split.
  - unfold String_, bind, ret.
    assert (E : format (mkFormatter [] 0 noPrec noWidth 0) 1%nat normal 101
                  (heap3 Big0 (New 1 MinScale) Big0)
                = Ok (mkFormatter (bytes "1e+2147483648") 0 noPrec noWidth 13)
                     (heap3 Big0 (New 1 MinScale) Big0)).
    { vm_compute. reflexivity. }
    rewrite E. reflexivity.
  - vm_compute. repeat split; reflexivity.
Qed.

Lemma Cmp_zeros (h : heap) (z x : ptr) :
  z <> x ->
  form (h z) = zero \/ form (h z) = nzero ->
  form (h x) = zero \/ form (h x) = nzero ->
  Cmp z x h = Ok 0 h.
Proof.
  intros Hzx Hz Hx. unfold Cmp. destruct (Nat.eqb_spec z x) as [|_]; [contradiction|].
  pose proof (Sign_zero _ Hz) as HSz. pose proof (Sign_zero _ Hx) as HSx.
  destruct Hz as [Hz|Hz], Hx as [Hx|Hx]; unfold checkNaNs;
    run_with ltac:(rewrite ?Hz, ?Hx, ?HSz, ?HSx); reflexivity.
Qed.

(** The zeros round-trip too: in the modes Go and GDA String writes the text
    0 for +0 and -0 for -0 and leaves the heap alone; SetString reads that
    text back into a distinct z as a zero of the same sign, leaves x alone,
    and Cmp is 0. *)
Lemma String_SetString_zero (h : heap) (z x : ptr) :
  z <> x ->
  form (h x) = zero \/ form (h x) = nzero ->
  OperatingMode (ctx (h x)) = Go \/ OperatingMode (ctx (h x)) = GDA ->
  let s := if form (h x) =? nzero then bytes "-0" else bytes "0" in
  exists h',
    String_ x h = Ok s h /\
    SetString z s h = Ok (z, true) h' /\
    h' x = h x /\
    form (h' z) = form (h x) /\
    Cmp z x h' = Ok 0 h'.
Proof.
  intros Hzx Hf Hm s.
  assert (Es : s = numeral (form (h x) =? nzero) [48] None None).
  { unfold s. destruct (form (h x) =? nzero); reflexivity. }
  assert (Hstr : String_ x h = Ok (numeral (form (h x) =? nzero) [48] None None) h).
  { unfold String_, format.
    destruct Hf as [Hf|Hf], Hm as [Hm|Hm];
      run_with ltac:(rewrite ?Hf, ?Hm); reflexivity. }
  pose proof (SetString_numeral h z (form (h x) =? nzero) [48] None None) as Hset.
  cbv zeta in Hset.
  destruct Hset as (h' & Hset & Hmag & Hscale & Hform & _ & Hframe);
    try discriminate; try reflexivity.
  { change (len (@nil Z)) with 0. unfold MinInt32, MaxInt32. lia. }
  assert (Hx : h' x = h x) by (apply Hframe; congruence).
  assert (Hfz : form (h' z) = form (h x)).
  { rewrite Hform. destruct Hf as [Hf|Hf]; rewrite Hf; reflexivity. }
  exists h'. rewrite Es.
  split; [exact Hstr|]. split; [exact Hset|]. split; [exact Hx|]. split; [exact Hfz|].
  apply Cmp_zeros; [exact Hzx | rewrite Hfz; exact Hf | rewrite Hx; exact Hf].
Qed.

Lemma String_SetString_zero_witness :
  let h := heap3 Big0 (special nzero) Big0 in
  let s := if form (h 1%nat) =? nzero then bytes "-0" else bytes "0" in
  exists h',
    String_ 1%nat h = Ok s h /\
    SetString 0%nat s h = Ok (0%nat, true) h' /\
    h' 1%nat = h 1%nat /\
    form (h' 0%nat) = form (h 1%nat) /\
    Cmp 0%nat 1%nat h' = Ok 0 h'.
Proof.
  intros h.
  apply (String_SetString_zero h 0%nat 1%nat).
  - discriminate.
  - right. reflexivity.
  - left. reflexivity.
Defined.

(** ** Cmp orders the finite values *)

Lemma cmpInt_sgn (a b : Z) : cmpInt a b = Z.sgn (a - b).
Proof.
  unfold cmpInt. destruct (Z.ltb_spec b a); [lia|].
  destruct (Z.ltb_spec a b); lia.
Qed.

Lemma cmpInt_by_mag (c u c' u' : Z) :
  (if negb (c =? Inflated) then
     if negb (c' =? Inflated) then cmpInt c c' else cmpInt c u'
   else if negb (c' =? Inflated) then cmpInt u c' else cmpInt u u')
  = cmpInt (if negb (c =? Inflated) then c else u)
           (if negb (c' =? Inflated) then c' else u').
Proof. destruct (negb (c =? Inflated)), (negb (c' =? Inflated)); reflexivity. Qed.

Lemma scaled_lt (a b sa sb : Z) :
  0 < a -> 0 < b ->
  len (utoa a) - sa < len (utoa b) - sb ->
  a * 10 ^ (Z.max sa sb - sa) < b * 10 ^ (Z.max sa sb - sb).
Proof.
  intros Ha Hb Hl.
  destruct (utoa_spec a ltac:(lia)) as (_ & _ & Hla & Hua & _).
  destruct (utoa_spec b ltac:(lia)) as (_ & _ & Hlb & _ & Hlbb).
  specialize (Hlbb Hb).
  set (S := Z.max sa sb) in *.
  assert (HS : sa <= S /\ sb <= S) by (unfold S; lia).
  assert (H1 : a * 10 ^ (S - sa) < 10 ^ (len (utoa a) + (S - sa))).
  { rewrite Z.pow_add_r by lia.
    apply Z.mul_lt_mono_pos_r; [apply Z.pow_pos_nonneg; lia | exact Hua]. }
  assert (H2 : 10 ^ (len (utoa b) - 1 + (S - sb)) <= b * 10 ^ (S - sb)).
  { rewrite Z.pow_add_r by lia.
    apply Z.mul_le_mono_nonneg_r; [apply Z.pow_nonneg; lia | exact Hlbb]. }
  pose proof (pow10_le (len (utoa a) + (S - sa)) (len (utoa b) - 1 + (S - sb))
                ltac:(lia)).
  lia.
Qed.

Lemma number_form_valid (f : Z) :
  number_form f -> valid_form f /\ isNaN f = false.
Proof.
  unfold number_form, valid_form. intros [H|[H|H]]; subst f; split; auto 8.
Qed.

Lemma Sign_coef (b : Big) : number_form (form b) -> Sign_ b = Z.sgn (coef b).
Proof.
  unfold coef. intros [Hf|[Hf|Hf]].
  - rewrite (Sign_finite _ Hf), Hf. reflexivity.
  - rewrite (Sign_zero b) by auto. rewrite Hf. reflexivity.
  - rewrite (Sign_zero b) by auto. rewrite Hf. reflexivity.
Qed.

Lemma coef_nonzero_finite (b : Big) : coef b <> 0 -> form b = finite /\ coef b = mag b.
Proof.
  unfold coef. destruct (Z.eqb_spec (form b) finite) as [E|E]; [auto | congruence].
Qed.

Lemma sgn_scaled (a k : Z) : 0 <= k -> Z.sgn (a * 10 ^ k) = Z.sgn a.
Proof.
  intros Hk. assert (0 < 10 ^ k) by (apply Z.pow_pos_nonneg; lia).
  rewrite Z.sgn_mul, (Z.sgn_pos (10 ^ k)) by lia. lia.
Qed.

Lemma sgn_diff_by_abs (A B : Z) :
  Z.sgn A = Z.sgn B -> Z.sgn A <> 0 ->
  (Z.abs A < Z.abs B -> Z.sgn (A - B) = - Z.sgn A) /\
  (Z.abs B < Z.abs A -> Z.sgn (A - B) = Z.sgn A).
Proof. lia. Qed.

Lemma abs_scaled (a k : Z) : 0 <= k -> Z.abs (a * 10 ^ k) = Z.abs a * 10 ^ k.
Proof.
  intros Hk. assert (0 < 10 ^ k) by (apply Z.pow_pos_nonneg; lia).
  rewrite Z.abs_mul, (Z.abs_eq (10 ^ k)) by lia. reflexivity.
Qed.

Lemma Cmp_numbers_sgn (h : heap) (z x : ptr) :
  z <> x ->
  number_form (form (h z)) -> number_form (form (h x)) ->
  - MaxInt32 <= scale (h z) - scale (h x) <= MaxInt32 ->
  Cmp z x h =
    Ok (Z.sgn (coef (h z) * 10 ^ (Z.max (scale (h z)) (scale (h x)) - scale (h z))
               - coef (h x) * 10 ^ (Z.max (scale (h z)) (scale (h x)) - scale (h x)))) h.
Proof.
  intros Hzx Nz Nx Hd.
  destruct (number_form_valid _ Nz) as [Vz NNz].
  destruct (number_form_valid _ Nx) as [Vx NNx].
  pose proof (Sign_coef _ Nz) as HSz. pose proof (Sign_coef _ Nx) as HSx.
  set (S := Z.max (scale (h z)) (scale (h x))) in *.
  assert (HS : scale (h z) <= S /\ scale (h x) <= S) by (unfold S; lia).
  set (A := coef (h z) * 10 ^ (S - scale (h z))).
  set (B := coef (h x) * 10 ^ (S - scale (h x))).
  assert (HsA : Z.sgn A = Z.sgn (coef (h z))) by (apply sgn_scaled; lia).
  assert (HsB : Z.sgn B = Z.sgn (coef (h x))) by (apply sgn_scaled; lia).
  unfold Cmp. destruct (Nat.eqb_spec z x) as [|_]; [contradiction|].
  run. rewrite (checkNaNs_none _ _ _ _ _ Vz Vx NNz NNx). run.
  rewrite HSz, HSx.
  destruct (Z.ltb_spec (Z.sgn (coef (h x))) (Z.sgn (coef (h z)))) as [L1|L1].
  { f_equal. lia. }
  destruct (Z.ltb_spec (Z.sgn (coef (h z))) (Z.sgn (coef (h x)))) as [L2|L2].
  { f_equal. lia. }
  assert (Hsg : Z.sgn (coef (h z)) = Z.sgn (coef (h x))) by lia.
  destruct (Z.eqb_spec (Z.sgn (coef (h z))) 0) as [Z0|Z0].
  { rewrite <- Hsg, Z0. cbn [Z.eqb andb]. f_equal. lia. }
  cbn [andb].
  assert (Cz : coef (h z) <> 0) by lia. assert (Cx : coef (h x) <> 0) by lia.
  destruct (coef_nonzero_finite _ Cz) as [Fz Mz].
  destruct (coef_nonzero_finite _ Cx) as [Fx Mx].
  assert (Hmz : mag (h z) = if negb (compact (h z) =? Inflated)
                            then compact (h z) else unscaled (h z)) by reflexivity.
  assert (Hmx : mag (h x) = if negb (compact (h x) =? Inflated)
                            then compact (h x) else unscaled (h x)) by reflexivity.
  destruct (Z.eqb_spec (scale (h z)) (scale (h x))) as [Es|Es].
  - (* equal scales: the magnitudes are compared as they are *)
    assert (HA : A = mag (h z)).
    { unfold A. rewrite Mz. replace (S - scale (h z)) with 0 by lia. cbn. lia. }
    assert (HB : B = mag (h x)).
    { unfold B. rewrite Mx. replace (S - scale (h x)) with 0 by lia. cbn. lia. }
    rewrite HA, HB, Hmz, Hmx, <- cmpInt_sgn.
    destruct (compact (h z) =? Inflated), (compact (h x) =? Inflated); reflexivity.
  - rewrite (Precision_finite _ Fz), (Precision_finite _ Fx), !arith_Length_utoa.
    assert (Haz : 0 < Z.abs (mag (h z))) by lia.
    assert (Hax : 0 < Z.abs (mag (h x))) by lia.
    assert (HabsA : Z.abs A = Z.abs (mag (h z)) * 10 ^ (S - scale (h z))).
    { unfold A. rewrite Mz. apply abs_scaled. lia. }
    assert (HabsB : Z.abs B = Z.abs (mag (h x)) * 10 ^ (S - scale (h x))).
    { unfold B. rewrite Mx. apply abs_scaled. lia. }
    destruct (sgn_diff_by_abs A B ltac:(lia) ltac:(lia)) as [Hlt Hgt].
    destruct (Z.ltb_spec (len (utoa (Z.abs (mag (h z)))) - scale (h z))
                         (len (utoa (Z.abs (mag (h x)))) - scale (h x))) as [Lz|Lz].
    { (* z has fewer integral digits *)
      f_equal. rewrite Hlt; [now rewrite HsA|]. rewrite HabsA, HabsB.
      apply scaled_lt; assumption. }
    destruct (Z.ltb_spec (len (utoa (Z.abs (mag (h x)))) - scale (h x))
                         (len (utoa (Z.abs (mag (h z)))) - scale (h z))) as [Lx|Lx].
    { f_equal. rewrite Hgt; [now rewrite HsA|]. rewrite HabsA, HabsB.
      unfold S. rewrite Z.max_comm. apply scaled_lt; assumption. }
    clear HSz HSx HsA HsB L1 L2 Hsg Z0 Cz Cx Haz Hax HabsA HabsB Hlt Hgt Lz Lx.
    change debug with false. cbn [andb]. cbv beta iota.
    unfold checked_Sub32. cbn [fst snd].
    unfold checked_MulPow10, checked_MulBigPow10, rdb, bind, ret.
    rewrite cmpInt_by_mag || idtac.
    destruct (Z.ltb_spec (scale (h z)) (scale (h x))) as [Lt|Ge].
    + (* z has the lower scale and is inflated *)
      set (d := scale (h x) - scale (h z)) in *.
      rewrite (int32_id d) by (unfold MinInt32, d; lia).
      destruct (Z.leb_spec d 0) as [|_]; [unfold d in *; lia|]. cbv beta iota.
      assert (HA : A = mag (h z) * 10 ^ d).
      { unfold A, d. rewrite Mz. f_equal. f_equal. lia. }
      assert (HB : B = mag (h x)).
      { unfold B. rewrite Mx. replace (S - scale (h x)) with 0 by lia. cbn. lia. }
      assert (Hni : forall v, (v * 10 ^ d =? Inflated) = false).
      { intros v. apply Z.eqb_neq. rewrite <- (Z2Nat.id d) by lia.
        apply shifted_not_Inflated. lia. }
      rewrite HA, HB, Hmz, Hmx, <- cmpInt_sgn.
      destruct (Z.eqb_spec (compact (h z)) Inflated) as [Ez|Ez]; cbn [negb].
      * cbn [fst snd]. rewrite Ez, Z.eqb_refl. cbn [negb].
        destruct (compact (h x) =? Inflated); reflexivity.
      * destruct (fits64 (compact (h z) * 10 ^ d)); cbn [fst snd negb].
        -- rewrite Hni. cbn [negb].
           destruct (compact (h x) =? Inflated); reflexivity.
        -- rewrite Z.eqb_refl. cbn [negb].
           destruct (compact (h x) =? Inflated); reflexivity.
    + (* x has the lower scale and is inflated *)
      set (d := scale (h z) - scale (h x)) in *.
      rewrite (int32_id d) by (unfold MinInt32, d; lia).
      destruct (Z.leb_spec d 0) as [|_]; [unfold d in *; lia|]. cbv beta iota.
      assert (HA : A = mag (h z)).
      { unfold A. rewrite Mz. replace (S - scale (h z)) with 0 by lia. cbn. lia. }
      assert (HB : B = mag (h x) * 10 ^ d).
      { unfold B, d. rewrite Mx. f_equal. f_equal. lia. }
      assert (Hni : forall v, (v * 10 ^ d =? Inflated) = false).
      { intros v. apply Z.eqb_neq. rewrite <- (Z2Nat.id d) by lia.
        apply shifted_not_Inflated. lia. }
      rewrite HA, HB, Hmz, Hmx, <- cmpInt_sgn.
      destruct (Z.eqb_spec (compact (h x)) Inflated) as [Ex|Ex]; cbn [negb].
      * cbn [fst snd]. rewrite Ex, Z.eqb_refl. cbn [negb].
        destruct (compact (h z) =? Inflated); reflexivity.
      * destruct (fits64 (compact (h x) * 10 ^ d)); cbn [fst snd negb].
        -- rewrite Hni. cbn [negb].
           destruct (compact (h z) =? Inflated); reflexivity.
        -- rewrite Z.eqb_refl. cbn [negb].
           destruct (compact (h z) =? Inflated); reflexivity.
Qed.

(** Cmp on two distinct Bigs that hold numbers (finite or zero) whose scales
    are at most MaxInt32 apart: the answer is the sign of the difference of
    the two coefficients brought to the larger scale, and nothing is
    written. *)
Theorem Cmp_orders_numbers (h : heap) (z x : ptr) :
  z <> x ->
  number_form (form (h z)) -> number_form (form (h x)) ->
  - MaxInt32 <= scale (h z) - scale (h x) <= MaxInt32 ->
  Cmp z x h =
    Ok (Z.sgn (coef (h z) * 10 ^ (Z.max (scale (h z)) (scale (h x)) - scale (h z))
               - coef (h x) * 10 ^ (Z.max (scale (h z)) (scale (h x)) - scale (h x)))) h.
Proof. exact (Cmp_numbers_sgn h z x). Qed.

Lemma Cmp_orders_numbers_witness :
  let h := heap3 (New 15 1) (New 2 0) Big0 in
  Cmp 0%nat 1%nat h =
    Ok (Z.sgn (coef (h 0%nat) * 10 ^ (Z.max (scale (h 0%nat)) (scale (h 1%nat)) - scale (h 0%nat))
               - coef (h 1%nat) * 10 ^ (Z.max (scale (h 0%nat)) (scale (h 1%nat)) - scale (h 1%nat)))) h.
Proof.
  intros h. apply (Cmp_orders_numbers h 0%nat 1%nat).
  - discriminate.
  - left. reflexivity.
  - left. reflexivity.
  - vm_compute. split; discriminate.
Defined.

(** Cmp is antisymmetric on numbers: swapping receiver and operand negates
    the answer. *)
Theorem Cmp_antisymmetric (h : heap) (z x : ptr) :
  z <> x ->
  number_form (form (h z)) -> number_form (form (h x)) ->
  - MaxInt32 <= scale (h z) - scale (h x) <= MaxInt32 ->
  exists r, Cmp z x h = Ok r h /\ Cmp x z h = Ok (- r) h.
Proof.
  intros Hzx Nz Nx Hd.
  rewrite (Cmp_numbers_sgn h z x Hzx Nz Nx Hd).
  rewrite (Cmp_numbers_sgn h x z) by (auto; lia).
  eexists. split; [reflexivity|]. f_equal.
  rewrite (Z.max_comm (scale (h x)) (scale (h z))). lia.
Qed.

Lemma Cmp_antisymmetric_witness :
  let h := heap3 (New 15 1) (New 2 0) Big0 in
  exists r, Cmp 0%nat 1%nat h = Ok r h /\ Cmp 1%nat 0%nat h = Ok (- r) h.
Proof.
  intros h. apply (Cmp_antisymmetric h 0%nat 1%nat).
  - discriminate.
  - left. reflexivity.
  - left. reflexivity.
  - vm_compute. split; discriminate.
Defined.

(** ** Exact addition *)

Lemma round_off (h : heap) (z : ptr) :
  OperatingMode (ctx (h z)) <> GDA \/ Context_Precision (ctx (h z)) = 0 ->
  round z h = Ok z h.
Proof.
  intros H. unfold round. run.
  destruct H as [H|H].
  - apply Z.eqb_neq in H. rewrite H, andb_false_r. reflexivity.
  - rewrite H. reflexivity.
Qed.

(** Two writes through one pointer: the later one stands. *)
Lemma upd_upd (h : heap) (p : ptr) (a b : Big) (q : ptr) :
  upd (upd h p a) p b q = upd h p b q.
Proof. unfold upd. destruct (Nat.eqb q p); reflexivity. Qed.

Lemma fits64_id (v : Z) : fits64 v = true -> int64 v = v.
Proof.
  unfold fits64. intros H. apply andb_true_iff in H. destruct H as [H1 H2].
  apply Z.leb_le in H1. apply Z.leb_le in H2. apply int64_id. lia.
Qed.

Ltac decide_inflated :=
  repeat match goal with
  | |- context [?v =? Inflated] =>
      first [ replace (v =? Inflated) with false by (symmetry; apply Z.eqb_neq; lia)
            | replace (v =? Inflated) with true by (symmetry; apply Z.eqb_eq; lia) ]
  end; cbn [negb].

Ltac exact_result Fz :=
  eexists; (split; [reflexivity|]); unfold coef, mag, isCompact_;
  run_with ltac:(rewrite ?upd_upd);
  rewrite ?Fz; cbn [Z.eqb Pos.eqb zero finite]; repeat split;
  try (intros; heap_simpl; reflexivity); decide_inflated; try lia; auto.

Ltac split_fits :=
  repeat match goal with
  | |- context [fits64 ?v] =>
      let F := fresh "F" in
      destruct (fits64 v) eqn:F; [rewrite ?(fits64_id _ F)|]; cbn [fst snd andb]
  end;
  try match goal with
  | |- context [Z.sgn ?v =? 0] => destruct (Z.eqb_spec (Z.sgn v) 0)
  end.

Lemma addCompact_exact (h : heap) (z x y : ptr) :
  form (h z) = finite ->
  isCompact_ (h x) = true -> isCompact_ (h y) = true ->
  - MaxInt32 <= scale (h x) - scale (h y) <= MaxInt32 ->
  let S := Z.max (scale (h x)) (scale (h y)) in
  let V := compact (h x) * 10 ^ (S - scale (h x)) + compact (h y) * 10 ^ (S - scale (h y)) in
  V <> Inflated ->
  exists h',
    addCompact z x y h = Ok z h' /\
    scale (h' z) = S /\ coef (h' z) = V /\
    (form (h' z) = finite \/ form (h' z) = zero) /\
    ctx (h' z) = ctx (h z) /\
    (forall p, p <> z -> h' p = h p).
Proof.
  intros Fz Cx Cy Hd S V HV.
  unfold addCompact, checked_Add, checked_MulPow10, checked_MulBigPow10.
  destruct (Z.eqb_spec (scale (h x)) (scale (h y))) as [E|E].
  - assert (HVe : V = compact (h x) + compact (h y)).
    { unfold V, S. rewrite E, Z.max_id, Z.sub_diag. cbn. lia. }
    run_with ltac:(rewrite ?E, ?Z.eqb_refl).
    destruct (fits64 (compact (h x) + compact (h y))) eqn:Hfit.
    + rewrite (fits64_id _ Hfit).
      destruct (Z.eqb_spec (compact (h x) + compact (h y)) 0) as [E0|E0];
        exact_result Fz.
    + destruct (Z.eqb_spec (Z.sgn (compact (h x) + compact (h y))) 0) as [E0|E0];
        exact_result Fz.
  - assert (E1 : (scale (h x) =? scale (h y)) = false) by (apply Z.eqb_neq; exact E).
    destruct (Z.ltb_spec (scale (h x)) (scale (h y))) as [L|L].
    + assert (L1 : (scale (h x) <? scale (h y)) = true) by (apply Z.ltb_lt; exact L).
      set (d := scale (h y) - scale (h x)) in *.
      assert (Hd32 : int32 d = d) by (apply int32_id; unfold MinInt32, d; lia).
      assert (Hd0 : (d <=? 0) = false) by (apply Z.leb_gt; unfold d; lia).
      assert (HVe : V = compact (h y) + compact (h x) * 10 ^ d).
      { unfold V, S, d. rewrite Z.max_r, Z.sub_diag by lia. cbn. lia. }
      run_with ltac:(rewrite ?E1, ?L1; fold d; rewrite ?Hd32, ?Hd0).
      split_fits; exact_result Fz.
    + assert (L1 : (scale (h x) <? scale (h y)) = false) by (apply Z.ltb_ge; exact L).
      set (d := scale (h x) - scale (h y)) in *.
      assert (Hd32 : int32 d = d) by (apply int32_id; unfold MinInt32, d; lia).
      assert (Hd0 : (d <=? 0) = false) by (apply Z.leb_gt; unfold d; lia).
      assert (HVe : V = compact (h x) + compact (h y) * 10 ^ d).
      { unfold V, S, d. rewrite Z.max_l, Z.sub_diag by lia. cbn. lia. }
      run_with ltac:(rewrite ?E1, ?L1; fold d; rewrite ?Hd32, ?Hd0).
      split_fits; exact_result Fz.
Qed.

Lemma addBig_exact (h : heap) (z x y : ptr) :
  form (h z) = finite ->
  - MaxInt32 <= scale (h x) - scale (h y) <= MaxInt32 ->
  let S := Z.max (scale (h x)) (scale (h y)) in
  let V := mag (h x) * 10 ^ (S - scale (h x)) + mag (h y) * 10 ^ (S - scale (h y)) in
  exists h',
    addBig z x y h = Ok z h' /\
    scale (h' z) = S /\ coef (h' z) = V /\
    (form (h' z) = finite \/ form (h' z) = zero) /\
    ctx (h' z) = ctx (h z) /\
    (forall p, p <> z -> h' p = h p).
Proof.
  intros Fz Hd S V.
  unfold addBig, bigOf, checked_MulBigPow10.
  destruct (Z.eqb_spec (scale (h x)) (scale (h y))) as [E|E].
  - assert (HVe : V = mag (h x) + mag (h y)).
    { unfold V, S. rewrite E, Z.max_id, Z.sub_diag. cbn. lia. }
    unfold mag in HVe.
    destruct (isCompact_ (h x)) eqn:Cx, (isCompact_ (h y)) eqn:Cy;
      run_with ltac:(rewrite ?upd_upd, ?Cx, ?Cy, ?E, ?Z.eqb_refl);
      split_fits; exact_result Fz.
  - assert (E1 : (scale (h x) =? scale (h y)) = false) by (apply Z.eqb_neq; exact E).
    destruct (Z.ltb_spec (scale (h x)) (scale (h y))) as [L|L].
    + assert (L1 : (scale (h x) <? scale (h y)) = true) by (apply Z.ltb_lt; exact L).
      set (d := scale (h y) - scale (h x)) in *.
      assert (Hd32 : int32 d = d) by (apply int32_id; unfold MinInt32, d; lia).
      assert (Hd0 : (d <=? 0) = false) by (apply Z.leb_gt; unfold d; lia).
      assert (HVe : V = mag (h y) + mag (h x) * 10 ^ d).
      { unfold V, S, d. rewrite Z.max_r, Z.sub_diag by lia. cbn. lia. }
      unfold mag in HVe.
      destruct (isCompact_ (h x)) eqn:Cx, (isCompact_ (h y)) eqn:Cy;
        run_with ltac:(rewrite ?upd_upd, ?Cx, ?Cy, ?E1, ?L1; fold d; rewrite ?Hd32, ?Hd0);
        split_fits; exact_result Fz.
    + assert (L1 : (scale (h x) <? scale (h y)) = false) by (apply Z.ltb_ge; exact L).
      set (d := scale (h x) - scale (h y)) in *.
      assert (Hd32 : int32 d = d) by (apply int32_id; unfold MinInt32, d; lia).
      assert (Hd0 : (d <=? 0) = false) by (apply Z.leb_gt; unfold d; lia).
      assert (HVe : V = mag (h x) + mag (h y) * 10 ^ d).
      { unfold V, S, d. rewrite Z.max_l, Z.sub_diag by lia. cbn. lia. }
      unfold mag in HVe.
      destruct (isCompact_ (h x)) eqn:Cx, (isCompact_ (h y)) eqn:Cy;
        run_with ltac:(rewrite ?upd_upd, ?Cx, ?Cy, ?E1, ?L1; fold d; rewrite ?Hd32, ?Hd0);
        split_fits; exact_result Fz.
Qed.

(** Add on two finite operands, when the receiver does not round (its mode
    is not GDA, or its precision is unlimited): for every aliasing of z, x
    and y the receiver ends with the larger of the two scales and the exact
    sum of the two coefficients brought to that scale; its Context and every
    other Big are left alone.  The scales are at most MaxInt32 apart and the
    sum is not -2^63, the value that marks an inflated Big. *)
Theorem Add_exact (h : heap) (z x y : ptr) :
  form (h x) = finite -> form (h y) = finite ->
  OperatingMode (ctx (h z)) <> GDA \/ Context_Precision (ctx (h z)) = 0 ->
  - MaxInt32 <= scale (h x) - scale (h y) <= MaxInt32 ->
  let S := Z.max (scale (h x)) (scale (h y)) in
  let V := mag (h x) * 10 ^ (S - scale (h x)) + mag (h y) * 10 ^ (S - scale (h y)) in
  V <> Inflated ->
  exists h',
    Add z x y h = Ok z h' /\
    scale (h' z) = S /\ coef (h' z) = V /\
    (form (h' z) = finite \/ form (h' z) = zero) /\
    ctx (h' z) = ctx (h z) /\
    (forall p, p <> z -> h' p = h p).
Proof.
  intros Fx Fy Hr Hd S V HV.
  set (h1 := upd h z (with_form (h z) finite)).
  assert (F1 : form (h1 z) = finite) by (unfold h1; now rewrite upd_same).
  assert (Hsc : forall p, scale (h1 p) = scale (h p))
    by (intros; unfold h1; now rewrite (upd_keep scale)).
  assert (Hco : forall p, compact (h1 p) = compact (h p))
    by (intros; unfold h1; now rewrite (upd_keep compact)).
  assert (Hun : forall p, unscaled (h1 p) = unscaled (h p))
    by (intros; unfold h1; now rewrite (upd_keep unscaled)).
  assert (Hic : forall p, isCompact_ (h1 p) = isCompact_ (h p))
    by (intros; unfold h1; now rewrite (upd_keep isCompact_)).
  assert (Hmg : forall p, mag (h1 p) = mag (h p))
    by (intros; unfold mag; now rewrite Hic, Hco, Hun).
  assert (Hcx : ctx (h1 z) = ctx (h z)) by (unfold h1; now rewrite (upd_keep ctx)).
  assert (Hfr : forall p, p <> z -> h1 p = h p)
    by (intros; unfold h1; now rewrite upd_other).
  assert (Hgoal : forall h2,
    scale (h2 z) = S /\ coef (h2 z) = V /\
    (form (h2 z) = finite \/ form (h2 z) = zero) /\
    ctx (h2 z) = ctx (h1 z) /\ (forall p, p <> z -> h2 p = h1 p) ->
    round z h2 = Ok z h2 /\
    scale (h2 z) = S /\ coef (h2 z) = V /\
    (form (h2 z) = finite \/ form (h2 z) = zero) /\
    ctx (h2 z) = ctx (h z) /\ (forall p, p <> z -> h2 p = h p)).
  { intros h2 (A & B & C & D & E). split; [apply round_off; now rewrite D, Hcx|].
    repeat split; auto; try congruence. intros p Hp. now rewrite E, Hfr. }
  unfold Add. run_with ltac:(rewrite ?Fx, ?Fy). fold h1.
  destruct (isCompact_ (h x) && isCompact_ (h y)) eqn:Cxy.
  - apply andb_true_iff in Cxy. destruct Cxy as [Cx Cy].
    destruct (addCompact_exact h1 z x y F1) as (h2 & E2 & R2);
      rewrite ?Hic, ?Hsc, ?Hco; auto.
    { unfold V, mag in HV. rewrite Cx, Cy in HV. exact HV. }
    rewrite !Hsc, !Hco in R2. destruct R2 as (A & B & C).
    assert (B' : coef (h2 z) = V).
    { rewrite B. unfold V, S, mag. now rewrite Cx, Cy. }
    destruct (Hgoal h2 (conj A (conj B' C))) as (Rr & R3).
    exists h2. rewrite E2, Rr. auto.
  - destruct (addBig_exact h1 z x y F1) as (h2 & E2 & R2); rewrite ?Hsc; auto.
    rewrite !Hsc, !Hmg in R2.
    destruct (Hgoal h2 R2) as (Rr & R3).
    exists h2. rewrite E2, Rr. auto.
Qed.

Lemma Add_exact_witness :
  let h := heap3 Big0 (New 15 1) (New (-2) 0) in
  exists h',
    Add 0%nat 1%nat 2%nat h = Ok 0%nat h' /\
    scale (h' 0%nat) = 1 /\ coef (h' 0%nat) = -5 /\
    (form (h' 0%nat) = finite \/ form (h' 0%nat) = zero) /\
    ctx (h' 0%nat) = ctx (h 0%nat) /\
    (forall p, p <> 0%nat -> h' p = h p).
Proof.
  intros h. apply (Add_exact h 0%nat 1%nat 2%nat).
  - reflexivity.
  - reflexivity.
  - left. discriminate.
  - vm_compute. split; discriminate.
  - vm_compute. discriminate.
Defined.

(** Heap reads with repeated writes through one pointer collapsed first. *)
Ltac heap_norm :=
  repeat first
    [ rewrite upd_upd
    | rewrite upd_same
    | rewrite (upd_keep compact) by reflexivity
    | rewrite (upd_keep scale) by reflexivity
    | rewrite (upd_keep form) by reflexivity
    | rewrite (upd_keep unscaled) by reflexivity
    | rewrite (upd_keep ctx) by reflexivity
    | rewrite (upd_keep isCompact_) by reflexivity
    | rewrite upd_other by congruence ].

Ltac exec_with tac :=
  repeat first
    [ progress unfold bind, ret, rd, rdc, wr, wrc, set_form, set_compact,
        set_scale, set_unscaled, panic, rdb, isCompact, isInflated,
        Precision, Sign, Signbit
    | progress cbv beta iota zeta
    | progress cbn [fst snd ctx unscaled compact scale form with_ctx
        with_unscaled with_compact with_scale with_form OperatingMode
        precision Traps Conditions Err RoundingMode with_precision
        with_Conditions with_Err]
    | progress tac
    | progress heap_norm
    | closed_if ].

Ltac exec := exec_with idtac.

(** ** Exact multiplication *)

Lemma fits32_true (v : Z) : MinInt32 <= v <= MaxInt32 -> fits32 v = true.
Proof.
  intros H. unfold fits32. apply andb_true_iff. split; apply Z.leb_le; lia.
Qed.

(** Mul on two finite operands, when the receiver does not round: for every
    aliasing of z, x and y the receiver ends finite with the sum of the two
    scales and the exact product of the two coefficients; its Context and
    every other Big are left alone.  The sum of the scales is an int32 and
    the product is not -2^63, the value that marks an inflated Big. *)
Theorem Mul_exact (h : heap) (z x y : ptr) :
  form (h x) = finite -> form (h y) = finite ->
  OperatingMode (ctx (h z)) <> GDA \/ Context_Precision (ctx (h z)) = 0 ->
  MinInt32 <= scale (h x) + scale (h y) <= MaxInt32 ->
  mag (h x) * mag (h y) <> Inflated ->
  exists h',
    Mul z x y h = Ok z h' /\
    scale (h' z) = scale (h x) + scale (h y) /\
    mag (h' z) = mag (h x) * mag (h y) /\
    form (h' z) = finite /\
    ctx (h' z) = ctx (h z) /\
    (forall p, p <> z -> h' p = h p).
Proof.
  intros Fx Fy Hr Hs HV.
  pose proof (fits32_true _ Hs) as Hfit.
  pose proof (int32_id _ Hs) as Hid.
  assert (Hc : forall b, isCompact_ (with_form b finite) = isCompact_ b) by reflexivity.
  unfold Mul, mulCompact, mulBig, bigOf, checked_Add32, checked_Mul.
  unfold mag in *.
  destruct (isCompact_ (h x)) eqn:Cx, (isCompact_ (h y)) eqn:Cy;
    exec_with ltac:(rewrite ?Fx, ?Fy, ?Hc, ?Cx, ?Cy, ?Hfit, ?Hid);
    split_fits;
    exec;
    (rewrite round_off by (exec; exact Hr));
    eexists; (split; [reflexivity|]); unfold isCompact_;
    exec;
    repeat split; try (intros; heap_norm; reflexivity); decide_inflated; try lia; auto.
Qed.

Lemma Mul_exact_witness :
  let h := heap3 Big0 (New 15 1) (New (-2) 3) in
  exists h',
    Mul 0%nat 1%nat 2%nat h = Ok 0%nat h' /\
    scale (h' 0%nat) = scale (h 1%nat) + scale (h 2%nat) /\
    mag (h' 0%nat) = mag (h 1%nat) * mag (h 2%nat) /\
    form (h' 0%nat) = finite /\
    ctx (h' 0%nat) = ctx (h 0%nat) /\
    (forall p, p <> 0%nat -> h' p = h p).
Proof.
  intros h. apply (Mul_exact h 0%nat 1%nat 2%nat).
  - reflexivity.
  - reflexivity.
  - left. discriminate.
  - vm_compute. split; discriminate.
  - vm_compute. discriminate.
Defined.

(** ** Exact subtraction *)

Ltac not_the_inflated :=
  repeat match goal with
  | Hc : isCompact_ (?h ?p) = true, Cx : isCompact_ (?h ?x) = false |- _ =>
      lazymatch goal with
      | _ : p <> x |- _ => fail
      | _ => assert (p <> x) by (intros ->; congruence)
      end
  end.

Ltac frame_tac := intros; not_the_inflated; heap_norm; reflexivity.

Ltac exact_res Fz :=
  eexists; (split; [reflexivity|]); unfold coef, mag; exec;
  repeat split; try frame_tac; unfold isCompact_; exec;
  rewrite ?Fz; cbn [Z.eqb Pos.eqb zero finite]; decide_inflated; try lia; auto.

Lemma subBig_exact (h : heap) (z x y : ptr) :
  z <> x -> z <> y ->
  form (h z) = finite ->
  - MaxInt32 <= scale (h x) - scale (h y) <= MaxInt32 ->
  let S := Z.max (scale (h x)) (scale (h y)) in
  let V := mag (h x) * 10 ^ (S - scale (h x)) - mag (h y) * 10 ^ (S - scale (h y)) in
  exists h',
    subBig z x y h = Ok z h' /\
    scale (h' z) = S /\ coef (h' z) = V /\
    (form (h' z) = finite \/ form (h' z) = zero) /\
    ctx (h' z) = ctx (h z) /\
    (forall p, p <> z -> p <> x -> p <> y -> h' p = h p) /\
    (forall p, p <> z -> isCompact_ (h p) = true -> h' p = h p).
Proof.
  intros Hzx Hzy Fz Hd S V.
  unfold subBig, bigOf, checked_MulBigPow10.
  destruct (Z.eqb_spec (scale (h x)) (scale (h y))) as [E|E].
  - assert (HVe : V = mag (h x) - mag (h y)).
    { unfold V, S. rewrite E, Z.max_id, Z.sub_diag. cbn. lia. }
    unfold mag in HVe.
    destruct (isCompact_ (h x)) eqn:Cx, (isCompact_ (h y)) eqn:Cy;
      exec_with ltac:(rewrite ?Cx, ?Cy, ?E, ?Z.eqb_refl);
      split_fits; exact_res Fz.
  - assert (E1 : (scale (h x) =? scale (h y)) = false) by (apply Z.eqb_neq; exact E).
    destruct (Z.ltb_spec (scale (h x)) (scale (h y))) as [L|L].
    + assert (L1 : (scale (h x) <? scale (h y)) = true) by (apply Z.ltb_lt; exact L).
      set (d := scale (h y) - scale (h x)) in *.
      assert (Hd32 : int32 d = d) by (apply int32_id; unfold MinInt32, d; lia).
      assert (Hd0 : (d <=? 0) = false) by (apply Z.leb_gt; unfold d; lia).
      assert (HVe : V = mag (h x) * 10 ^ d - mag (h y)).
      { unfold V, S, d. rewrite Z.max_r, Z.sub_diag by lia. cbn. lia. }
      unfold mag in HVe.
      destruct (isCompact_ (h x)) eqn:Cx, (isCompact_ (h y)) eqn:Cy;
        exec_with ltac:(rewrite ?Cx, ?Cy, ?E1, ?L1; fold d; rewrite ?Hd32, ?Hd0);
        split_fits; exact_res Fz.
    + assert (L1 : (scale (h x) <? scale (h y)) = false) by (apply Z.ltb_ge; exact L).
      set (d := scale (h x) - scale (h y)) in *.
      assert (Hd32 : int32 d = d) by (apply int32_id; unfold MinInt32, d; lia).
      assert (Hd0 : (d <=? 0) = false) by (apply Z.leb_gt; unfold d; lia).
      assert (HVe : V = mag (h x) - mag (h y) * 10 ^ d).
      { unfold V, S, d. rewrite Z.max_l, Z.sub_diag by lia. cbn. lia. }
      unfold mag in HVe.
      destruct (isCompact_ (h x)) eqn:Cx, (isCompact_ (h y)) eqn:Cy;
        exec_with ltac:(rewrite ?Cx, ?Cy, ?E1, ?L1; fold d; rewrite ?Hd32, ?Hd0);
        split_fits; exact_res Fz.
Qed.

Lemma subCompact_exact (h : heap) (z x y : ptr) :
  z <> x -> z <> y ->
  form (h z) = finite ->
  isCompact_ (h x) = true -> isCompact_ (h y) = true ->
  - MaxInt32 <= scale (h x) - scale (h y) <= MaxInt32 ->
  let S := Z.max (scale (h x)) (scale (h y)) in
  let V := mag (h x) * 10 ^ (S - scale (h x)) - mag (h y) * 10 ^ (S - scale (h y)) in
  V <> Inflated ->
  exists h',
    subCompact z x y h = Ok z h' /\
    scale (h' z) = S /\ coef (h' z) = V /\
    (form (h' z) = finite \/ form (h' z) = zero) /\
    ctx (h' z) = ctx (h z) /\
    (forall p, p <> z -> h' p = h p).
Proof.
  intros Hzx Hzy Fz Cx Cy Hd S V HV.
  (* the fallback: subBig on a heap that differs from [h] in z only *)
  assert (Hbig : forall h1,
    form (h1 z) = finite -> ctx (h1 z) = ctx (h z) ->
    (forall p, p <> z -> h1 p = h p) ->
    exists h', subBig z x y h1 = Ok z h' /\
      scale (h' z) = S /\ coef (h' z) = V /\
      (form (h' z) = finite \/ form (h' z) = zero) /\
      ctx (h' z) = ctx (h z) /\ (forall p, p <> z -> h' p = h p)).
  { intros h1 F1 K1 O1.
    assert (Ex : h1 x = h x) by (apply O1; congruence).
    assert (Ey : h1 y = h y) by (apply O1; congruence).
    destruct (subBig_exact h1 z x y Hzx Hzy F1) as (h' & E' & A & B & C & D & F & G).
    { now rewrite Ex, Ey. }
    rewrite Ex, Ey in A, B. exists h'. split; [exact E'|].
    split; [exact A|]. split; [exact B|]. split; [exact C|].
    split; [congruence|].
    intros p Hp. destruct (Nat.eq_dec p x) as [->|Hpx].
    { rewrite G; auto. now rewrite Ex. }
    destruct (Nat.eq_dec p y) as [->|Hpy].
    { rewrite G; auto. now rewrite Ey. }
    rewrite <- (O1 p Hp). apply F; auto. }
  assert (Hmx : mag (h x) = compact (h x)) by (unfold mag; now rewrite Cx).
  assert (Hmy : mag (h y) = compact (h y)) by (unfold mag; now rewrite Cy).
  unfold subCompact, checked_MulPow10, checked_Sub.
  destruct (Z.eqb_spec (scale (h x)) (scale (h y))) as [E|E].
  - assert (HVe : V = compact (h x) - compact (h y)).
    { unfold V, S. rewrite E, Z.max_id, Z.sub_diag, Hmx, Hmy. cbn. lia. }
    exec_with ltac:(rewrite ?E, ?Z.eqb_refl).
    destruct (fits64 (compact (h x) - compact (h y))) eqn:Hfit.
    + rewrite (fits64_id _ Hfit).
      destruct (Z.eqb_spec (compact (h x) - compact (h y)) 0) as [E0|E0];
        exact_res Fz.
    + apply Hbig; [now exec | now exec | intros; now heap_norm].
  - assert (E1 : (scale (h x) =? scale (h y)) = false) by (apply Z.eqb_neq; exact E).
    destruct (Z.ltb_spec (scale (h x)) (scale (h y))) as [L|L].
    + assert (L1 : (scale (h x) <? scale (h y)) = true) by (apply Z.ltb_lt; exact L).
      set (d := scale (h y) - scale (h x)) in *.
      assert (Hd32 : int32 d = d) by (apply int32_id; unfold MinInt32, d; lia).
      assert (Hd0 : (d <=? 0) = false) by (apply Z.leb_gt; unfold d; lia).
      assert (HVe : V = compact (h x) * 10 ^ d - compact (h y)).
      { unfold V, S, d. rewrite Z.max_r, Z.sub_diag, Hmx, Hmy by lia. cbn. lia. }
      exec_with ltac:(rewrite ?E1, ?L1; fold d; rewrite ?Hd32, ?Hd0).
      destruct (fits64 (compact (h x) * 10 ^ d)) eqn:F1; cbn [fst snd negb]; exec.
      * destruct (fits64 (compact (h x) * 10 ^ d - compact (h y))) eqn:F2.
        -- rewrite (fits64_id _ F2).
           destruct (Z.eqb_spec (compact (h x) * 10 ^ d - compact (h y)) 0) as [E0|E0];
             exact_res Fz.
        -- apply Hbig; [now exec | now exec | intros; now heap_norm].
      * apply Hbig; [exact Fz | reflexivity | reflexivity].
    + assert (L1 : (scale (h x) <? scale (h y)) = false) by (apply Z.ltb_ge; exact L).
      set (d := scale (h x) - scale (h y)) in *.
      assert (Hd32 : int32 d = d) by (apply int32_id; unfold MinInt32, d; lia).
      assert (Hd0 : (d <=? 0) = false) by (apply Z.leb_gt; unfold d; lia).
      assert (HVe : V = compact (h x) - compact (h y) * 10 ^ d).
      { unfold V, S, d. rewrite Z.max_l, Z.sub_diag, Hmx, Hmy by lia. cbn. lia. }
      exec_with ltac:(rewrite ?E1, ?L1; fold d; rewrite ?Hd32, ?Hd0).
      destruct (fits64 (compact (h y) * 10 ^ d)) eqn:F1; cbn [fst snd negb]; exec.
      * destruct (fits64 (compact (h x) - compact (h y) * 10 ^ d)) eqn:F2.
        -- rewrite (fits64_id _ F2).
           destruct (Z.eqb_spec (compact (h x) - compact (h y) * 10 ^ d) 0) as [E0|E0];
             exact_res Fz.
        -- apply Hbig; [now exec | now exec | intros; now heap_norm].
      * apply Hbig; [exact Fz | reflexivity | reflexivity].
Qed.

(** Sub on two finite operands into a receiver distinct from both, when the
    receiver does not round: z ends with the larger of the two scales and
    the exact difference of the two coefficients brought to that scale; its
    Context, every compact Big and every Big that is not an operand are
    left alone.  The scales are at most MaxInt32 apart and the difference is
    not -2^63, the value that marks an inflated Big. *)
Theorem Sub_exact (h : heap) (z x y : ptr) :
  z <> x -> z <> y ->
  form (h x) = finite -> form (h y) = finite ->
  OperatingMode (ctx (h z)) <> GDA \/ Context_Precision (ctx (h z)) = 0 ->
  - MaxInt32 <= scale (h x) - scale (h y) <= MaxInt32 ->
  let S := Z.max (scale (h x)) (scale (h y)) in
  let V := mag (h x) * 10 ^ (S - scale (h x)) - mag (h y) * 10 ^ (S - scale (h y)) in
  V <> Inflated ->
  exists h',
    Sub z x y h = Ok z h' /\
    scale (h' z) = S /\ coef (h' z) = V /\
    (form (h' z) = finite \/ form (h' z) = zero) /\
    ctx (h' z) = ctx (h z) /\
    (forall p, p <> z -> p <> x -> p <> y -> h' p = h p) /\
    (forall p, p <> z -> isCompact_ (h p) = true -> h' p = h p).
Proof.
  intros Hzx Hzy Fx Fy Hr Hd S V HV.
  set (h1 := upd h z (with_form (h z) finite)).
  assert (F1 : form (h1 z) = finite) by (unfold h1; now rewrite upd_same).
  assert (Hfr : forall p, p <> z -> h1 p = h p)
    by (intros; unfold h1; now rewrite upd_other).
  assert (Ex : h1 x = h x) by (apply Hfr; congruence).
  assert (Ey : h1 y = h y) by (apply Hfr; congruence).
  assert (Hcx : ctx (h1 z) = ctx (h z)) by (unfold h1; now rewrite (upd_keep ctx)).
  unfold Sub. exec_with ltac:(rewrite ?Fx, ?Fy). fold h1.
  destruct (isCompact_ (h x) && isCompact_ (h y)) eqn:Cxy.
  - apply andb_true_iff in Cxy. destruct Cxy as [Cx Cy].
    destruct (subCompact_exact h1 z x y Hzx Hzy F1) as (h2 & E2 & A & B & C & D & F);
      rewrite ?Ex, ?Ey; auto.
    rewrite Ex, Ey in A, B.
    exists h2. rewrite E2. rewrite round_off by (rewrite D, Hcx; exact Hr).
    split; [reflexivity|]. split; [exact A|]. split; [exact B|]. split; [exact C|].
    split; [congruence|].
    split; intros p Hp; intros; rewrite F by exact Hp; apply Hfr; exact Hp.
  - destruct (subBig_exact h1 z x y Hzx Hzy F1) as (h2 & E2 & A & B & C & D & F & G);
      rewrite ?Ex, ?Ey; auto.
    rewrite Ex, Ey in A, B.
    exists h2. rewrite E2. rewrite round_off by (rewrite D, Hcx; exact Hr).
    split; [reflexivity|]. split; [exact A|]. split; [exact B|]. split; [exact C|].
    split; [congruence|].
    split; intros p Hp; intros.
    + rewrite F by assumption. apply Hfr; exact Hp.
    + rewrite G; [apply Hfr; exact Hp | exact Hp | now rewrite Hfr].
Qed.

Lemma Sub_exact_witness :
  let h := heap3 Big0 (New 15 1) (New 2 0) in
  exists h',
    Sub 0%nat 1%nat 2%nat h = Ok 0%nat h' /\
    scale (h' 0%nat) = 1 /\ coef (h' 0%nat) = -5 /\
    (form (h' 0%nat) = finite \/ form (h' 0%nat) = zero) /\
    ctx (h' 0%nat) = ctx (h 0%nat) /\
    (forall p, p <> 0%nat -> p <> 1%nat -> p <> 2%nat -> h' p = h p) /\
    (forall p, p <> 0%nat -> isCompact_ (h p) = true -> h' p = h p).
Proof.
  intros h. apply (Sub_exact h 0%nat 1%nat 2%nat).
  - discriminate.
  - discriminate.
  - reflexivity.
  - reflexivity.
  - left. discriminate.
  - vm_compute. split; discriminate.
  - vm_compute. discriminate.
Defined.



(** ** Neg and Abs on numbers *)

Lemma int64_neg_compact (c : Z) :
  MinInt64 <= c <= MaxInt64 -> c <> Inflated ->
  int64 (- c) = - c /\ - c <> Inflated /\ MinInt64 <= - c <= MaxInt64.
Proof.
  unfold Inflated. intros H Hc.
  assert (R : MinInt64 <= - c <= MaxInt64) by (unfold MinInt64, MaxInt64 in *; lia).
  split; [apply int64_id; exact R|]. split; [|exact R].
  unfold MinInt64, MaxInt64 in *. lia.
Qed.

Lemma Neg_result (h : heap) (z x : ptr) :
  valid_form (form (h x)) -> isNaN (form (h x)) = false ->
  (form (h x) = finite -> MinInt64 <= compact (h x) <= MaxInt64) ->
  exists h',
    Neg z x h = Ok z h' /\
    form (h' z) = (if form (h x) =? finite then finite else Z.lxor (form (h x)) sign) /\
    (form (h x) = finite ->
     mag (h' z) = - mag (h x) /\ scale (h' z) = scale (h x) /\
     MinInt64 <= compact (h' z) <= MaxInt64) /\
    ctx (h' z) = ctx (h z) /\
    (forall p, p <> z -> h' p = h p).
Proof.
  intros Vx Nx Hc. unfold Neg, checkNaNs.
  forms Vx; rewrite Vx in Nx; try discriminate Nx.
  1, 2, 4, 5:
    exec_with ltac:(rewrite ?Vx); eexists; (split; [reflexivity|]); exec;
    rewrite ?Vx; (split; [reflexivity|]);
    (split; [intros Hf; vm_compute in Hf; discriminate Hf|]);
    (split; [reflexivity | intros; heap_norm; reflexivity]).
  specialize (Hc Vx).
  destruct (isCompact_ (h x)) eqn:Cx.
  - assert (Hn : compact (h x) <> Inflated).
    { unfold isCompact_ in Cx. apply negb_true_iff, Z.eqb_neq in Cx. exact Cx. }
    destruct (int64_neg_compact _ Hc Hn) as (Hid & Hni & Hr).
    exec_with ltac:(rewrite ?Vx, ?Cx, ?Hid).
    eexists. (split; [reflexivity|]). unfold mag, isCompact_.
    exec_with ltac:(rewrite ?Vx, ?Cx). unfold isCompact_ in Cx. rewrite Cx.
    apply Z.eqb_neq in Hni. rewrite Hni. cbn [negb].
    repeat split; auto; try lia. intros; heap_norm; reflexivity.
  - exec_with ltac:(rewrite ?Vx, ?Cx).
    eexists. (split; [reflexivity|]). unfold mag, isCompact_.
    exec_with ltac:(rewrite ?Vx, ?Cx). unfold isCompact_ in Cx. rewrite Cx.
    cbn [negb]. change (Inflated =? Inflated) with true. cbn [negb].
    repeat split; auto; try (unfold Inflated, MinInt64, MaxInt64; lia).
    intros; heap_norm; reflexivity.
Qed.

Lemma Neg_form_cases (f : Z) :
  valid_form f -> isNaN f = false ->
  let f' := if f =? finite then finite else Z.lxor f sign in
  valid_form f' /\ isNaN f' = false /\
  (f' = finite <-> f = finite) /\
  (if f' =? finite then finite else Z.lxor f' sign) = f.
Proof.
  intros V N. forms V; subst f; try discriminate N; vm_compute;
    repeat split; auto 8; intros H; try discriminate H; try reflexivity.
Qed.

(** Neg on a number or an infinity, for every receiver (x itself included):
    a finite x gives the finite value of opposite coefficient and the same
    scale; a zero or an infinity gets its sign bit flipped; the Context of z
    and every other Big are left alone, and nothing is signalled. *)
Theorem Neg_negates (h : heap) (z x : ptr) :
  valid_form (form (h x)) -> isNaN (form (h x)) = false ->
  (form (h x) = finite -> MinInt64 <= compact (h x) <= MaxInt64) ->
  exists h',
    Neg z x h = Ok z h' /\
    form (h' z) = (if form (h x) =? finite then finite else Z.lxor (form (h x)) sign) /\
    coef (h' z) = - coef (h x) /\
    (form (h x) = finite -> scale (h' z) = scale (h x)) /\
    ctx (h' z) = ctx (h z) /\
    (forall p, p <> z -> h' p = h p).
Proof.
  intros Vx Nx Hc.
  destruct (Neg_result h z x Vx Nx Hc) as (h' & E & F & M & K & O).
  destruct (Neg_form_cases _ Vx Nx) as (_ & _ & Hiff & _).
  exists h'. split; [exact E|]. split; [exact F|]. split; [|split; [|auto]].
  - unfold coef. rewrite F.
    destruct (Z.eqb_spec (form (h x)) finite) as [Ef|Ef].
    + change (finite =? finite) with true. cbv iota. apply M. exact Ef.
    + destruct (Z.eqb_spec (Z.lxor (form (h x)) sign) finite) as [E2|E2]; [|reflexivity].
      exfalso. apply Ef. apply Hiff. cbv zeta.
      destruct (Z.eqb_spec (form (h x)) finite); [contradiction | exact E2].
  - intros Ef. apply M. exact Ef.
Qed.

Lemma Neg_negates_witness :
  let h := heap3 Big0 (New 15 1) Big0 in
  exists h',
    Neg 0%nat 1%nat h = Ok 0%nat h' /\
    form (h' 0%nat) = (if form (h 1%nat) =? finite then finite
                       else Z.lxor (form (h 1%nat)) sign) /\
    coef (h' 0%nat) = - coef (h 1%nat) /\
    (form (h 1%nat) = finite -> scale (h' 0%nat) = scale (h 1%nat)) /\
    ctx (h' 0%nat) = ctx (h 0%nat) /\
    (forall p, p <> 0%nat -> h' p = h p).
Proof.
  intros h. apply (Neg_negates h 0%nat 1%nat).
  - valid.
  - reflexivity.
  - intros _. vm_compute. split; discriminate.
Defined.

(** Neg twice gives back the operand: after z.Neg(x) and z.Neg(z) the
    receiver has the form, the coefficient and (when finite) the scale of
    x. *)
Theorem Neg_involutive (h : heap) (z x : ptr) :
  valid_form (form (h x)) -> isNaN (form (h x)) = false ->
  (form (h x) = finite -> MinInt64 <= compact (h x) <= MaxInt64) ->
  exists h1 h2,
    Neg z x h = Ok z h1 /\ Neg z z h1 = Ok z h2 /\
    form (h2 z) = form (h x) /\ coef (h2 z) = coef (h x) /\
    (form (h x) = finite -> scale (h2 z) = scale (h x)).
Proof.
  intros Vx Nx Hc.
  destruct (Neg_result h z x Vx Nx Hc) as (h1 & E1 & F1 & M1 & _ & _).
  destruct (Neg_form_cases _ Vx Nx) as (V1 & N1 & Hiff & Hback).
  cbv zeta in *. rewrite <- F1 in V1, N1, Hiff, Hback.
  destruct (Neg_result h1 z z V1 N1) as (h2 & E2 & F2 & M2 & _ & _).
  { intros Ef. apply M1. apply Hiff. exact Ef. }
  exists h1, h2. split; [exact E1|]. split; [exact E2|].
  assert (Ff : form (h2 z) = form (h x)) by (rewrite F2; exact Hback).
  split; [exact Ff|]. split.
  - unfold coef. rewrite Ff.
    destruct (Z.eqb_spec (form (h x)) finite) as [Ef|Ef]; [|reflexivity].
    destruct (M1 Ef) as (A1 & _). destruct (M2 (proj2 Hiff Ef)) as (A2 & _).
    rewrite A2, A1. lia.
  - intros Ef. destruct (M1 Ef) as (_ & B1 & _).
    destruct (M2 (proj2 Hiff Ef)) as (_ & B2 & _). congruence.
Qed.

Lemma Neg_involutive_witness :
  let h := heap3 Big0 (special ninf) Big0 in
  exists h1 h2,
    Neg 0%nat 1%nat h = Ok 0%nat h1 /\ Neg 0%nat 0%nat h1 = Ok 0%nat h2 /\
    form (h2 0%nat) = form (h 1%nat) /\ coef (h2 0%nat) = coef (h 1%nat) /\
    (form (h 1%nat) = finite -> scale (h2 0%nat) = scale (h 1%nat)).
Proof.
  intros h. apply (Neg_involutive h 0%nat 1%nat).
  - valid.
  - reflexivity.
  - intros H. vm_compute in H. discriminate H.
Defined.

(** Abs on a finite x, for every receiver: z becomes finite with the scale
    of x.  A compact x leaves |x| in z.  An inflated x is written to
    z.unscaled only, z.compact is not touched: z holds |x| if it was inflated
    before the call (as when z is x), and otherwise keeps reading its old
    compact value. *)
Theorem Abs_finite (h : heap) (z x : ptr) :
  form (h x) = finite ->
  MinInt64 <= compact (h x) <= MaxInt64 ->
  exists h',
    Abs z x h = Ok z h' /\
    form (h' z) = finite /\ scale (h' z) = scale (h x) /\
    mag (h' z) =
      (if isCompact_ (h x) then Z.abs (compact (h x))
       else if isCompact_ (h z) then compact (h z)
       else Z.abs (unscaled (h x))) /\
    ctx (h' z) = ctx (h z) /\
    (forall p, p <> z -> h' p = h p).
Proof.
  intros Fx Hc. unfold Abs, arith_Abs.
  destruct (isCompact_ (h x)) eqn:Cx.
  - assert (Hn : compact (h x) <> Inflated).
    { unfold isCompact_ in Cx. apply negb_true_iff, Z.eqb_neq in Cx. exact Cx. }
    assert (Hid : int64 (Z.abs (compact (h x))) = Z.abs (compact (h x))).
    { apply int64_id. unfold Inflated, MinInt64, MaxInt64 in *. lia. }
    assert (Hni : (Z.abs (compact (h x)) =? Inflated) = false).
    { apply Z.eqb_neq. unfold Inflated, MinInt64. lia. }
    exec_with ltac:(rewrite ?Fx, ?Cx, ?Hid).
    eexists. (split; [reflexivity|]). unfold mag, isCompact_.
    exec_with ltac:(rewrite ?Hni). cbn [negb].
    repeat split; auto. intros; heap_norm; reflexivity.
  - exec_with ltac:(rewrite ?Fx, ?Cx).
    eexists. (split; [reflexivity|]). unfold mag.
    exec. repeat split; auto. intros; heap_norm; reflexivity.
Qed.

Lemma Abs_finite_witness :
  let h := heap3 Big0 (New (-15) 1) Big0 in
  exists h',
    Abs 0%nat 1%nat h = Ok 0%nat h' /\
    form (h' 0%nat) = finite /\ scale (h' 0%nat) = scale (h 1%nat) /\
    mag (h' 0%nat) =
      (if isCompact_ (h 1%nat) then Z.abs (compact (h 1%nat))
       else if isCompact_ (h 0%nat) then compact (h 0%nat)
       else Z.abs (unscaled (h 1%nat))) /\
    ctx (h' 0%nat) = ctx (h 0%nat) /\
    (forall p, p <> 0%nat -> h' p = h p).
Proof.
  intros h. apply (Abs_finite h 0%nat 1%nat).
  - reflexivity.
  - vm_compute. split; discriminate.
Defined.

(** ** Copy *)

(** Copy into a distinct receiver takes over the Context, form, scale and
    magnitude of x, leaves x and every other Big alone, and makes z compare
    equal to x when x is not a NaN; Copy onto itself does nothing. *)
Theorem Copy_result (h : heap) (z x : ptr) :
  valid_form (form (h x)) ->
  exists h',
    Copy z x h = Ok z h' /\
    ctx (h' z) = ctx (h x) /\ form (h' z) = form (h x) /\
    scale (h' z) = scale (h x) /\ compact (h' z) = compact (h x) /\
    mag (h' z) = mag (h x) /\
    (forall p, p <> z -> h' p = h p) /\
    (z = x -> h' = h) /\
    (isNaN (form (h x)) = false -> Cmp z x h' = Ok 0 h').
Proof.
  intros Vx. unfold Copy.
  destruct (Nat.eqb_spec z x) as [->|Hzx]; cbn [negb].
  - exists h. repeat split; auto. intros _. apply Cmp_self.
  - destruct (isCompact_ (h x)) eqn:Cx;
      exec_with ltac:(rewrite ?Cx);
      eexists; (split; [reflexivity|]); unfold mag, isCompact_ in *;
      exec_with ltac:(rewrite ?Cx);
      do 5 (split; [reflexivity|]);
      (split; [intros; heap_norm; reflexivity|]);
      (split; [intros; contradiction|]);
      intros Nx;
      apply Cmp_same_representation; exec; auto;
      try (unfold Sign_, isCompact_; exec_with ltac:(rewrite ?Cx); reflexivity);
      try (intros _; repeat split; auto;
           intros Ei; rewrite Ei in Cx; discriminate Cx).
Qed.

Lemma Copy_result_witness :
  let h := heap3 Big0 (inContext ContextGDA (New 15 1)) Big0 in
  exists h',
    Copy 0%nat 1%nat h = Ok 0%nat h' /\
    ctx (h' 0%nat) = ctx (h 1%nat) /\ form (h' 0%nat) = form (h 1%nat) /\
    scale (h' 0%nat) = scale (h 1%nat) /\ compact (h' 0%nat) = compact (h 1%nat) /\
    mag (h' 0%nat) = mag (h 1%nat) /\
    (forall p, p <> 0%nat -> h' p = h p) /\
    (0%nat = 1%nat -> h' = h) /\
    (isNaN (form (h 1%nat)) = false -> Cmp 0%nat 1%nat h' = Ok 0 h').
Proof.
  intros h. apply (Copy_result h 0%nat 1%nat). valid.
Defined.

(** ** Integers print as integers *)

Lemma String_plain (h : heap) (x : ptr) :
  form (h x) = finite -> MinInt64 <= compact (h x) <= MaxInt64 ->
  0 <= scale (h x) ->
  -6 <= - scale (h x) + (len (utoa (Z.abs (mag (h x)))) - 1) ->
  String_ x h =
    Ok (f_w (formatPlain
               (if mag (h x) <? 0 then WriteByte (mkFormatter [] 0 noPrec noWidth 0) 45
                else mkFormatter [] 0 noPrec noWidth 0)
               (utoa (Z.abs (mag (h x)))) (scale (h x)))) h.
Proof.
  intros Hf Hc Hs Hadj.
  set (m := mag (h x)) in *. set (sc := scale (h x)) in *.
  set (D := utoa (Z.abs m)) in *.
  assert (HD : (if negb (isCompact_ (h x)) then formatUnscaled (unscaled (h x))
                else formatCompact (compact (h x))) = D).
  { unfold D, m, mag, isCompact_, Inflated.
    destruct (Z.eqb_spec (compact (h x)) MinInt64) as [E|E]; cbn [negb].
    - reflexivity.
    - apply formatCompact_abs. lia. }
  assert (Hneg : Signbit_ (h x) = (m <? 0)).
  { unfold Signbit_, m, mag. rewrite Hf. change (negb (finite =? finite)) with false.
    cbv iota. destruct (isCompact_ (h x)); [reflexivity|].
    destruct (unscaled (h x)); reflexivity. }
  unfold String_, format.
  exec_with ltac:(rewrite ?Hf, ?HD, ?Hneg). fold sc.
  match goal with |- context [f_prec ?G] => set (F := G) end.
  assert (HFp : f_prec F = noPrec) by (unfold F; destruct (m <? 0); reflexivity).
  rewrite !HFp. change (0 <? noPrec) with false. cbv iota.
  change (negb (normal =? sci)) with true. change (normal =? plain) with false.
  cbn [andb orb].
  destruct (Z.leb_spec 0 sc) as [_|]; [|lia].
  destruct (Z.leb_spec (-6) (- sc + (len D - 1))) as [_|]; [|lia].
  reflexivity.
Qed.

Lemma formatPlain_integer (F : formatter) (D : list Z) :
  1 <= len D -> f_w (formatPlain F D 0) = f_w F ++ D.
Proof.
  intros HD. unfold formatPlain. rewrite Z.sub_0_r.
  destruct (Z.eqb_spec (len D) 0) as [|_]; [lia|].
  destruct (Z.ltb_spec 0 (len D)) as [_|]; [|lia].
  assert (Hfrom : from (len D) D = []).
  { unfold from, len. rewrite Nat2Z.id. apply skipn_all. }
  rewrite Hfrom, upto_all. reflexivity.
Qed.

(** SetMantScale(v, 0) followed by String writes v as strconv.Itoa does, for
    every int64 v (the smallest one included, which is stored inflated) and
    whatever z held before; the receiver's mode is Go or GDA. *)
Theorem SetMantScale_String_integer (h : heap) (z : ptr) (v : Z) :
  MinInt64 <= v <= MaxInt64 ->
  OperatingMode (ctx (h z)) = Go \/ OperatingMode (ctx (h z)) = GDA ->
  exists h',
    SetMantScale z v 0 h = Ok z h' /\ String_ z h' = Ok (Itoa v) h'.
Proof.
  intros Hv Hm. unfold SetMantScale.
  destruct (Z.eqb_spec v 0) as [->|Hv0].
  - exec. eexists. split; [reflexivity|].
    unfold String_, format.
    destruct Hm as [Hm|Hm]; exec_with ltac:(rewrite ?Hm); reflexivity.
  - assert (Hmag : forall b : Big, compact b = v -> (v = Inflated -> unscaled b = v) ->
                     mag b = v).
    { intros b Hc Hu. unfold mag, isCompact_. rewrite Hc.
      destruct (Z.eqb_spec v Inflated) as [Ei|Ei]; cbn [negb]; auto. }
    assert (Hit : (if v <? 0 then [45] else []) ++ utoa (Z.abs v) = Itoa v).
    { unfold Itoa. destruct (Z.ltb_spec v 0).
      - rewrite Z.abs_neq by lia. reflexivity.
      - rewrite Z.abs_eq by lia. reflexivity. }
    destruct (utoa_spec (Z.abs v) (Z.abs_nonneg v)) as (_ & _ & HDl & _ & _).
    destruct (Z.eqb_spec v Inflated) as [Ei|Ei]; exec;
      eexists; (split; [reflexivity|]);
      match goal with |- String_ z ?H = _ =>
        assert (Hm' : mag (H z) = v) by (apply Hmag; exec; auto; contradiction);
        assert (Hs' : scale (H z) = 0) by (now exec);
        rewrite (String_plain H z) by (rewrite ?Hm', ?Hs'; exec; auto; lia);
        rewrite Hm', Hs', formatPlain_integer by exact HDl
      end;
      rewrite <- Hit; destruct (v <? 0); reflexivity.
Qed.

Lemma SetMantScale_String_integer_witness :
  let h := heap3 (New 7 3) Big0 Big0 in
  exists h',
    SetMantScale 0%nat (-42) 0 h = Ok 0%nat h' /\
    String_ 0%nat h' = Ok (Itoa (-42)) h'.
Proof.
  intros h. apply (SetMantScale_String_integer h 0%nat (-42)).
  - vm_compute. split; discriminate.
  - left. reflexivity.
Defined.

(** ** Round under ToZero *)

Lemma arith_Length_bounds (c : Z) :
  c <> 0 ->
  1 <= arith_Length c /\
  10 ^ (arith_Length c - 1) <= Z.abs c < 10 ^ arith_Length c.
Proof.
  intros Hc. rewrite arith_Length_utoa.
  destruct (utoa_spec (Z.abs c) (Z.abs_nonneg c)) as (_ & _ & Hl & Hub & Hlb).
  split; [exact Hl|]. split; [apply Hlb; lia | exact Hub].
Qed.

Lemma arith_Length_unique (q n : Z) :
  1 <= n -> 10 ^ (n - 1) <= Z.abs q < 10 ^ n -> arith_Length q = n.
Proof.
  intros Hn Hq.
  assert (Hq0 : q <> 0).
  { intros ->. cbn in Hq. assert (0 < 10 ^ (n - 1)) by (apply Z.pow_pos_nonneg; lia). lia. }
  destruct (arith_Length_bounds q Hq0) as (Hl & Hb).
  apply (pow10_interval_unique (Z.abs q)); auto.
Qed.

Lemma arith_Length_int64 (c : Z) :
  MinInt64 <= c <= MaxInt64 -> arith_Length c <= 19.
Proof.
  intros Hc. destruct (Z.eq_dec c 0) as [->|Hc0]; [vm_compute; discriminate|].
  destruct (arith_Length_bounds c Hc0) as (Hl & Hlb & _).
  destruct (Z.le_gt_cases (arith_Length c) 19) as [|Hgt]; [assumption|exfalso].
  pose proof (pow10_le 19 (arith_Length c - 1) ltac:(lia)) as Hp.
  change (10 ^ 19) with 10000000000000000000 in Hp.
  unfold MinInt64, MaxInt64 in Hc. lia.
Qed.

Lemma quot_pow10_digits (c n s : Z) :
  1 <= n -> 0 <= s ->
  10 ^ (n + s - 1) <= Z.abs c < 10 ^ (n + s) ->
  10 ^ (n - 1) <= Z.abs (Z.quot c (10 ^ s)) < 10 ^ n.
Proof.
  intros Hn Hs [Hlo Hhi].
  assert (HP : 0 < 10 ^ s) by (apply Z.pow_pos_nonneg; lia).
  rewrite <- Z.quot_abs by lia. rewrite (Z.abs_eq (10 ^ s)) by lia.
  rewrite Z.quot_div_nonneg by lia.
  replace (n + s - 1) with ((n - 1) + s) in Hlo by lia.
  rewrite Z.pow_add_r in Hlo, Hhi by lia.
  split.
  - apply Z.div_le_lower_bound; lia.
  - apply Z.div_lt_upper_bound; lia.
Qed.

(** Round(n) on a compact finite z of more than n digits under ToZero: the
    magnitude is cut to its n leading digits (the quotient by the power of
    ten, truncated), the scale falls by the number of digits cut, and z has
    exactly n digits afterwards.  Round also writes the Context: its
    precision becomes n and Rounded is OR-ed into Conditions, in every
    operating mode; Inexact is not raised. *)
Theorem Round_ToZero_truncates (h : heap) (z : ptr) (n : Z) :
  form (h z) = finite -> isCompact_ (h z) = true ->
  MinInt64 <= compact (h z) <= MaxInt64 ->
  RoundingMode (ctx (h z)) = ToZero ->
  0 < n < Precision_ (h z) ->
  MinInt32 <= scale (h z) - (Precision_ (h z) - n) -> scale (h z) <= MaxInt32 ->
  exists h',
    Round z n h = Ok z h' /\
    compact (h' z) = Z.quot (compact (h z)) (10 ^ (Precision_ (h z) - n)) /\
    scale (h' z) = scale (h z) - (Precision_ (h z) - n) /\
    form (h' z) = finite /\
    Precision_ (h' z) = n /\
    Context_Precision (ctx (h' z)) = n /\
    Conditions (ctx (h' z)) = Z.lor (Conditions (ctx (h z))) Rounded /\
    (forall p, p <> z -> h' p = h p).
Proof.
  intros Fz Cz Hc Hm Hn Hs1 Hs2.
  assert (HP : Precision_ (h z) = arith_Length (compact (h z))).
  { rewrite (Precision_finite _ Fz). unfold mag. now rewrite Cz. }
  rewrite HP in *. set (c := compact (h z)) in *. set (L := arith_Length c) in *.
  pose proof (arith_Length_int64 c Hc) as HL19. fold L in HL19.
  assert (Hc0 : c <> 0).
  { intros E. unfold L in Hn. rewrite E in Hn. vm_compute in Hn. destruct Hn as [? Hn].
    destruct n; try discriminate; destruct p; discriminate. }
  destruct (arith_Length_bounds c Hc0) as (_ & Hb). fold L in Hb.
  set (s := L - n) in *.
  assert (Hs : 0 < s <= 18) by (unfold s; lia).
  assert (HPs : 0 < 10 ^ s) by (apply Z.pow_pos_nonneg; lia).
  assert (Hq : 10 ^ (n - 1) <= Z.abs (Z.quot c (10 ^ s)) < 10 ^ n).
  { apply quot_pow10_digits; [lia | lia |]. replace (n + s) with L by (unfold s; lia).
    exact Hb. }
  assert (Hqle : Z.abs (Z.quot c (10 ^ s)) <= Z.abs c).
  { rewrite <- Z.quot_abs by lia. rewrite (Z.abs_eq (10 ^ s)) by lia.
    rewrite Z.quot_div_nonneg by lia. apply Z.div_le_upper_bound; [lia|]. nia. }
  assert (Hni : c <> Inflated).
  { unfold isCompact_ in Cz. fold c in Cz. apply negb_true_iff, Z.eqb_neq in Cz. exact Cz. }
  assert (Hqid : int64 (Z.quot c (10 ^ s)) = Z.quot c (10 ^ s)).
  { apply int64_id. unfold Inflated, MinInt64, MaxInt64 in *. lia. }
  assert (Hqni : (Z.quot c (10 ^ s) =? Inflated) = false).
  { apply Z.eqb_neq. unfold Inflated, MinInt64, MaxInt64 in *. lia. }
  assert (H1 : (n <=? 0) = false) by (apply Z.leb_gt; lia).
  assert (H2 : (L <=? n) = false) by (apply Z.leb_gt; lia).
  assert (H3 : fits64 s = true).
  { unfold fits64, MinInt64, MaxInt64. apply andb_true_iff. split; apply Z.leb_le; lia. }
  assert (H4 : int64 s = s) by (apply fits64_id; exact H3).
  assert (H5 : (s <=? 0) = false) by (apply Z.leb_gt; lia).
  assert (H6 : int32 s = s) by (apply int32_id; unfold MinInt32, MaxInt32; lia).
  assert (H7 : int32 (scale (h z) - s) = scale (h z) - s) by (apply int32_id; lia).
  assert (H8 : (0 <=? s) && (s <=? 18) = true).
  { apply andb_true_iff. split; apply Z.leb_le; lia. }
  assert (H9 : (10 ^ s =? 0) = false) by (apply Z.eqb_neq; lia).
  assert (H10 : (n =? 0) = false) by (apply Z.eqb_neq; lia).
  assert (H11 : (n =? noPrecision) = false) by (apply Z.eqb_neq; unfold noPrecision; lia).
  assert (Cz' : negb (c =? Inflated) = true) by exact Cz.
  assert (Hrm : forall k v, RoundingMode (with_precision k v) = RoundingMode k) by reflexivity.
  unfold Round, quoAndRound, quo64, checked_Sub, pow_Ten64, Context_SetPrecision.
  exec_with ltac:(unfold isCompact_; rewrite ?Fz, ?HP, ?Hm; fold c; fold s;
                  rewrite ?Cz', ?H1, ?H2, ?H3, ?H4, ?H5, ?H6, ?H7, ?H8, ?H9, ?H10, ?Hqid).
  eexists. split; [reflexivity|].
  exec. fold c. fold s.
  split; [reflexivity|]. split; [reflexivity|]. split; [reflexivity|].
  split.
  { unfold Precision_, isCompact_. exec. rewrite Hqni. cbn [negb].
    apply arith_Length_unique; [lia | exact Hq]. }
  split.
  { unfold Context_Precision. exec. now rewrite H10, H11. }
  split; [reflexivity|].
  intros; heap_norm; reflexivity.
Qed.

Lemma Round_ToZero_truncates_witness :
  let h := heap3 (inContext (mkContext Go 0 0 0 None ToZero) (New 12345 2)) Big0 Big0 in
  exists h',
    Round 0%nat 2 h = Ok 0%nat h' /\
    compact (h' 0%nat) = Z.quot (compact (h 0%nat)) (10 ^ (Precision_ (h 0%nat) - 2)) /\
    scale (h' 0%nat) = scale (h 0%nat) - (Precision_ (h 0%nat) - 2) /\
    form (h' 0%nat) = finite /\
    Precision_ (h' 0%nat) = 2 /\
    Context_Precision (ctx (h' 0%nat)) = 2 /\
    Conditions (ctx (h' 0%nat)) = Z.lor (Conditions (ctx (h 0%nat))) Rounded /\
    (forall p, p <> 0%nat -> h' p = h p).
Proof.
  intros h. apply (Round_ToZero_truncates h 0%nat 2).
  - reflexivity.
  - reflexivity.
  - vm_compute. split; discriminate.
  - reflexivity.
  - vm_compute. split; reflexivity.
  - vm_compute. discriminate.
  - vm_compute. discriminate.
Defined.

(** ** roundString: the kept digits move by at most one unit *)

Lemma getb_middle (Q R : list Z) (c : Z) : getb (Q ++ c :: R) (List.length Q) = c.
Proof. unfold getb. apply nth_middle. Qed.

Lemma getb_front (Q R : list Z) (i : nat) :
  (i < List.length Q)%nat -> getb (Q ++ R) i = getb Q i.
Proof. intros H. unfold getb. now apply app_nth1. Qed.

Lemma setb_middle (Q R : list Z) (c v : Z) :
  setb (Q ++ c :: R) (List.length Q) v = Q ++ v :: R.
Proof. induction Q as [|q Q IH]; cbn; [reflexivity | now rewrite IH]. Qed.

Lemma uint8_digit_succ (d : Z) : 48 <= d <= 57 -> uint8 (d + 1) = d + 1.
Proof. intros H. unfold uint8. apply Z.mod_small. lia. Qed.

Lemma carry_spec (Q : list Z) :
  forall R, forallb isDigit Q = true ->
  exists Q',
    carry (Q ++ R) (List.length Q) = Q' ++ R /\
    List.length Q' = List.length Q /\
    forallb isDigit Q' = true /\
    ((digitsVal Q' = digitsVal Q + 1 /\ Q <> [] /\
      (getb Q 0 <> 48 -> getb Q' 0 <> 48)) \/
     (digitsVal Q + 1 = 10 ^ len Q /\ Q' = repeat 48 (List.length Q))).
Proof.
  induction Q as [|q Q0 IH] using rev_ind; intros R HQ.
  - exists []. cbn. repeat split; auto.
  - rewrite forallb_app in HQ. apply andb_true_iff in HQ. destruct HQ as [HQ0 Hq].
    cbn [forallb] in Hq. rewrite andb_true_r in Hq.
    pose proof (isDigit_range _ Hq) as Hqr.
    rewrite length_app. cbn [List.length]. rewrite Nat.add_1_r.
    rewrite <- app_assoc. cbn [app carry].
    rewrite getb_middle.
    destruct (Z.eqb_spec q 57) as [E9|N9]; cbn [negb].
    + (* a nine: it becomes 0 and the carry moves on *)
      rewrite setb_middle.
      destruct (IH (48 :: R) HQ0) as (Q' & Ec & El & Hd & Hcase).
      exists (Q' ++ [48]). rewrite Ec, <- app_assoc. cbn [app].
      split; [reflexivity|]. split; [rewrite !length_app; cbn; lia|].
      split; [rewrite forallb_app, Hd; reflexivity|].
      rewrite !digitsVal_snoc, len_app. change (len [q]) with 1. subst q.
      destruct Hcase as [(Hv & Hne & Hh) | (Hv & Hz)].
      * left. split; [lia|]. split; [now destruct Q0|].
        destruct Q0 as [|a Q0]; [contradiction|].
        destruct Q' as [|a' Q']; [discriminate El|].
        cbn in *. exact Hh.
      * right. split.
        -- rewrite Z.pow_add_r, Z.pow_1_r by (try apply len_nonneg; lia). lia.
        -- rewrite Hz. rewrite <- repeat_cons. reflexivity.
    + (* any other digit is incremented and the loop stops *)
      rewrite setb_middle, (uint8_digit_succ q Hqr).
      exists (Q0 ++ [q + 1]). rewrite <- app_assoc. cbn [app].
      split; [reflexivity|]. split; [rewrite !length_app; cbn; lia|].
      split.
      { rewrite forallb_app, HQ0. cbn [forallb andb]. rewrite andb_true_r.
        unfold isDigit. apply andb_true_iff. split; apply Z.leb_le; lia. }
      left. rewrite !digitsVal_snoc. split; [lia|]. split; [now destruct Q0|].
      destruct Q0 as [|a Q0]; cbn; [lia | auto].
Qed.

Lemma split_at_digit (b : list Z) (prec : Z) :
  0 < prec < len b ->
  exists Q d e R, b = Q ++ d :: e :: R /\ len Q = prec - 1.
Proof.
  intros H.
  pose proof (upto_from (prec - 1) b) as E.
  assert (Hl : len (upto (prec - 1) b) = prec - 1) by (apply len_upto; lia).
  assert (Hf : len (from (prec - 1) b) = len b - (prec - 1)) by (apply len_from; lia).
  destruct (from (prec - 1) b) as [|d [|e R]] eqn:Ef.
  - cbn in Hf. lia.
  - rewrite len_cons in Hf. cbn in Hf. lia.
  - exists (upto (prec - 1) b), d, e, R. split; [now symmetry | exact Hl].
Qed.

Lemma upto_snoc (Q R : list Z) (a : Z) (k : Z) :
  len Q = k - 1 -> upto k (Q ++ a :: R) = Q ++ [a].
Proof.
  intros H. unfold upto.
  replace (Q ++ a :: R) with ((Q ++ [a]) ++ R) by (now rewrite <- app_assoc).
  replace k with (len (Q ++ [a])).
  - apply upto_app.
  - rewrite len_app. change (len [a]) with 1. lia.
Qed.

Lemma from_snoc (Q R : list Z) (a : Z) (k : Z) :
  len Q = k - 1 -> from k (Q ++ a :: R) = R.
Proof.
  intros H. unfold from. replace k with (len Q + 1) by lia. apply from_app_cons.
Qed.

Lemma digitsVal_one_zeros (k : nat) : digitsVal (49 :: repeat 48 k) = 10 ^ Z.of_nat k.
Proof. rewrite digitsVal_cons, digitsVal_zeros, len_repeat. lia. Qed.

(** roundString on a digit string without a leading zero, cut to a shorter
    positive length: the result is a digit string whose value is that of the
    kept prefix or one more; it has the requested length unless the prefix
    was all nines and got incremented, when it is 1 followed by that many
    zeros.  Under ToZero, or when only zeros are dropped, the result is the
    prefix itself; under AwayFromZero any other drop increments. *)
Theorem roundString_one_unit (b : list Z) (mode : Z) (pos : bool) (prec : Z) :
  forallb isDigit b = true -> getb b 0 <> 48 -> 0 < prec < len b ->
  exists r,
    roundString b mode pos prec = Some r /\
    forallb isDigit r = true /\
    (digitsVal r = digitsVal (upto prec b) /\ len r = prec \/
     digitsVal r = digitsVal (upto prec b) + 1 /\
     (len r = prec \/ len r = prec + 1 /\ digitsVal r = 10 ^ prec)) /\
    (mode = ToZero \/ allZeros (from prec b) = true -> r = upto prec b) /\
    (mode = AwayFromZero -> allZeros (from prec b) = false ->
     digitsVal r = digitsVal (upto prec b) + 1).
Proof.
  intros Hb Hh Hp.
  destruct (split_at_digit b prec Hp) as (Q & d & e & R & Eb & HlQ).
  assert (HP : upto prec b = Q ++ [d]) by (rewrite Eb; now apply upto_snoc).
  assert (HlP : len (Q ++ [d]) = prec) by (rewrite len_app; change (len [d]) with 1; lia).
  assert (HdP : forallb isDigit (Q ++ [d]) = true).
  { rewrite <- HP. now apply forallb_firstn. }
  pose proof HdP as HdP'. rewrite forallb_app in HdP'. apply andb_true_iff in HdP'.
  destruct HdP' as [HdQ Hdd]. cbn [forallb] in Hdd. rewrite andb_true_r in Hdd.
  pose proof (isDigit_range _ Hdd) as Hdr.
  unfold roundString.
  destruct (Z.leb_spec (len b) prec) as [|_]; [lia|].
  destruct (Z.ltb_spec prec 0) as [|_]; [lia|].
  destruct (allZeros (from prec b)) eqn:Hz.
  { exists (upto prec b). rewrite HP. split; [reflexivity|]. split; [exact HdP|].
    split; [left; auto|]. split; [reflexivity | discriminate]. }
  destruct (Z.eqb_spec prec 0) as [|_]; [lia|].
  cbv zeta.
  assert (Hb1 : upto (prec + 1) b = Q ++ d :: [e]).
  { rewrite Eb. replace (Q ++ d :: e :: R) with ((Q ++ [d]) ++ e :: R)
      by (now rewrite <- app_assoc).
    rewrite (upto_snoc (Q ++ [d]) R e (prec + 1)) by lia.
    now rewrite <- app_assoc. }
  assert (Hi : Z.to_nat (prec - 1) = List.length Q) by (unfold len in HlQ; lia).
  rewrite Hb1, Hi, HP.
  match goal with
  | |- context [if ?c then setb _ _ _ else _] => destruct c eqn:Hinc
  end.
  - (* the last kept digit is incremented *)
    rewrite !getb_middle, setb_middle, !getb_middle, (uint8_digit_succ d Hdr).
    assert (Hmode : mode <> ToZero).
    { intros ->. change (ToZero =? AwayFromZero) with false in Hinc.
      change (ToZero =? ToZero) with true in Hinc. discriminate Hinc. }
    destruct (Z.eqb_spec (d + 1) 58) as [E9|N9]; cbn [negb].
    + (* it was a nine: carry *)
      rewrite setb_middle.
      destruct (carry_spec Q (48 :: [e]) HdQ) as (Q' & Ec & El & Hd' & Hcase).
      rewrite Ec.
      assert (HlQ' : len Q' = prec - 1) by (unfold len in *; lia).
      assert (Hup : upto prec (Q' ++ 48 :: [e]) = Q' ++ [48]) by (now apply upto_snoc).
      rewrite Hup. rewrite digitsVal_snoc.
      destruct Hcase as [(Hv & Hne & Hhd) | (Hv & Hzs)].
      * (* the carry stops inside the prefix *)
        assert (Hh' : getb Q' 0 <> 48).
        { apply Hhd. rewrite Eb in Hh. destruct Q as [|a Q]; [contradiction|]. exact Hh. }
        assert (Hg : getb (Q' ++ 48 :: [e]) 0 = getb Q' 0).
        { destruct Q' as [|a Q']; [destruct Q; [contradiction | discriminate El]|].
          reflexivity. }
        rewrite Hg. apply Z.eqb_neq in Hh'. rewrite Hh'.
        exists (Q' ++ [48]). split; [reflexivity|].
        split; [rewrite forallb_app, Hd'; reflexivity|].
        split.
        { right. rewrite digitsVal_snoc. split; [lia|]. left.
          rewrite len_app. change (len [48]) with 1. lia. }
        split; [intros [Hm|Hm]; [contradiction | discriminate Hm]|].
        intros _ _. rewrite digitsVal_snoc. lia.
      * (* the prefix was all nines *)
        assert (Hg : getb (Q' ++ 48 :: [e]) 0 = 48).
        { rewrite Hzs. destruct (List.length Q); reflexivity. }
        rewrite Hg, Z.eqb_refl.
        assert (Hr : 49 :: Q' ++ [48] = 49 :: repeat 48 (S (List.length Q))).
        { rewrite Hzs. f_equal. rewrite <- repeat_cons. reflexivity. }
        assert (HS : Z.of_nat (S (List.length Q)) = prec) by (unfold len in HlQ; lia).
        exists (49 :: Q' ++ [48]). split; [reflexivity|].
        split; [cbn [forallb]; rewrite forallb_app, Hd'; reflexivity|].
        assert (Hval : digitsVal (49 :: Q' ++ [48]) = 10 ^ prec).
        { rewrite Hr, digitsVal_one_zeros, HS. reflexivity. }
        assert (HT : digitsVal Q * 10 + (d - 48) + 1 = 10 ^ prec).
        { replace prec with (len Q + 1) by lia.
          rewrite Z.pow_add_r, Z.pow_1_r by (try apply len_nonneg; lia). lia. }
        split.
        { right. split; [lia|]. right. split; [|exact Hval].
          rewrite len_cons, len_app. change (len [48]) with 1. lia. }
        split; [intros [Hm|Hm]; [contradiction | discriminate Hm]|].
        intros _ _. lia.
    + (* no carry *)
      rewrite (upto_snoc Q [e] (d + 1) prec HlQ).
      exists (Q ++ [d + 1]). split; [reflexivity|].
      split.
      { rewrite forallb_app, HdQ. cbn [forallb andb]. rewrite andb_true_r.
        unfold isDigit. apply andb_true_iff. split; apply Z.leb_le; lia. }
      split.
      { right. rewrite !digitsVal_snoc. split; [lia|]. left.
        rewrite len_app. change (len [d + 1]) with 1. lia. }
      split; [intros [Hm|Hm]; [contradiction | discriminate Hm]|].
      intros _ _. rewrite !digitsVal_snoc. lia.
  - (* the prefix is kept *)
    rewrite getb_middle.
    destruct (Z.eqb_spec d 58) as [|_]; [lia|]. cbn [negb].
    rewrite (upto_snoc Q [e] d prec HlQ).
    exists (Q ++ [d]). split; [reflexivity|]. split; [exact HdP|].
    split; [left; auto|]. split; [reflexivity|].
    intros -> _. change (AwayFromZero =? AwayFromZero) with true in Hinc.
    discriminate Hinc.
Qed.

Lemma roundString_one_unit_witness :
  exists r,
    roundString (bytes "9996") ToNearestEven true 3 = Some r /\
    forallb isDigit r = true /\
    (digitsVal r = digitsVal (upto 3 (bytes "9996")) /\ len r = 3 \/
     digitsVal r = digitsVal (upto 3 (bytes "9996")) + 1 /\
     (len r = 3 \/ len r = 3 + 1 /\ digitsVal r = 10 ^ 3)) /\
    (ToNearestEven = ToZero \/ allZeros (from 3 (bytes "9996")) = true ->
     r = upto 3 (bytes "9996")) /\
    (ToNearestEven = AwayFromZero -> allZeros (from 3 (bytes "9996")) = false ->
     digitsVal r = digitsVal (upto 3 (bytes "9996")) + 1).
Proof.
  apply (roundString_one_unit (bytes "9996") ToNearestEven true 3).
  - reflexivity.
  - vm_compute. discriminate.
  - vm_compute. split; reflexivity.
Defined.

(** ** Zeros and infinities as operands *)

Ltac kinds H :=
  unfold is_zero, is_inf in H;
  repeat match type of H with
         | _ \/ _ => destruct H as [H|H]
         | _ /\ _ => let H' := fresh H in destruct H as [H H']; kinds H'
         end.

Ltac only_form_result :=
  eexists; (split; [reflexivity|]); unfold only_form; exec;
  (split; [reflexivity | intros; heap_norm; reflexivity]).

(** Quo with a zero or an infinity among its operands, the cases that are
    not invalid and not a division by zero: a zero dividend or an infinite
    divisor give +0 whatever the signs, an infinite dividend gives the
    infinity signed by the exclusive or of the operand signs.  Only the
    form of z is written and nothing is signalled, in every mode and for
    every aliasing. *)
Theorem Quo_zeros_and_infinities (h : heap) (z x y : ptr) :
  (is_zero (form (h x)) /\ (form (h y) = finite \/ is_inf (form (h y)))) \/
  (form (h x) = finite /\ is_inf (form (h y))) \/
  (is_inf (form (h x)) /\ (form (h y) = finite \/ is_zero (form (h y)))) ->
  exists h',
    Quo z x y h = Ok z h' /\
    only_form h h' z
      (if (form (h x) =? pinf) || (form (h x) =? ninf)
       then (if xorb (Signbit_ (h x)) (Signbit_ (h y)) then ninf else pinf)
       else zero).
Proof.
  intros H. unfold Quo, checkNaNs.
  destruct (Nat.eq_dec z x) as [Ezx|Hzx]; [subst z|];
  destruct H as [H|[H|H]]; destruct H as [Hx Hy]; kinds Hx; kinds Hy;
    destruct (Signbit_ (h x)) eqn:Sx; destruct (Signbit_ (h y)) eqn:Sy;
    try (unfold Signbit_ in Sx; rewrite Hx in Sx; discriminate Sx);
    try (unfold Signbit_ in Sy; rewrite Hy in Sy; discriminate Sy);
    exec_with ltac:(rewrite ?Hx, ?Hy, ?Sx, ?Sy); only_form_result.
Qed.

Lemma Quo_zeros_and_infinities_witness :
  let h := heap3 Big0 (special ninf) (New 3 0) in
  exists h',
    Quo 0%nat 1%nat 2%nat h = Ok 0%nat h' /\
    only_form h h' 0%nat
      (if (form (h 1%nat) =? pinf) || (form (h 1%nat) =? ninf)
       then (if xorb (Signbit_ (h 1%nat)) (Signbit_ (h 2%nat)) then ninf else pinf)
       else zero).
Proof.
  intros h. apply (Quo_zeros_and_infinities h 0%nat 1%nat 2%nat).
  right. right. split; [right; reflexivity | left; reflexivity].
Defined.

Lemma Set_form_only (h : heap) (z x : ptr) :
  is_zero (form (h x)) \/ is_inf (form (h x)) ->
  exists h', Set_ z x h = Ok z h' /\ form (h' z) = form (h x) /\
             ctx (h' z) = ctx (h z) /\ (forall p, p <> z -> h' p = h p).
Proof.
  intros H. apply Set_nonfinite. kinds H; rewrite H; reflexivity.
Qed.

Ltac form_result :=
  eexists; (split; [reflexivity|]); exec;
  (split; [reflexivity | split; [reflexivity | intros; heap_norm; reflexivity]]).

(** Add with a zero or an infinity among its operands, the cases that are
    not invalid and do not copy a finite operand: two zeros give -0 when both
    are -0 and +0 otherwise; an infinity plus a zero, a finite value or the
    same infinity gives that infinity.  The Context of z and every other Big
    are left alone and nothing is signalled, in every mode. *)
Theorem Add_zeros_and_infinities (h : heap) (z x y : ptr) :
  (is_zero (form (h x)) /\ is_zero (form (h y))) \/
  (is_inf (form (h x)) /\
   (is_zero (form (h y)) \/ form (h y) = finite \/ form (h y) = form (h x))) \/
  (is_inf (form (h y)) /\ (is_zero (form (h x)) \/ form (h x) = finite)) ->
  exists h',
    Add z x y h = Ok z h' /\
    form (h' z) =
      (if (form (h x) =? pinf) || (form (h x) =? ninf) then form (h x)
       else if (form (h y) =? pinf) || (form (h y) =? ninf) then form (h y)
       else if (form (h x) =? nzero) && (form (h y) =? nzero) then nzero
       else zero) /\
    ctx (h' z) = ctx (h z) /\
    (forall p, p <> z -> h' p = h p).
Proof.
  intros H. unfold Add, checkNaNs.
  destruct H as [[Hx Hy]|[[Hx Hy]|[Hy Hx]]].
  - kinds Hx; kinds Hy; exec_with ltac:(rewrite ?Hx, ?Hy); form_result.
  - assert (Hset := Set_form_only h z x (or_intror Hx)).
    destruct Hset as (h' & E & F & K & O).
    assert (Hyx : form (h y) = form (h x) -> form (h y) = pinf \/ form (h y) = ninf).
    { intros ->. exact Hx. }
    kinds Hx; destruct Hy as [Hy|[Hy|Hy]]; try (rewrite Hx in Hy); kinds Hy;
      exec_with ltac:(rewrite ?Hx, ?Hy); rewrite E; exists h';
      rewrite F, Hx; repeat split; auto.
  - assert (Hset := Set_form_only h z y (or_intror Hy)).
    destruct Hset as (h' & E & F & K & O).
    kinds Hy; kinds Hx;
      exec_with ltac:(rewrite ?Hx, ?Hy); rewrite E; exists h';
      rewrite F, Hy; repeat split; auto.
Qed.

Lemma Add_zeros_and_infinities_witness :
  let h := heap3 Big0 (special nzero) (special nzero) in
  exists h',
    Add 0%nat 1%nat 2%nat h = Ok 0%nat h' /\
    form (h' 0%nat) =
      (if (form (h 1%nat) =? pinf) || (form (h 1%nat) =? ninf) then form (h 1%nat)
       else if (form (h 2%nat) =? pinf) || (form (h 2%nat) =? ninf) then form (h 2%nat)
       else if (form (h 1%nat) =? nzero) && (form (h 2%nat) =? nzero) then nzero
       else zero) /\
    ctx (h' 0%nat) = ctx (h 0%nat) /\
    (forall p, p <> 0%nat -> h' p = h p).
Proof.
  intros h. apply (Add_zeros_and_infinities h 0%nat 1%nat 2%nat).
  left. split; right; reflexivity.
Defined.

(** Sub with a zero or an infinity among its operands, the cases that are
    not invalid and do not copy or negate a finite operand: two zeros give
    +0 whatever their signs; an infinity minus a zero, a finite value or
    the opposite infinity gives that infinity; a zero or a finite value
    minus an infinity gives the opposite infinity.  The Context of z and
    every other Big are left alone and nothing is signalled, in every
    mode. *)
Theorem Sub_zeros_and_infinities (h : heap) (z x y : ptr) :
  (is_zero (form (h x)) /\ is_zero (form (h y))) \/
  (is_inf (form (h x)) /\
   (is_zero (form (h y)) \/ form (h y) = finite \/
    (is_inf (form (h y)) /\ form (h y) <> form (h x)))) \/
  (is_inf (form (h y)) /\ (is_zero (form (h x)) \/ form (h x) = finite)) ->
  exists h',
    Sub z x y h = Ok z h' /\
    form (h' z) =
      (if (form (h x) =? pinf) || (form (h x) =? ninf) then form (h x)
       else if form (h y) =? pinf then ninf
       else if form (h y) =? ninf then pinf
       else zero) /\
    ctx (h' z) = ctx (h z) /\
    (forall p, p <> z -> h' p = h p).
Proof.
  intros H. unfold Sub, Neg, checkNaNs.
  destruct H as [[Hx Hy]|[[Hx Hy]|[Hy Hx]]].
  - kinds Hx; kinds Hy; exec_with ltac:(rewrite ?Hx, ?Hy); form_result.
  - assert (Hset := Set_form_only h z x (or_intror Hx)).
    destruct Hset as (h' & E & F & K & O).
    kinds Hx; destruct Hy as [Hy|[Hy|[Hy Hne]]]; kinds Hy;
      try (exfalso; apply Hne; congruence);
      exec_with ltac:(rewrite ?Hx, ?Hy); rewrite E; exists h';
      rewrite F, Hx; repeat split; auto.
  - kinds Hy; kinds Hx; exec_with ltac:(rewrite ?Hx, ?Hy); form_result.
Qed.

Lemma Sub_zeros_and_infinities_witness :
  let h := heap3 Big0 (New 5 0) (special pinf) in
  exists h',
    Sub 0%nat 1%nat 2%nat h = Ok 0%nat h' /\
    form (h' 0%nat) =
      (if (form (h 1%nat) =? pinf) || (form (h 1%nat) =? ninf) then form (h 1%nat)
       else if form (h 2%nat) =? pinf then ninf
       else if form (h 2%nat) =? ninf then pinf
       else zero) /\
    ctx (h' 0%nat) = ctx (h 0%nat) /\
    (forall p, p <> 0%nat -> h' p = h p).
Proof.
  intros h. apply (Sub_zeros_and_infinities h 0%nat 1%nat 2%nat).
  right. right. split; [left; reflexivity | right; reflexivity].
Defined.

(** Mul with a zero or an infinity among its operands, the cases that are
    not invalid: a zero times a zero or a finite value gives +0 whatever the
    signs; an infinity times an infinity or a finite value gives +Inf when
    Sign reports the same sign for both operands and -Inf otherwise.  Only
    the form of z is written and nothing is signalled, in every mode and
    for every aliasing. *)
Theorem Mul_zeros_and_infinities (h : heap) (z x y : ptr) :
  (is_zero (form (h x)) /\ (is_zero (form (h y)) \/ form (h y) = finite)) \/
  (form (h x) = finite /\ is_zero (form (h y))) \/
  (is_inf (form (h x)) /\ (is_inf (form (h y)) \/ form (h y) = finite)) \/
  (form (h x) = finite /\ is_inf (form (h y))) ->
  exists h',
    Mul z x y h = Ok z h' /\
    only_form h h' z
      (if is_zero_b (form (h x)) || is_zero_b (form (h y)) then zero
       else if Sign_ (h x) =? Sign_ (h y) then pinf else ninf).
Proof.
  intros H. unfold Mul, checkNaNs, is_zero_b.
  destruct H as [[Hx Hy]|[[Hx Hy]|[[Hx Hy]|[Hx Hy]]]];
    kinds Hx; kinds Hy;
    destruct (Sign_ (h x) =? Sign_ (h y)) eqn:Es;
    exec_with ltac:(rewrite ?Hx, ?Hy, ?Es); only_form_result.
Qed.

Lemma Mul_zeros_and_infinities_witness :
  let h := heap3 Big0 (special ninf) (New 3 0) in
  exists h',
    Mul 0%nat 1%nat 2%nat h = Ok 0%nat h' /\
    only_form h h' 0%nat
      (if is_zero_b (form (h 1%nat)) || is_zero_b (form (h 2%nat)) then zero
       else if Sign_ (h 1%nat) =? Sign_ (h 2%nat) then pinf else ninf).
Proof.
  intros h. apply (Mul_zeros_and_infinities h 0%nat 1%nat 2%nat).
  right. right. left. split; [right; reflexivity | right; reflexivity].
Defined.

Ltac invalid_result_tac Hm :=
  unfold invalid_result, signal;
  exec_with ltac:(rewrite ?Hm);
  match goal with
  | |- context [Z.land InvalidOperation ?t =? 0] =>
      destruct (Z.land InvalidOperation t =? 0)
  end;
  exec; eexists; (split; [reflexivity|]); exec; split; reflexivity.

(** The invalid operations on infinities and zeros, in GDA mode: the sum of
    opposite infinities, the difference of equal infinities, the product of
    a zero and an infinity, and the quotient of two infinities each leave
    z a quiet NaN with Conditions = InvalidOperation, and return. *)
Theorem Invalid_operations_GDA (h : heap) (z x y : ptr) :
  OperatingMode (ctx (h z)) = GDA ->
  (is_inf (form (h x)) -> is_inf (form (h y)) -> form (h x) <> form (h y) ->
   invalid_result z (Add z x y h)) /\
  (is_inf (form (h x)) -> form (h y) = form (h x) ->
   invalid_result z (Sub z x y h)) /\
  ((is_zero (form (h x)) /\ is_inf (form (h y))) \/
   (is_inf (form (h x)) /\ is_zero (form (h y))) ->
   invalid_result z (Mul z x y h)) /\
  (is_inf (form (h x)) -> is_inf (form (h y)) ->
   invalid_result z (Quo z x y h)).
Proof.
  intros Hm. split; [|split; [|split]].
  - intros Hx Hy Hne. unfold Add, checkNaNs.
    kinds Hx; kinds Hy; try (exfalso; apply Hne; congruence);
      exec_with ltac:(rewrite ?Hx, ?Hy); invalid_result_tac Hm.
  - intros Hx Hy. unfold Sub, checkNaNs.
    kinds Hx; rewrite Hx in Hy;
      exec_with ltac:(rewrite ?Hx, ?Hy); invalid_result_tac Hm.
  - intros [[Hx Hy]|[Hx Hy]]; unfold Mul, checkNaNs;
      kinds Hx; kinds Hy;
      exec_with ltac:(rewrite ?Hx, ?Hy); invalid_result_tac Hm.
  - intros Hx Hy. unfold Quo, checkNaNs.
    kinds Hx; kinds Hy;
      exec_with ltac:(rewrite ?Hx, ?Hy); invalid_result_tac Hm.
Qed.

Lemma Invalid_operations_GDA_witness :
  let h := heap3 (inContext ContextGDA Big0) (special pinf) (special ninf) in
  invalid_result 0%nat (Add 0%nat 1%nat 2%nat h) /\
  invalid_result 0%nat (Quo 0%nat 1%nat 2%nat h).
Proof.
  intros h.
  destruct (Invalid_operations_GDA h 0%nat 1%nat 2%nat) as (HA & _ & _ & HQ).
  - reflexivity.
  - split.
    + apply HA; [left; reflexivity | right; reflexivity | discriminate].
    + apply HQ; [left; reflexivity | right; reflexivity].
Defined.

(** ** Condition bits across an operation *)

Lemma bits_kept_refl c : bits_kept c c.
Proof. apply Z.land_diag. Qed.

Lemma bits_kept_trans a b c : bits_kept a b -> bits_kept b c -> bits_kept a c.
Proof.
  unfold bits_kept. intros H1 H2.
  rewrite <- H1 at 1. rewrite <- Z.land_assoc, H2. exact H1.
Qed.

Lemma bits_kept_lor a b c : bits_kept a b -> bits_kept a (Z.lor b c).
Proof.
  unfold bits_kept. intros H.
  rewrite Z.land_lor_distr_r, H.
  apply Z.bits_inj'. intros n Hn.
  rewrite Z.lor_spec, Z.land_spec.
  destruct (Z.testbit a n); reflexivity.
Qed.

Lemma kept_or_raised_moved h0 z h : kept_or_raised h0 z h -> conditions_moved h0 z h.
Proof.
  intros [(_ & Hb & Hf)|(Hs & Hn & Hf)]; split; auto.
Qed.

Lemma kept_start h z : OperatingMode (ctx (h z)) = GDA -> kept h z h.
Proof. intros H. repeat split; auto. apply bits_kept_refl. Qed.

Lemma kept_quiet h0 z h h' :
  (forall p, ctx (h' p) = ctx (h p)) -> kept h0 z h -> kept h0 z h'.
Proof.
  intros Hq (Hm & Hb & Hf). unfold kept. rewrite Hq. repeat split; auto.
  intros p Hp. rewrite Hq. auto.
Qed.

(** *** Rules *)

Lemma tri_ret {A} (P : heap -> Prop) (a : A) (Q : A -> heap -> Prop) E :
  (forall h, P h -> Q a h) -> tri P (ret a) Q E.
Proof. intros H h Hp. apply H, Hp. Qed.

Lemma tri_bind {A B} (P : heap -> Prop) (m : M A) (k : A -> M B)
      (Q' : A -> heap -> Prop) (Q : B -> heap -> Prop) E :
  tri P m Q' E -> (forall a, tri (Q' a) (k a) Q E) -> tri P (bind m k) Q E.
Proof.
  intros Hm Hk h Hp. unfold bind. specialize (Hm h Hp).
  destruct (m h) as [a h'|e h']; [apply (Hk a h' Hm) | exact Hm].
Qed.

Lemma tri_pre {A} (P P' : heap -> Prop) (m : M A) Q E :
  (forall h, P h -> P' h) -> tri P' m Q E -> tri P m Q E.
Proof. intros H Ht h Hp. apply Ht, H, Hp. Qed.

Lemma tri_quietv {A} h0 z (V : A -> Prop) (m : M A) :
  quietv V m -> tri (kept h0 z) m (fun a h => V a /\ kept h0 z h) (kept_or_raised h0 z).
Proof.
  intros Hq h Hk. specialize (Hq h).
  destruct (m h) as [a h'|e h'].
  - destruct Hq as [Hv Hq]. split; [exact Hv|]. eapply kept_quiet; eauto.
  - left. eapply kept_quiet; eauto.
Qed.

Lemma tri_bind_quiet {A B} h0 z (m : M A) (k : A -> M B) Q :
  quiet m -> (forall a, tri (kept h0 z) (k a) Q (kept_or_raised h0 z)) ->
  tri (kept h0 z) (bind m k) Q (kept_or_raised h0 z).
Proof.
  intros Hq Hk. eapply tri_bind; [apply tri_quietv, Hq|].
  intros a h [_ Hh]. apply (Hk a h Hh).
Qed.

Lemma tri_ret_kept h0 z : tri (kept h0 z) (ret z) (returns_receiver h0 z) (kept_or_raised h0 z).
Proof. apply tri_ret. intros h Hk. split; [reflexivity | left; exact Hk]. Qed.

Lemma tri_panic_kept {A} h0 z e (Q : A -> heap -> Prop) :
  tri (kept h0 z) (panic e) Q (kept_or_raised h0 z).
Proof. intros h Hk. left. exact Hk. Qed.

(** *** Quiet computations *)

Lemma quietv_ret {A} (V : A -> Prop) (a : A) : V a -> quietv V (ret a).
Proof. intros Hv h. split; [exact Hv | reflexivity]. Qed.

Lemma quietv_panic {A} (V : A -> Prop) e : quietv V (panic e).
Proof. intros h p. reflexivity. Qed.

Lemma quietv_bind {A B} (V : B -> Prop) (m : M A) (k : A -> M B) :
  quiet m -> (forall a, quietv V (k a)) -> quietv V (bind m k).
Proof.
  intros Hm Hk h. unfold bind. specialize (Hm h).
  destruct (m h) as [a h'|e h']; [|exact Hm].
  destruct Hm as [_ Hm].
  specialize (Hk a h'). destruct (k a h') as [b h''|e h''].
  - destruct Hk as [Hv Hk]. split; [exact Hv|]. intros p. rewrite Hk. apply Hm.
  - intros p. rewrite Hk. apply Hm.
Qed.

Lemma quietv_weaken {A} (V : A -> Prop) (m : M A) : quietv V m -> quiet m.
Proof.
  intros H h. specialize (H h). destruct (m h); [split; [exact I | apply H] | exact H].
Qed.

Lemma quiet_rd {A} p (f : Big -> A) : quiet (rd p f).
Proof. intros h. split; [exact I | reflexivity]. Qed.

Lemma quiet_wr p (f : Big -> Big) :
  (forall b, ctx (f b) = ctx b) -> quiet (wr p f).
Proof.
  intros Hf h. split; [exact I|]. intros q. unfold upd.
  destruct (Nat.eqb_spec q p) as [->|_]; auto.
Qed.

Lemma quiet_rdb r : quiet (rdb r).
Proof. destruct r; [apply quiet_rd | apply quietv_ret; exact I]. Qed.

Lemma quiet_MulBigPow10 r n : quiet (checked_MulBigPow10 r n).
Proof.
  unfold checked_MulBigPow10. destruct r.
  - apply quietv_bind; [apply quiet_rd|]. intros v.
    apply quietv_bind; [apply quiet_wr; reflexivity|]. intros ?.
    apply quietv_ret; exact I.
  - apply quietv_ret; exact I.
Qed.

Create HintDb quiet.

Ltac quiet_step :=
  match goal with
  | |- quiet _ => unfold quiet
  | |- quietv _ (bind _ _) => apply quietv_bind; [|intros ?]
  | |- quietv _ (ret _) => apply quietv_ret; first [exact I | reflexivity]
  | |- quietv _ (panic _) => apply quietv_panic
  | |- quietv _ (rd _ _) => apply quiet_rd
  | |- quietv _ (rdc _ _) => apply quiet_rd
  | |- quietv _ (rdb _) => apply quiet_rdb
  | |- quietv _ (checked_MulBigPow10 _ _) => apply quiet_MulBigPow10
  | |- quietv _ (wr _ _) => apply quiet_wr; reflexivity
  | |- quietv _ (set_form _ _) => apply quiet_wr; reflexivity
  | |- quietv _ (set_compact _ _) => apply quiet_wr; reflexivity
  | |- quietv _ (set_scale _ _) => apply quiet_wr; reflexivity
  | |- quietv _ (set_unscaled _ _) => apply quiet_wr; reflexivity
  | |- quietv _ (isCompact _) => apply quiet_rd
  | |- quietv _ (isInflated _) => apply quiet_rd
  | |- quietv _ (Precision _) => apply quiet_rd
  | |- quietv _ (Sign _) => apply quiet_rd
  | |- quietv _ (Signbit _) => apply quiet_rd
  | |- quietv _ (if ?c then _ else _) => destruct c
  | |- quietv _ (match ?c with _ => _ end) => destruct c
  | |- _ => progress cbv beta zeta
  | |- quietv (fun _ => True) ?m =>
      first [ solve [change (quiet m); auto with quiet]
            | solve [eapply quietv_weaken; auto with quiet] ]
  | |- quietv _ _ => solve [auto with quiet]
  end.

Ltac quiet_tac := repeat quiet_step.

Lemma quiet_bigOf x : quiet (bigOf x).
Proof. unfold bigOf. quiet_tac. Qed.
#[export] Hint Resolve quiet_bigOf : quiet.

Lemma quiet_needsInc z x r pos odd : quiet (needsInc z x r pos odd).
Proof. unfold needsInc. quiet_tac. Qed.

Lemma quiet_needsIncBig z x r pos odd : quiet (needsIncBig z x r pos odd).
Proof. unfold needsIncBig. quiet_tac. Qed.

Lemma quiet_cmpNormBig xb xp yb yp : quiet (cmpNormBig xb xp yb yp).
Proof. unfold cmpNormBig. quiet_tac. Qed.

Lemma quiet_quo64 x y : quiet (quo64 x y).
Proof. unfold quo64. quiet_tac. Qed.

Lemma quiet_rem64 x y : quiet (rem64 x y).
Proof. unfold rem64. quiet_tac. Qed.
#[export] Hint Resolve quiet_needsInc quiet_needsIncBig quiet_cmpNormBig
  quiet_quo64 quiet_rem64 : quiet.

Lemma quiet_addCompact z x y : quietv (fun r => r = z) (addCompact z x y).
Proof. unfold addCompact. quiet_tac. Qed.

Lemma quiet_addBig z x y : quietv (fun r => r = z) (addBig z x y).
Proof. unfold addBig. quiet_tac. Qed.

Lemma quiet_subBig z x y : quietv (fun r => r = z) (subBig z x y).
Proof. unfold subBig. quiet_tac. Qed.
#[export] Hint Resolve quiet_subBig : quiet.

Lemma quiet_subCompact z x y : quietv (fun r => r = z) (subCompact z x y).
Proof. unfold subCompact. quiet_tac. Qed.
#[export] Hint Resolve quiet_addCompact quiet_addBig quiet_subCompact : quiet.

(** *** Writes to the Context of the receiver *)

Lemma tri_rd_any {A} (P : heap -> Prop) p (f : Big -> A) E :
  tri P (rd p f) (fun _ => P) E.
Proof. intros h Hp. exact Hp. Qed.

Lemma tri_wrc_keep h0 z (f : Context -> Context) :
  (forall k, OperatingMode (f k) = OperatingMode k) ->
  (forall k, bits_kept (Conditions k) (Conditions (f k))) ->
  tri (kept h0 z) (wrc z f) (fun _ => kept h0 z) (kept_or_raised h0 z).
Proof.
  intros Hm Hb h (Km & Kb & Kf). unfold wrc, wr, kept.
  rewrite upd_same. cbn [ctx with_ctx]. rewrite Hm. split; [exact Km|]. split.
  - eapply bits_kept_trans; [exact Kb | apply Hb].
  - intros p Hp. rewrite upd_other by exact Hp. auto.
Qed.

Lemma tri_set_form_nonfinite h0 z f :
  f <> finite ->
  tri (kept h0 z) (set_form z f) (fun _ => kept_nonfinite h0 z) (kept_or_raised h0 z).
Proof.
  intros Hf h Hk. unfold set_form, wr. split.
  - eapply kept_quiet; [|exact Hk]. intros p. unfold upd.
    destruct (Nat.eqb_spec p z) as [->|_]; reflexivity.
  - rewrite upd_same. exact Hf.
Qed.

Lemma tri_signal_nonfinite h0 z c e :
  signalled c ->
  tri (kept_nonfinite h0 z) (signal z c e) (returns_receiver h0 z) (kept_or_raised h0 z).
Proof.
  intros Hc h ((Km & Kb & Kf) & Hn). unfold signal.
  exec_with ltac:(rewrite ?Km).
  destruct (negb (Z.land c (Traps (ctx (h z))) =? 0)); exec;
    (split; [reflexivity|]); right; unfold raised; exec;
    (split; [exact Hc|]); (split; [exact Hn|]);
    intros p Hp; heap_norm; auto.
Qed.

Lemma tri_ret_nonfinite h0 z : tri (kept_nonfinite h0 z) (ret z) (returns_receiver h0 z) (kept_or_raised h0 z).
Proof. apply tri_ret. intros h [Hk _]. split; [reflexivity | left; exact Hk]. Qed.

Lemma signalled_overflow : signalled (Z.lor (Z.lor Overflow Inexact) Rounded).
Proof. unfold signalled. auto. Qed.

Lemma signalled_underflow :
  signalled (Z.lor (Z.lor (Z.lor Underflow Inexact) Rounded) Subnormal).
Proof. unfold signalled. auto 6. Qed.

Lemma tri_set_form_signal h0 z f c e :
  f <> finite -> signalled c ->
  tri (kept h0 z) (set_form z f ;;; signal z c e) (returns_receiver h0 z) (kept_or_raised h0 z).
Proof.
  intros Hf Hc. eapply tri_bind; [apply tri_set_form_nonfinite, Hf|].
  intros ?. apply tri_signal_nonfinite, Hc.
Qed.

Lemma tri_xflow h0 z over neg :
  tri (kept h0 z) (xflow z over neg) (returns_receiver h0 z) (kept_or_raised h0 z).
Proof.
  unfold xflow. destruct over.
  - destruct neg; apply tri_set_form_signal;
      solve [discriminate | apply signalled_overflow].
  - apply tri_bind_quiet; [apply quiet_wr; reflexivity|]. intros ?.
    destruct neg; apply tri_set_form_signal;
      solve [discriminate | apply signalled_underflow].
Qed.

Lemma tri_checkNaNs_spec h0 z x y op :
  tri (kept h0 z) (checkNaNs z x y op)
      (fun ce h => snd ce = None /\ kept h0 z h \/
                   (exists e, snd ce = Some e) /\ kept_nonfinite h0 z h /\ signalled (fst ce))
      (kept_or_raised h0 z).
Proof.
  unfold checkNaNs.
  eapply tri_bind; [apply tri_rd_any|]. intros xf.
  eapply tri_bind; [apply tri_rd_any|]. intros yf.
  cbv zeta. destruct (Z.land (Z.lor xf yf) nan =? 0).
  - apply tri_ret. intros h Hh. left. split; [reflexivity | exact Hh].
  - eapply tri_bind; [apply tri_set_form_nonfinite; discriminate|]. intros ?.
    apply tri_ret. intros h Hh. right. split; [eexists; reflexivity|].
    split; [exact Hh|]. cbn [fst]. unfold signalled.
    destruct (negb (Z.land (Z.land (Z.lor xf yf) nan) snan =? 0)); auto.
Qed.

Lemma tri_checkNaNs h0 z x y op (k : Z * option error -> M ptr) :
  (forall ce e, snd ce = Some e -> k ce = signal z (fst ce) (Some e)) ->
  (forall ce, snd ce = None -> tri (kept h0 z) (k ce) (returns_receiver h0 z) (kept_or_raised h0 z)) ->
  tri (kept h0 z) (bind (checkNaNs z x y op) k) (returns_receiver h0 z) (kept_or_raised h0 z).
Proof.
  intros Hs Hn. eapply tri_bind; [apply tri_checkNaNs_spec|].
  intros ce h [[Hc Hk]|[[e He] [Hk Hsig]]].
  - apply (Hn ce Hc h Hk).
  - rewrite (Hs ce e He). apply (tri_signal_nonfinite h0 z _ _ Hsig h Hk).
Qed.

(** *** The methods *)

Create HintDb tri.

Ltac ctx_side :=
  intros ?; unfold Context_SetPrecision, with_precision, with_Conditions;
  repeat match goal with |- context [if ?c then _ else _] => destruct c end;
  cbn [OperatingMode Conditions];
  first [ reflexivity | apply bits_kept_refl | apply bits_kept_lor, bits_kept_refl ].

Ltac tstep :=
  match goal with
  | |- tri (kept _ ?z) (ret ?z) (returns_receiver _ ?z) _ => apply tri_ret_kept
  | |- tri (kept _ _) (panic _) _ _ => apply tri_panic_kept
  | |- tri (kept _ _) (xflow _ _ _) _ _ => apply tri_xflow
  | |- tri (kept _ _) (set_form _ _ ;;; signal _ _ _) _ _ =>
      apply tri_set_form_signal; [discriminate | unfold signalled; auto 6]
  | |- tri (kept _ _) (bind (checkNaNs _ _ _ _) _) _ _ =>
      apply tri_checkNaNs;
      [ intros [? [?|]] ? ?; cbn [fst snd] in *; [congruence | discriminate]
      | intros [? [?|]] ?; cbn [fst snd] in *; [discriminate|] ]
  | |- tri (kept _ _) (bind (wrc _ _) _) _ _ =>
      eapply tri_bind; [apply tri_wrc_keep; ctx_side | intros ?]
  | |- tri (kept _ _) (bind ?m _) _ _ =>
      apply tri_bind_quiet; [solve [quiet_tac] | intros ?]
  | |- tri _ (if ?c then _ else _) _ _ => destruct c
  | |- tri _ (match ?c with _ => _ end) _ _ => destruct c
  | |- _ => progress cbv beta zeta
  | |- tri _ _ _ _ => solve [auto with tri]
  end.

Ltac tri_tac := repeat tstep.

Lemma tri_simplify_loop h0 z fuel :
  forall prec,
  tri (kept h0 z) (simplify_loop fuel z prec) (returns_receiver h0 z) (kept_or_raised h0 z).
Proof.
  induction fuel as [|k IH]; intros prec; cbn [simplify_loop].
  - tri_tac.
  - tri_tac; try apply IH.
Qed.
#[export] Hint Resolve tri_simplify_loop : tri.

Lemma tri_simplify h0 z : tri (kept h0 z) (simplify z) (returns_receiver h0 z) (kept_or_raised h0 z).
Proof. unfold simplify. tri_tac. Qed.
#[export] Hint Resolve tri_simplify : tri.

Lemma tri_quoAndRound h0 z x y :
  tri (kept h0 z) (quoAndRound z x y) (returns_receiver h0 z) (kept_or_raised h0 z).
Proof. unfold quoAndRound. tri_tac. Qed.
#[export] Hint Resolve tri_quoAndRound : tri.

Lemma tri_simplifyBig_loop h0 z fuel :
  forall prec,
  tri (kept h0 z) (simplifyBig_loop fuel z prec) (returns_receiver h0 z) (kept_or_raised h0 z).
Proof.
  induction fuel as [|k IH]; intros prec; cbn [simplifyBig_loop].
  - tri_tac.
  - tri_tac; try apply IH.
Qed.
#[export] Hint Resolve tri_simplifyBig_loop : tri.

Lemma tri_simplifyBig h0 z : tri (kept h0 z) (simplifyBig z) (returns_receiver h0 z) (kept_or_raised h0 z).
Proof. unfold simplifyBig. tri_tac. Qed.
#[export] Hint Resolve tri_simplifyBig : tri.

Lemma tri_quoBigAndRound h0 z x y :
  tri (kept h0 z) (quoBigAndRound z x y) (returns_receiver h0 z) (kept_or_raised h0 z).
Proof. unfold quoBigAndRound. tri_tac. Qed.
#[export] Hint Resolve tri_quoBigAndRound : tri.

Lemma tri_Round h0 z n : tri (kept h0 z) (Round z n) (returns_receiver h0 z) (kept_or_raised h0 z).
Proof. unfold Round. tri_tac. Qed.
#[export] Hint Resolve tri_Round : tri.

Lemma tri_round h0 z : tri (kept h0 z) (round z) (returns_receiver h0 z) (kept_or_raised h0 z).
Proof. unfold round. tri_tac. Qed.

(** round after a method that may have signalled: on a receiver that is
    not finite it does nothing. *)
Lemma tri_round_returned h0 z r :
  tri (returns_receiver h0 z r) (round r) (returns_receiver h0 z) (kept_or_raised h0 z).
Proof.
  intros h [-> [Hk|Hj]].
  - apply (tri_round h0 z h Hk).
  - destruct Hj as (Hs & Hn & Hf).
    unfold round, Round. exec.
    assert (E : (form (h z) =? finite) = false) by (apply Z.eqb_neq; exact Hn).
    destruct (negb (Context_Precision (ctx (h z)) =? 0)
              && (OperatingMode (ctx (h z)) =? GDA)); exec.
    + rewrite E. cbn [negb]. rewrite orb_true_r.
      split; [reflexivity|]. right. repeat split; auto.
    + split; [reflexivity|]. right. repeat split; auto.
Qed.

Lemma tri_round_after h0 z (m : M ptr) :
  tri (kept h0 z) m (returns_receiver h0 z) (kept_or_raised h0 z) ->
  tri (kept h0 z) (r <- m ;; round r) (returns_receiver h0 z) (kept_or_raised h0 z).
Proof.
  intros Hm. eapply tri_bind; [exact Hm|]. intros r. apply tri_round_returned.
Qed.

Lemma tri_quiet_z h0 z (m : M ptr) :
  quietv (fun r => r = z) m -> tri (kept h0 z) m (returns_receiver h0 z) (kept_or_raised h0 z).
Proof.
  intros Hq h Hk. pose proof (tri_quietv h0 z _ m Hq h Hk) as H.
  destruct (m h) as [r h'|e h']; [|exact H].
  destruct H as [-> H]. split; [reflexivity | left; exact H].
Qed.

Lemma tri_Set h0 z x : tri (kept h0 z) (Set_ z x) (returns_receiver h0 z) (kept_or_raised h0 z).
Proof.
  unfold Set_. tri_tac.
  eapply tri_bind; [apply tri_Round|]. intros r h [_ H]. split; [reflexivity | exact H].
Qed.
#[export] Hint Resolve tri_Set : tri.

Lemma tri_mulCompact h0 z x y :
  tri (kept h0 z) (mulCompact z x y) (returns_receiver h0 z) (kept_or_raised h0 z).
Proof. unfold mulCompact. tri_tac. Qed.

Lemma tri_mulBig h0 z x y :
  tri (kept h0 z) (mulBig z x y) (returns_receiver h0 z) (kept_or_raised h0 z).
Proof. unfold mulBig. tri_tac. Qed.

Lemma tri_quoCompactCore h0 z x xs xp y ys yp :
  tri (kept h0 z) (quoCompactCore z x xs xp y ys yp) (returns_receiver h0 z) (kept_or_raised h0 z).
Proof. unfold quoCompactCore. tri_tac. Qed.
#[export] Hint Resolve tri_quoCompactCore : tri.

Lemma tri_quoCompact h0 z x y :
  tri (kept h0 z) (quoCompact z x y) (returns_receiver h0 z) (kept_or_raised h0 z).
Proof. unfold quoCompact. tri_tac. Qed.

Lemma tri_quoBigCore h0 z xb xc xs xp yb yc ys yp :
  tri (kept h0 z) (quoBigCore z xb xc xs xp yb yc ys yp) (returns_receiver h0 z) (kept_or_raised h0 z).
Proof. unfold quoBigCore. tri_tac. Qed.
#[export] Hint Resolve tri_quoBigCore : tri.

Lemma tri_quoBig h0 z x y :
  tri (kept h0 z) (quoBig z x y) (returns_receiver h0 z) (kept_or_raised h0 z).
Proof. unfold quoBig. tri_tac. Qed.
#[export] Hint Resolve tri_mulCompact tri_mulBig tri_quoCompact tri_quoBig : tri.

Ltac ostep :=
  match goal with
  | |- tri (kept _ _) (bind _ (fun r => round r)) _ _ =>
      apply tri_round_after;
      first [ apply tri_quiet_z; solve [quiet_tac] | solve [auto with tri] ]
  | |- tri (kept _ ?z) (bind (set_form ?z ninf) _) _ _ =>
      eapply tri_bind; [apply tri_set_form_nonfinite; discriminate | intros ?]
  | |- tri (kept _ ?z) (bind (set_form ?z pinf) _) _ _ =>
      eapply tri_bind; [apply tri_set_form_nonfinite; discriminate | intros ?]
  | |- tri (kept _ _) (bind (if ?c then _ else _) _) _ _ => destruct c
  | |- tri (kept_nonfinite _ _) (bind (rd _ _) _) _ _ =>
      eapply tri_bind; [apply tri_rd_any | intros ?]
  | |- tri (kept_nonfinite _ ?z) (ret ?z) _ _ => apply tri_ret_nonfinite
  | |- tri (kept_nonfinite _ _) (signal _ _ _) _ _ =>
      apply tri_signal_nonfinite; unfold signalled; auto 6
  | |- _ => tstep
  end.

Ltac op_tac := repeat ostep.

Lemma tri_Neg h0 z x : tri (kept h0 z) (Neg z x) (returns_receiver h0 z) (kept_or_raised h0 z).
Proof. unfold Neg. op_tac. Qed.
#[export] Hint Resolve tri_Neg : tri.

Lemma tri_Abs h0 z x : tri (kept h0 z) (Abs z x) (returns_receiver h0 z) (kept_or_raised h0 z).
Proof. unfold Abs. op_tac. Qed.

Lemma tri_Add h0 z x y : tri (kept h0 z) (Add z x y) (returns_receiver h0 z) (kept_or_raised h0 z).
Proof. unfold Add. op_tac. Qed.

Lemma tri_Sub h0 z x y : tri (kept h0 z) (Sub z x y) (returns_receiver h0 z) (kept_or_raised h0 z).
Proof. unfold Sub. op_tac. Qed.

Lemma tri_Mul h0 z x y : tri (kept h0 z) (Mul z x y) (returns_receiver h0 z) (kept_or_raised h0 z).
Proof. unfold Mul. op_tac. Qed.

Lemma tri_Quo h0 z x y : tri (kept h0 z) (Quo z x y) (returns_receiver h0 z) (kept_or_raised h0 z).
Proof. unfold Quo. op_tac. Qed.

Lemma tri_outcome h z (m : M ptr) :
  OperatingMode (ctx (h z)) = GDA ->
  tri (kept h z) m (returns_receiver h z) (kept_or_raised h z) ->
  conditions_kept_or_signalled h z (m h).
Proof.
  intros Hm Ht. specialize (Ht h (kept_start h z Hm)).
  unfold conditions_kept_or_signalled.
  destruct (m h) as [r h'|e h'].
  - apply kept_or_raised_moved, Ht.
  - apply kept_or_raised_moved, Ht.
Qed.

Lemma tri_Cmp h0 z x :
  tri (kept h0 z) (Cmp z x) (fun _ => kept_or_raised h0 z) (kept_or_raised h0 z).
Proof.
  unfold Cmp. destruct (Nat.eqb z x).
  { apply tri_ret. intros h Hk. left. exact Hk. }
  eapply tri_bind; [apply tri_checkNaNs_spec|].
  intros [c [e|]]; cbn [fst snd].
  - intros h [[Hc _]|[_ [Hk Hs]]]; [discriminate|].
    refine (tri_bind _ _ _ _ _ _ (tri_signal_nonfinite h0 z c _ Hs) _ h Hk).
    intros r. apply tri_ret. intros h' [_ H]. exact H.
  - eapply tri_pre with (P' := kept h0 z).
    { intros h [[_ Hk]|[[e He] _]]; [exact Hk | discriminate]. }
    intros h Hk.
    match goal with
    | |- match ?m h with _ => _ end =>
        assert (Hq : quiet m) by quiet_tac;
        pose proof (tri_quietv h0 z _ m Hq h Hk) as H;
        destruct (m h) as [r h'|e' h']; [left; apply H | exact H]
    end.
Qed.

Lemma tri_outcome_any {A} h z (m : M A) :
  OperatingMode (ctx (h z)) = GDA ->
  tri (kept h z) m (fun _ => kept_or_raised h z) (kept_or_raised h z) ->
  conditions_kept_or_signalled h z (m h).
Proof.
  intros Hm Ht. specialize (Ht h (kept_start h z Hm)).
  unfold conditions_kept_or_signalled.
  destruct (m h) as [r h'|e h']; apply kept_or_raised_moved, Ht.
Qed.



(** Both cases occur.  In GDA mode with precision 2 and DivisionByZero
    raised before, 123 + 1 rounds to 1.2e2: Rounded is OR-ed in and
    DivisionByZero stays.  With Inexact raised before, 1 / 0 signals:
    Conditions is DivisionByZero alone. *)
Lemma Conditions_kept_and_signalled_examples :
  let c := mkContext GDA 2 0 DivisionByZero None ToNearestEven in
  let h := heap3 (inContext c Big0) (New 123 0) (New 1 0) in
  let c' := mkContext GDA 0 0 Inexact None ToNearestEven in
  let h' := heap3 (inContext c' Big0) (New 1 0) Big0 in
  conditions_of (Add 0%nat 1%nat 2%nat h) 0%nat = Some (Z.lor DivisionByZero Rounded) /\
  form_of (Add 0%nat 1%nat 2%nat h) 0%nat = Some finite /\
  conditions_of (Quo 0%nat 1%nat 2%nat h') 0%nat = Some DivisionByZero /\
  form_of (Quo 0%nat 1%nat 2%nat h') 0%nat = Some pinf.
Proof. vm_compute. repeat split; reflexivity. Qed.

(** ** Parsing and printing numerals *)



(** String on a finite x writes a decimal numeral for the same number: a
    minus sign exactly when the magnitude is negative, then digits, an
    optional fraction and an optional exponent whose digits and exponent
    stand for the magnitude of x at its scale, up to trailing zeros of the
    magnitude that the numeral does not show.  Nothing is written to the
    heap.  A negative scale needs the adjusted exponent to fit an int32. *)
Theorem String_writes_numeral (h : heap) (x : ptr) :
  form (h x) = finite -> MinInt64 <= compact (h x) <= MaxInt64 ->
  MinInt32 <= scale (h x) <= MaxInt32 ->
  (scale (h x) < 0 -> len (utoa (Z.abs (mag (h x)))) - 1 - scale (h x) <= MaxInt32) ->
  exists ip fp ex k,
    String_ x h = Ok (numeral (mag (h x) <? 0) ip fp ex) h /\
    renders ip fp ex (mag (h x)) (scale (h x)) k.
Proof. exact (String_finite h x). Qed.

Lemma String_writes_numeral_witness :
  let h := heap3 Big0 (New (-1250) 1) Big0 in
  let x := 1%nat in
  exists ip fp ex k,
    String_ x h = Ok (numeral (mag (h x) <? 0) ip fp ex) h /\
    renders ip fp ex (mag (h x)) (scale (h x)) k.
Proof.
  intros h x.
  apply (String_writes_numeral h x).
  - reflexivity.
  - split; vm_compute; discriminate.
  - split; vm_compute; discriminate.
  - intros C. vm_compute in C. discriminate C.
Defined.

(** ** Context precision *)

(** SetPrecision followed by Precision gives back the precision that was
    set, with one exception: -1 is the stored mark of an unlimited precision
    and reads back as 0.  SetPrecision writes no other field. *)
Theorem SetPrecision_Precision (c : Context) (p : Z) :
  Context_Precision (Context_SetPrecision c p) = (if p =? -1 then 0 else p) /\
  OperatingMode (Context_SetPrecision c p) = OperatingMode c /\
  RoundingMode (Context_SetPrecision c p) = RoundingMode c /\
  Traps (Context_SetPrecision c p) = Traps c /\
  Conditions (Context_SetPrecision c p) = Conditions c /\
  Err (Context_SetPrecision c p) = Err c.
Proof.
  unfold Context_SetPrecision, Context_Precision, with_precision, noPrecision.
  destruct (Z.eqb_spec p 0) as [->|H0]; cbn [precision OperatingMode RoundingMode Traps Conditions Err].
  - repeat split.
  - destruct (Z.eqb_spec p 0); [contradiction|].
    destruct (Z.eqb_spec p (-1)); repeat split.
Qed.

(** ** Division under ToZero *)

Lemma quot_abs_le (a b : Z) : b <> 0 -> Z.abs (Z.quot a b) <= Z.abs a.
Proof.
  intros Hb. rewrite <- Z.quot_abs by exact Hb.
  rewrite <- (Z.quot_1_r (Z.abs a)) at 2.
  apply Z.quot_le_compat_l; lia.
Qed.

Lemma quoAndRound_ToZero (h : heap) (z : ptr) (a b : Z) :
  RoundingMode (ctx (h z)) = ToZero -> b <> 0 ->
  - MaxInt64 <= a <= MaxInt64 ->
  exists h',
    quoAndRound z a b h = Ok z h' /\
    h' z = with_compact (with_form (h z) finite) (Z.quot a b) /\
    (forall p, p <> z -> h' p = h p).
Proof.
  intros Hm Hb Ha. unfold quoAndRound, quo64.
  destruct (Z.eqb_spec b 0) as [|_]; [contradiction|].
  assert (Hq : int64 (Z.quot a b) = Z.quot a b).
  { apply int64_id. pose proof (quot_abs_le a b Hb).
    assert (MinInt64 = - MaxInt64 - 1) by reflexivity. lia. }
  exec_with ltac:(rewrite ?Hq, ?Hm).
  eexists. split; [reflexivity|]. split.
  - heap_norm. reflexivity.
  - intros p Hp. heap_norm. reflexivity.
Qed.

Lemma quoCompactCore_ToZero (h : heap) (z : ptr) (cx xs xp cy ys yp0 : Z) :
  RoundingMode (ctx (h z)) = ToZero -> cy <> 0 ->
  0 <= Context_Precision (ctx (h z)) <= MaxInt32 ->
  1 <= xp <= 19 -> 1 <= yp0 <= 19 ->
  let yp := yp0 - (if cmpNorm cx xp cy yp0 then 1 else 0) in
  let shift := Context_Precision (ctx (h z)) + yp - xp in
  shift <= MaxInt32 ->
  MinInt32 <= xs - ys <= MaxInt32 ->
  MinInt32 <= xs - ys + shift <= MaxInt32 ->
  - MaxInt64 <= cx * 10 ^ Z.max 0 shift <= MaxInt64 ->
  - MaxInt64 <= cy * 10 ^ Z.max 0 (- shift) <= MaxInt64 ->
  exists h',
    quoCompactCore z cx xs xp cy ys yp0 h = Ok z h' /\
    h' z = mkBig (ctx (h z)) (unscaled (h z))
             (Z.quot (cx * 10 ^ Z.max 0 shift) (cy * 10 ^ Z.max 0 (- shift)))
             (xs - ys + shift) finite /\
    (forall p, p <> z -> h' p = h p).
Proof.
  intros Hm Hcy Hzp Hxp Hyp yp shift Hsh Hsd Hsc Hx Hy.
  assert (B : MinInt32 = -2147483648 /\ MaxInt32 = 2147483647) by (split; reflexivity).
  assert (Eyp : (if cmpNorm cx xp cy yp0 then int32 (yp0 - 1) else yp0) = yp).
  { unfold yp. destruct (cmpNorm cx xp cy yp0).
    - apply int32_id. lia.
    - lia. }
  assert (Byp : 0 <= yp <= 19) by (unfold yp; destruct (cmpNorm cx xp cy yp0); lia).
  assert (Esh : shift = Context_Precision (ctx (h z)) + yp - xp) by reflexivity.
  clearbody shift yp.
  remember (Context_Precision (ctx (h z))) as zp eqn:Ezp.
  unfold quoCompactCore, checked_Sub32, checked_Int32, checked_SumSub.
  cbn [fst snd]. rewrite Eyp.
  rewrite (fits32_true (xs - ys)) by lia. cbn [negb].
  rewrite (int32_id (xs - ys)) by lia.
  unfold bind at 1. unfold rdc at 1. unfold rd at 1. rewrite <- Ezp.
  replace (xs - ys + yp - xp + zp) with (xs - ys + shift) by lia.
  rewrite (fits32_true (xs - ys + shift)) by lia. cbn [negb].
  rewrite (int32_id (xs - ys + shift)) by lia.
  unfold bind at 1. unfold set_scale at 1. unfold wr at 1.
  replace (zp + yp - xp) with shift by lia.
  rewrite (fits32_true shift) by lia. cbn [negb].
  rewrite (int32_id shift) by lia.
  set (h1 := upd h z (with_scale (h z) (xs - ys + shift))).
  assert (Hm1 : RoundingMode (ctx (h1 z)) = ToZero).
  { unfold h1. rewrite upd_same. exact Hm. }
  assert (Fin : forall a b h',
            quoAndRound z a b h1 = Ok z h' /\
            h' z = with_compact (with_form (h1 z) finite) (Z.quot a b) /\
            (forall p, p <> z -> h' p = h1 p) ->
            quoAndRound z a b h1 = Ok z h' /\
            h' z = mkBig (ctx (h z)) (unscaled (h z)) (Z.quot a b)
                     (xs - ys + shift) finite /\
            (forall p, p <> z -> h' p = h p)).
  { intros a b h' (E1 & E2 & E3). split; [exact E1|]. split.
    - rewrite E2. unfold h1. rewrite upd_same. reflexivity.
    - intros p Hp. rewrite (E3 p Hp). unfold h1. now rewrite upd_other. }
  destruct (Z.ltb_spec 0 shift) as [Hpos|Hneg].
  - rewrite (Z.max_r 0 shift) in * by lia.
    rewrite (Z.max_l 0 (- shift)) in * by lia.
    rewrite Z.pow_0_r, Z.mul_1_r in *.
    unfold checked_MulPow10.
    destruct (Z.leb_spec shift 0) as [|_]; [lia|].
    assert (F : fits64 (cx * 10 ^ shift) = true).
    { unfold fits64. apply andb_true_iff.
      assert (MinInt64 = - MaxInt64 - 1) by reflexivity.
      split; apply Z.leb_le; lia. }
    rewrite F. cbn [fst snd].
    destruct (quoAndRound_ToZero h1 z _ _ Hm1 Hcy Hx) as (h' & Hh').
    exists h'. apply Fin. exact Hh'.
  - rewrite (Z.max_l 0 shift) in * by lia.
    rewrite (Z.max_r 0 (- shift)) in * by lia.
    rewrite Z.pow_0_r, Z.mul_1_r in *.
    rewrite (fits32_true (xp - zp)) by lia. cbn [negb].
    rewrite (int32_id (xp - zp)) by lia.
    destruct (Z.eqb_spec (xp - zp) yp) as [E|NE].
    + assert (E0 : shift = 0) by lia.
      replace (cy * 10 ^ (- shift)) with cy by (rewrite E0; cbn; lia).
      destruct (quoAndRound_ToZero h1 z _ _ Hm1 Hcy Hx) as (h' & Hh').
      exists h'. apply Fin. exact Hh'.
    + rewrite (fits32_true (xp - zp - yp)) by lia. cbn [negb].
      rewrite (int32_id (xp - zp - yp)) by lia.
      replace (xp - zp - yp) with (- shift) by lia.
      unfold checked_MulPow10.
      destruct (Z.leb_spec (- shift) 0) as [|_]; [lia|].
      assert (F : fits64 (cy * 10 ^ (- shift)) = true).
      { unfold fits64. apply andb_true_iff.
        assert (MinInt64 = - MaxInt64 - 1) by reflexivity.
        split; apply Z.leb_le; lia. }
      rewrite F. cbn [fst snd].
      assert (Hnz : cy * 10 ^ (- shift) <> 0).
      { apply Z.neq_mul_0. split; [exact Hcy|]. apply Z.pow_nonzero; lia. }
      destruct (quoAndRound_ToZero h1 z _ _ Hm1 Hnz Hx) as (h' & Hh').
      exists h'. apply Fin. exact Hh'.
Qed.

Lemma arith_Length_range (c : Z) :
  MinInt64 <= c <= MaxInt64 -> 1 <= arith_Length c <= 19.
Proof.
  intros Hc. split; [|now apply arith_Length_int64].
  destruct (Z.eq_dec c 0) as [->|Hn]; [vm_compute; discriminate|].
  apply (arith_Length_bounds c Hn).
Qed.

Lemma bind_rd {A B} (p : ptr) (f : Big -> A) (k : A -> M B) (h : heap) :
  bind (rd p f) k h = k (f (h p)) h.
Proof. reflexivity. Qed.

Lemma Quo_compact_core (h : heap) (z x y : ptr) :
  form (h x) = finite -> form (h y) = finite ->
  isCompact_ (h x) = true -> isCompact_ (h y) = true ->
  int32 (Precision_ (h x)) = Precision_ (h x) ->
  int32 (Precision_ (h y)) = Precision_ (h y) ->
  Quo z x y h =
    quoCompactCore z (compact (h x)) (scale (h x)) (Precision_ (h x))
      (compact (h y)) (scale (h y)) (Precision_ (h y)) h.
Proof.
  intros Fx Fy Cx Cy Ix Iy.
  unfold Quo. rewrite !bind_rd. rewrite Fx, Fy.
  change ((finite =? finite) && (finite =? finite)) with true. cbv iota.
  unfold isCompact. rewrite !bind_rd. rewrite Cx, Cy. cbn [andb].
  unfold quoCompact, Precision. rewrite !bind_rd. rewrite Ix, Iy.
  reflexivity.
Qed.

(** Quo on two compact finite operands when the receiver rounds ToZero: z
    ends finite with the quotient truncated toward zero, computed after the
    dividend (or, for a negative shift, the divisor) has been multiplied by
    the power of ten that gives the quotient the digits of the receiver's
    precision; the scale is the difference of the scales plus that shift.
    The Context of z is not written, so an inexact quotient raises neither
    Inexact nor Rounded, and every other Big is left alone; z may be x or
    y.  The scaled operand fits an int64 and the scales fit an int32. *)
Theorem Quo_ToZero_truncates (h : heap) (z x y : ptr) :
  form (h x) = finite -> form (h y) = finite ->
  isCompact_ (h x) = true -> isCompact_ (h y) = true ->
  MinInt64 <= compact (h x) <= MaxInt64 ->
  MinInt64 <= compact (h y) <= MaxInt64 ->
  compact (h y) <> 0 ->
  RoundingMode (ctx (h z)) = ToZero ->
  0 <= Context_Precision (ctx (h z)) <= MaxInt32 ->
  let yp := Precision_ (h y)
            - (if cmpNorm (compact (h x)) (Precision_ (h x))
                          (compact (h y)) (Precision_ (h y)) then 1 else 0) in
  let shift := Context_Precision (ctx (h z)) + yp - Precision_ (h x) in
  shift <= MaxInt32 ->
  MinInt32 <= scale (h x) - scale (h y) <= MaxInt32 ->
  MinInt32 <= scale (h x) - scale (h y) + shift <= MaxInt32 ->
  - MaxInt64 <= compact (h x) * 10 ^ Z.max 0 shift <= MaxInt64 ->
  - MaxInt64 <= compact (h y) * 10 ^ Z.max 0 (- shift) <= MaxInt64 ->
  exists h',
    Quo z x y h = Ok z h' /\
    form (h' z) = finite /\
    compact (h' z) =
      Z.quot (compact (h x) * 10 ^ Z.max 0 shift)
             (compact (h y) * 10 ^ Z.max 0 (- shift)) /\
    scale (h' z) = scale (h x) - scale (h y) + shift /\
    ctx (h' z) = ctx (h z) /\
    (forall p, p <> z -> h' p = h p).
Proof.
  intros Fx Fy Cx Cy Bx By Hy0 Hm Hzp. cbv zeta. intros Hsh Hsd Hsc Hx Hy.
  pose proof (arith_Length_range _ Bx) as Lx.
  pose proof (arith_Length_range _ By) as Ly.
  assert (Px : Precision_ (h x) = arith_Length (compact (h x))).
  { unfold Precision_. rewrite Fx, Cx. reflexivity. }
  assert (Py : Precision_ (h y) = arith_Length (compact (h y))).
  { unfold Precision_. rewrite Fy, Cy. reflexivity. }
  assert (B : MinInt32 = -2147483648 /\ MaxInt32 = 2147483647) by (split; reflexivity).
  assert (Ix : int32 (Precision_ (h x)) = Precision_ (h x)).
  { apply int32_id. rewrite Px. clear - Lx B. lia. }
  assert (Iy : int32 (Precision_ (h y)) = Precision_ (h y)).
  { apply int32_id. rewrite Py. clear - Ly B. lia. }
  assert (Lx' : 1 <= Precision_ (h x) <= 19) by (rewrite Px; exact Lx).
  assert (Ly' : 1 <= Precision_ (h y) <= 19) by (rewrite Py; exact Ly).
  destruct (quoCompactCore_ToZero h z (compact (h x)) (scale (h x)) (Precision_ (h x))
              (compact (h y)) (scale (h y)) (Precision_ (h y))
              Hm Hy0 Hzp Lx' Ly' Hsh Hsd Hsc Hx Hy)
    as (h' & E & Hz & Hfr).
  exists h'. split.
  - rewrite (Quo_compact_core h z x y Fx Fy Cx Cy Ix Iy). exact E.
  - rewrite Hz. cbn [form compact scale ctx].
    split; [reflexivity|]. split; [reflexivity|]. split; [reflexivity|].
    split; [reflexivity | exact Hfr].
Qed.

Lemma Quo_ToZero_truncates_witness :
  let h := heap3 (inContext (mkContext Go 0 0 0 None ToZero) Big0) (New 1 0) (New (-3) 2) in
  let z := 0%nat in let x := 1%nat in let y := 2%nat in
  let yp := Precision_ (h y)
            - (if cmpNorm (compact (h x)) (Precision_ (h x))
                          (compact (h y)) (Precision_ (h y)) then 1 else 0) in
  let shift := Context_Precision (ctx (h z)) + yp - Precision_ (h x) in
  exists h',
    Quo z x y h = Ok z h' /\
    form (h' z) = finite /\
    compact (h' z) =
      Z.quot (compact (h x) * 10 ^ Z.max 0 shift)
             (compact (h y) * 10 ^ Z.max 0 (- shift)) /\
    scale (h' z) = scale (h x) - scale (h y) + shift /\
    ctx (h' z) = ctx (h z) /\
    (forall p, p <> z -> h' p = h p).
Proof.
  intros h z x y.
  apply (Quo_ToZero_truncates h z x y);
    try reflexivity; try (vm_compute; discriminate);
    try (split; vm_compute; discriminate).
Defined.
